(** * react-video-recorder-buffer: chunk buffer and upload orchestrator

    A shallow embedding of [services/VideoBuffer.ts] and
    [services/VideoUploadService.ts], and the properties of the two
    services stated over it.

    Conventions of the embedding.
    - JavaScript numbers that hold byte counts and millisecond timestamps
      are integers ([Z]); numbers obtained by division (durations in
      seconds, percentages, thresholds such as [maxSize * 0.8]) are exact
      rationals ([Qc]).  Rounding of IEEE doubles is not modelled.
    - [Date.now()] is an explicit argument [now] of every operation that
      reads the clock.
    - Strings are sequences of character codes ([string], one [ascii]
      per UTF-16 code unit; the codes from 256 on are not represented,
      and [sanitizeFilename] treats every code outside [[A-Za-z0-9.-]]
      alike); a regular expression is embedded as the string function it
      denotes.
    - The IndexedDB object store ['chunks'] (key path ['id']) is a finite
      map from primary key to record, shared by every buffer.
    - The service's [Map]s are finite maps; the objects they hold by
      reference (abort controllers) live in an explicit heap.
    - An [async] method of the upload service runs as one step up to
      the points where it waits and [cancelUpload] may run; those points
      are explicit.  The [async] methods of the buffer are given twice:
      as one step each, for a call that is awaited while nothing else is
      in flight, and await by await, for calls that overlap; the two are
      proved to agree on awaited calls. *)

From Stdlib Require Import QArith Qcanon Qround Ascii.
From stdpp Require Import base numbers list strings gmap fin_maps sorting pretty.

Local Open Scope Z_scope.

(** ** Part A.  [sanitizeFilename] *)

Module Filename.

(** The character class [[a-zA-Z0-9.-]]. *)
Definition allowed (c : ascii) : bool :=
  let n := N_of_ascii c in
  ((97 <=? n) && (n <=? 122) ||
   (65 <=? n) && (n <=? 90) ||
   (48 <=? n) && (n <=? 57) ||
   (n =? 46) || (n =? 45))%N.

Definition underscore : ascii := "_"%char.

Definition is_underscore (c : ascii) : bool := Ascii.eqb c underscore.

(** [.replace(/[^a-zA-Z0-9.-]/g, '_')] *)
Fixpoint replace_disallowed (s : string) : string :=
  match s with
  | EmptyString => EmptyString
  | String c rest =>
      String (if allowed c then c else underscore) (replace_disallowed rest)
  end.

(** [.replace(/__+/g, '_')]: every maximal run of two or more
    underscores becomes one underscore, that is, an underscore followed
    by another underscore is dropped. *)
Fixpoint collapse_underscores (s : string) : string :=
  match s with
  | EmptyString => EmptyString
  | String c rest =>
      if is_underscore c then
        match rest with
        | String c' _ =>
            if is_underscore c' then collapse_underscores rest
            else String c (collapse_underscores rest)
        | EmptyString => String c EmptyString
        end
      else String c (collapse_underscores rest)
  end.

(** The [_$] alternative: one underscore at the very end is removed. *)
Fixpoint drop_trailing_underscore (s : string) : string :=
  match s with
  | EmptyString => EmptyString
  | String c EmptyString => if is_underscore c then EmptyString else s
  | String c rest => String c (drop_trailing_underscore rest)
  end.

(** [.replace(/^_|_$/g, '')]: the match at position 0 is consumed first,
    the scan then goes on in the rest of the string. *)
Definition trim_underscores (s : string) : string :=
  match s with
  | String c rest =>
      if is_underscore c then drop_trailing_underscore rest
      else drop_trailing_underscore s
  | EmptyString => EmptyString
  end.

Definition sanitizeFilename (filename : string) : string :=
  trim_underscores (collapse_underscores (replace_disallowed filename)).

(** Observations on a string. *)
Fixpoint has_double_underscore (s : string) : bool :=
  match s with
  | String c ((String c' _) as rest) =>
      (is_underscore c && is_underscore c') || has_double_underscore rest
  | _ => false
  end.

Definition starts_with_underscore (s : string) : bool :=
  match s with
  | String c _ => is_underscore c
  | EmptyString => false
  end.

Fixpoint ends_with_underscore (s : string) : bool :=
  match s with
  | EmptyString => false
  | String c EmptyString => is_underscore c
  | String _ rest => ends_with_underscore rest
  end.

Fixpoint all_chars (p : ascii -> bool) (s : string) : bool :=
  match s with
  | EmptyString => true
  | String c rest => p c && all_chars p rest
  end.

Fixpoint filter_chars (p : ascii -> bool) (s : string) : string :=
  match s with
  | EmptyString => EmptyString
  | String c rest =>
      if p c then String c (filter_chars p rest) else filter_chars p rest
  end.

(** The claim in its own words: the name is cut into its maximal runs
    of characters of the class, and the runs are put together again with
    one underscore between two neighbours.  Whatever stands between two
    runs thus becomes a single underscore, and what stands before the
    first run or after the last one is gone. *)
Definition starts_allowed (s : string) : bool :=
  match s with
  | String c _ => allowed c
  | EmptyString => false
  end.

Fixpoint allowed_runs (s : string) : list string :=
  match s with
  | EmptyString => []
  | String c rest =>
      if allowed c then
        match starts_allowed rest, allowed_runs rest with
        | true, run :: runs => String c run :: runs
        | _, runs => String c EmptyString :: runs
        end
      else allowed_runs rest
  end.

Fixpoint join_underscore (runs : list string) : string :=
  match runs with
  | [] => EmptyString
  | [run] => run
  | run :: rest => run +:+ String underscore (join_underscore rest)
  end.

(** The characters a sanitized name may hold. *)
Definition kept (c : ascii) : bool := allowed c || is_underscore c.

End Filename.

(** ** Part B.  [VideoBuffer] *)

(** A [Blob]: its bytes and its media type. *)
Record Blob := mkBlob { blob_data : list Byte.byte; blob_type : string }.

Definition blob_size (b : Blob) : Z := Z.of_nat (length (blob_data b)).

(** [blob.slice(start, end)] for [0 <= start] and [0 <= end]; bounds past
    the end are clamped by [drop] and [take]. *)
Definition blob_slice (b : Blob) (start stop : Z) : Blob :=
  {| blob_data := take (Z.to_nat (stop - start)) (drop (Z.to_nat start) (blob_data b));
     blob_type := "" |}.

(** The constant [0.8] of the near-limit rule. *)
Definition ratio_0_8 : Qc := Q2Qc (8 # 10).

(** [ms / 1000] *)
Definition seconds_of_ms (ms : Z) : Qc := (Qc_of_Z ms / Qc_of_Z 1000)%Qc.

Module VideoBuffer.

Record VideoChunk := mkChunk {
  blob : Blob;
  timestamp : Z;
  size : Z;
  duration : Qc
}.

Inductive CompressionLevel := none | low | medium | high.

Record BufferConfig := mkConfig {
  maxSize : Z;
  maxDuration : Z;
  chunkInterval : Z;
  compressionLevel : CompressionLevel;
  autoFlush : bool
}.

(** [Partial<BufferConfig>] *)
Record PartialBufferConfig := mkPartial {
  p_maxSize : option Z;
  p_maxDuration : option Z;
  p_chunkInterval : option Z;
  p_compressionLevel : option CompressionLevel;
  p_autoFlush : option bool
}.

(** The field [isNearLimit] of the source is [nearLimit] here, the name
    being taken by the method. *)
Record BufferStats := mkStats {
  totalSize : Z;
  totalDuration : Qc;
  chunkCount : nat;
  memoryUsage : Z;
  nearLimit : bool
}.

(** The object: its private fields. *)
Record t := mkBuffer {
  chunks : list VideoChunk;
  config : BufferConfig;
  startTime : Z;
  recordingId : string
}.

(** A record of the object store ['chunks']. *)
Record ChunkData := mkData {
  rec_id : string;
  rec_recordingId : string;
  rec_blob : Blob;
  rec_timestamp : Z;
  rec_size : Z;
  rec_duration : Qc
}.

(** The object store, keyed by [id]. *)
Abbreviation Store := (gmap string ChunkData).

Inductive error := RangeError | StorageError.

(** How a call ends: it returns, or an exception leaves it. *)
Inductive outcome := Returned | Threw (e : error).

(** *** The object store *)

(** [store.put(record)] with key path ['id']: inserts or overwrites. *)
Definition store_put (d : ChunkData) (db : Store) : Store :=
  <[rec_id d := d]> db.

Definition key_le (x y : string * ChunkData) : Prop :=
  String.leb x.1 y.1 = true.

Global Instance key_le_dec : RelDecision key_le.
Proof. intros x y. unfold key_le. apply _. Defined.

Definition of_recording (rid : string) (kv : string * ChunkData) : Prop :=
  rec_recordingId kv.2 = rid.

Global Instance of_recording_dec rid kv : Decision (of_recording rid kv).
Proof. unfold of_recording. apply _. Defined.

(** [store.index('recordingId').getAll(rid)]: the records of one
    recording, in primary-key order. *)
Definition index_getAll (rid : string) (db : Store) : list ChunkData :=
  (merge_sort key_le (map_to_list (filter (of_recording rid) db))).*2.

(** *** The methods *)

Definition defaultConfig : BufferConfig :=
  {| maxSize := 100 * 1024 * 1024;
     maxDuration := 1800;
     chunkInterval := 1000;
     compressionLevel := medium;
     autoFlush := true |}.

(** [{ ...defaults, ...config }] *)
Definition mergeConfig (c : PartialBufferConfig) : BufferConfig :=
  {| maxSize := default (maxSize defaultConfig) (p_maxSize c);
     maxDuration := default (maxDuration defaultConfig) (p_maxDuration c);
     chunkInterval := default (chunkInterval defaultConfig) (p_chunkInterval c);
     compressionLevel :=
       default (compressionLevel defaultConfig) (p_compressionLevel c);
     autoFlush := default (autoFlush defaultConfig) (p_autoFlush c) |}.

Definition noOverrides : PartialBufferConfig := mkPartial None None None None None.

Definition new (rid : string) (c : PartialBufferConfig) : t :=
  {| chunks := []; config := mergeConfig c; startTime := 0; recordingId := rid |}.

Definition initialize (b : t) (now : Z) : t :=
  {| chunks := []; config := config b; startTime := now;
     recordingId := recordingId b |}.

Definition estimateMemoryUsage (b : t) : Z :=
  let blobSize := fold_left (fun sum chunk => sum + size chunk) (chunks b) 0 in
  let metadataOverhead := Z.of_nat (length (chunks b)) * 100 in
  blobSize + metadataOverhead.

(** The body of [getStats]; [isNearLimit_call] is what the call
    [this.isNearLimit()] in the returned object literal yields, [None]
    when that call does not return. *)
Definition getStats_body (isNearLimit_call : option bool) (b : t) (now : Z)
  : option BufferStats :=
  let totalSize := fold_left (fun sum chunk => sum + size chunk) (chunks b) 0 in
  let totalDuration :=
    if bool_decide (0 < length (chunks b))%nat
    then seconds_of_ms (now - startTime b)
    else 0%Qc in
  let memoryUsage := estimateMemoryUsage b in
  match isNearLimit_call with
  | Some nl =>
      Some {| totalSize := totalSize; totalDuration := totalDuration;
              chunkCount := length (chunks b); memoryUsage := memoryUsage;
              nearLimit := nl |}
  | None => None
  end.

(** The body of [isNearLimit]; [getStats_call] is what the call
    [this.getStats()] on its first line yields. *)
Definition isNearLimit_body (getStats_call : option BufferStats) (b : t)
  : option bool :=
  match getStats_call with
  | Some stats =>
      let sizeLimit :=
        bool_decide (Qc_of_Z (maxSize (config b)) * ratio_0_8
                     ≤ Qc_of_Z (totalSize stats))%Qc in
      let durationLimit :=
        bool_decide (Qc_of_Z (maxDuration (config b)) * ratio_0_8
                     ≤ totalDuration stats)%Qc in
      Some (sizeLimit || durationLimit)
  | None => None
  end.

(** [getStats] calls [isNearLimit] and [isNearLimit] calls [getStats].
    [stack] is the number of frames the call stack still has room for; a
    call with no room left raises [RangeError] (here [None]), which
    neither method catches. *)
Fixpoint getStats (stack : nat) (b : t) (now : Z) {struct stack}
  : option BufferStats :=
  match stack with
  | O => None
  | S k => getStats_body (isNearLimit k b now) b now
  end
with isNearLimit (stack : nat) (b : t) (now : Z) {struct stack} : option bool :=
  match stack with
  | O => None
  | S k => isNearLimit_body (getStats k b now) b
  end.

(** [`${this.recordingId}_${chunk.timestamp}`] *)
Definition chunkId (rid : string) (ts : Z) : string :=
  rid +:+ "_" +:+ pretty ts.

Definition chunkData (rid : string) (chunk : VideoChunk) : ChunkData :=
  {| rec_id := chunkId rid (timestamp chunk);
     rec_recordingId := rid;
     rec_blob := blob chunk;
     rec_timestamp := timestamp chunk;
     rec_size := size chunk;
     rec_duration := duration chunk |}.

(** [flushToIndexedDB], called and awaited while no other call is in
    flight: the method from its first line to its last, as one step.
    [dbOk] tells whether [openIndexedDB] resolves; the puts run in one
    transaction, so a put that fails undoes the earlier ones and leaves
    store and memory as a failure to open does.  What the method does
    await by await, with other calls in between, is [resume] below. *)
Definition flushToIndexedDB (dbOk : bool) (b : t) (db : Store)
  : t * Store * outcome :=
  if bool_decide (length (chunks b) = 0%nat) then (b, db, Returned)
  else if dbOk then
    let db' :=
      fold_left (fun db chunk => store_put (chunkData (recordingId b) chunk) db)
                (chunks b) db in
    ({| chunks := []; config := config b; startTime := startTime b;
        recordingId := recordingId b |}, db', Returned)
  else (b, db, Threw StorageError).

(** [addChunk]. The promise of the automatic flush is not awaited: its
    failure does not reach the caller of [addChunk]. *)
Definition addChunk (stack : nat) (dbOk : bool) (b : t) (db : Store)
    (payload : Blob) (now : Z) : t * Store * outcome :=
  let chunk :=
    {| blob := payload; timestamp := now; size := blob_size payload;
       duration := seconds_of_ms (now - startTime b) |} in
  let b1 :=
    {| chunks := chunks b ++ [chunk]; config := config b;
       startTime := startTime b; recordingId := recordingId b |} in
  if autoFlush (config b1) then
    match isNearLimit stack b1 now with
    | None => (b1, db, Threw RangeError)
    | Some true =>
        let '(b2, db2, _) := flushToIndexedDB dbOk b1 db in (b2, db2, Returned)
    | Some false => (b1, db, Returned)
    end
  else (b1, db, Returned).

Definition toChunk (data : ChunkData) : VideoChunk :=
  {| blob := rec_blob data; timestamp := rec_timestamp data;
     size := rec_size data; duration := rec_duration data |}.

(** [allChunks.sort((a, b) => a.timestamp - b.timestamp)]: a stable sort
    by ascending timestamp. *)
Fixpoint insert_by_timestamp (c : VideoChunk) (l : list VideoChunk)
  : list VideoChunk :=
  match l with
  | [] => [c]
  | d :: l' =>
      if bool_decide (timestamp c ≤ timestamp d) then c :: d :: l'
      else d :: insert_by_timestamp c l'
  end.

Definition sort_by_timestamp (l : list VideoChunk) : list VideoChunk :=
  foldr insert_by_timestamp [] l.

(** [getAllChunks], called and awaited while no other call is in
    flight; without the store it falls back to the memory chunks as
    they are. *)
Definition getAllChunks (dbOk : bool) (b : t) (db : Store) : list VideoChunk :=
  let memoryChunks := chunks b in
  if dbOk then
    let dbChunks := index_getAll (recordingId b) db in
    sort_by_timestamp ((toChunk <$> dbChunks) ++ memoryChunks)
  else memoryChunks.

(** *** Sessions: calls made on one buffer, each awaited before the next

    An exception that leaves [addChunk] is the caller's to handle; the
    session goes on with the object as the call left it. *)

Inductive call :=
| AddChunk (payload : Blob) (now : Z) (dbOk : bool)
| Flush (dbOk : bool).

Definition do_call (stack : nat) (s : t * Store) (c : call) : t * Store :=
  match c with
  | AddChunk payload now dbOk => (addChunk stack dbOk s.1 s.2 payload now).1
  | Flush dbOk => (flushToIndexedDB dbOk s.1 s.2).1
  end.

Definition session (stack : nat) (cs : list call) (s : t * Store) : t * Store :=
  fold_left (do_call stack) cs s.

(** The clock readings of the [addChunk] calls. *)
Fixpoint add_times (cs : list call) : list Z :=
  match cs with
  | [] => []
  | AddChunk _ now _ :: cs' => now :: add_times cs'
  | Flush _ :: cs' => add_times cs'
  end.

(** No record of recording [rid] is in the store. *)
Definition no_records_of (rid : string) (db : Store) : Prop :=
  ∀ k d, db !! k = Some d → rec_recordingId d ≠ rid.

(** The records of recording [rid] sit under the keys [flushToIndexedDB]
    gives them. *)
Definition keyed_by_timestamp (rid : string) (db : Store) : Prop :=
  ∀ k d, db !! k = Some d → rec_recordingId d = rid →
         k = chunkId rid (rec_timestamp d).

Definition by_timestamp (a b : VideoChunk) : Prop := timestamp a ≤ timestamp b.

(** The chunks a session appends to a buffer started at [start]. *)
Fixpoint appended (start : Z) (cs : list call) : list VideoChunk :=
  match cs with
  | [] => []
  | AddChunk payload now _ :: cs' =>
      {| blob := payload; timestamp := now; size := blob_size payload;
         duration := seconds_of_ms (now - start) |} :: appended start cs'
  | Flush _ :: cs' => appended start cs'
  end.

(** *** Notions the properties are stated with *)

(** A buffer with a maximum of 100 bytes that holds one chunk of [n]
    bytes, 10 ms into the recording. *)
Definition buffer_of_size (n : nat) : t :=
  {| chunks := [ {| blob := mkBlob (replicate n Byte.x00) "video/webm";
                    timestamp := 10; size := Z.of_nat n;
                    duration := seconds_of_ms 10 |} ];
     config := mkConfig 100 1800 1000 medium false;
     startTime := 0;
     recordingId := "rec" |}.

(** The buffer of the README's test: [new VideoBuffer('test-recording')],
    [initialize()], [addChunk(new Blob(['test'], ...))]. *)
Definition readme_test : t :=
  (addChunk 0 true (initialize (new "test-recording" noOverrides) 0) ∅
     (mkBlob [Byte.x74; Byte.x65; Byte.x73; Byte.x74] "video/webm") 0).1.1.

(** The sum of the sizes of a list of chunks. *)
Definition sum_sizes (l : list VideoChunk) : Z :=
  foldr (fun c acc => size c + acc) 0 l.

(** The store after the puts of one flush. *)
Definition flush_puts (rid : string) (l : list VideoChunk) (db : Store) : Store :=
  fold_left (fun db chunk => store_put (chunkData rid chunk) db) l db.

(** The persisted chunks of the buffer's recording, then the chunks in
    memory. *)
Definition all_of (s : t * Store) : list VideoChunk :=
  (toChunk <$> index_getAll (recordingId s.1) s.2) ++ chunks s.1.

(** Two chunks appended in the same millisecond, then flushed. *)
Definition two_at_once : list call :=
  [AddChunk (mkBlob [Byte.x01] "video/webm") 5 true;
   AddChunk (mkBlob [Byte.x02] "video/webm") 5 true;
   Flush true].

(** [{ autoFlush: false }] *)
Definition manual_flush : PartialBufferConfig :=
  mkPartial None None None None (Some false).

(** *** The remaining methods *)

(** The media type a [Blob] constructor keeps: the given one with the
    letters A-Z in lower case, or the empty string when it holds a code
    outside U+0020 to U+007E. *)
Definition printable (c : ascii) : bool :=
  ((32 <=? N_of_ascii c) && (N_of_ascii c <=? 126))%N.

Definition ascii_lower (c : ascii) : ascii :=
  let n := N_of_ascii c in
  if ((65 <=? n) && (n <=? 90))%N then ascii_of_N (n + 32) else c.

Fixpoint ascii_lowercase (s : string) : string :=
  match s with
  | EmptyString => EmptyString
  | String c rest => String (ascii_lower c) (ascii_lowercase rest)
  end.

Definition normalize_type (type : string) : string :=
  if Filename.all_chars printable type then ascii_lowercase type
  else EmptyString.

(** [new Blob(parts, { type })] *)
Definition Blob_of_parts (parts : list Blob) (type : string) : Blob :=
  {| blob_data := mjoin (blob_data <$> parts);
     blob_type := normalize_type type |}.

(** [createFinalBlob(mimeType = 'video/webm')] *)
Definition createFinalBlob (b : t) (mimeType : option string) : Blob :=
  let allBlobs := blob <$> chunks b in
  Blob_of_parts allBlobs (default "video/webm"%string mimeType).

(** [createCompleteFinalBlob(mimeType = 'video/webm')] *)
Definition createCompleteFinalBlob (dbOk : bool) (b : t) (db : Store)
    (mimeType : option string) : Blob :=
  let allChunks := getAllChunks dbOk b db in
  let allBlobs := blob <$> allChunks in
  Blob_of_parts allBlobs (default "video/webm"%string mimeType).

(** [store.index('recordingId').getAllKeys(rid)] *)
Definition index_getAllKeys (rid : string) (db : Store) : list string :=
  (merge_sort key_le (map_to_list (filter (of_recording rid) db))).*1.

(** [clear]: a failure of the store is logged and goes no further; the
    deletions run in one transaction. *)
Definition clear (dbOk : bool) (b : t) (db : Store) : t * Store :=
  let b' := {| chunks := []; config := config b; startTime := startTime b;
               recordingId := recordingId b |} in
  if dbOk then
    let keys := index_getAllKeys (recordingId b) db in
    (b', fold_left (fun db key => delete key db) keys db)
  else (b', db).

(** [store.getAll()]: every record, in primary-key order. *)
Definition store_getAll (db : Store) : list ChunkData :=
  (merge_sort key_le (map_to_list db)).*2.

(** [VideoBuffer.cleanupOldRecordings(maxAge = 24 * 60 * 60 * 1000)]; a
    failure of the store is logged and goes no further. *)
Definition cleanupOldRecordings (dbOk : bool) (maxAge : option Z) (now : Z)
    (db : Store) : Store :=
  if dbOk then
    let cutoffTime := now - default (24 * 60 * 60 * 1000) maxAge in
    fold_left
      (fun db record =>
         if bool_decide (rec_timestamp record < cutoffTime)
         then delete (rec_id record) db
         else db)
      (store_getAll db) db
  else db.

(** [s.padStart(2, '0')] *)
Definition padStart2 (s : string) : string :=
  match String.length s with
  | O => "00"
  | S O => "0" +:+ s
  | _ => s
  end.

(** The integer towards zero from a rational. *)
Definition Q_trunc (q : Q) : Z :=
  if Qle_bool 0 q then Qfloor q else Qceiling q.

(** [seconds % 60] *)
Definition rem60 (seconds : Qc) : Q :=
  (seconds - inject_Z (60 * Q_trunc (seconds / 60)))%Q.

(** [formatDuration] of [getRecordingSummary] *)
Definition formatDuration (seconds : Qc) : string :=
  let mins := Qfloor (seconds / 60) in
  let secs := Qfloor (rem60 seconds) in
  pretty mins +:+ ":" +:+ padStart2 (pretty secs).

(** [(num / den).toFixed(1)] for [0 <= num] and [0 < den]: the tenths
    nearest to the quotient, the larger ones on a tie. *)
Definition toFixed1 (num den : Z) : string :=
  let n := (20 * num + den) / (2 * den) in
  pretty (n / 10) +:+ "." +:+ pretty (n mod 10).

(** [formatSize] of [getRecordingSummary] *)
Definition formatSize (bytes : Z) : string :=
  if bool_decide (bytes < 1024) then pretty bytes +:+ " B"
  else if bool_decide (bytes < 1024 * 1024)
       then toFixed1 bytes 1024 +:+ " KB"
       else toFixed1 bytes (1024 * 1024) +:+ " MB".

Inductive SummaryStatus := recording | complete | failed.

(** The result of [getRecordingSummary]; [failed] is the status
    ['error']. *)
Record RecordingSummary := mkSummary {
  sum_recordingId : string;
  sum_duration : string;
  sum_size : string;
  sum_chunks : nat;
  sum_status : SummaryStatus
}.

(** [getRecordingSummary]; its first statement is the call
    [this.getStats()]. *)
Definition getRecordingSummary (stack : nat) (b : t) (now : Z)
  : option RecordingSummary :=
  match getStats stack b now with
  | Some stats =>
      Some {| sum_recordingId := recordingId b;
              sum_duration := formatDuration (totalDuration stats);
              sum_size := formatSize (totalSize stats);
              sum_chunks := chunkCount stats;
              sum_status := if nearLimit stats then failed else recording |}
  | None => None
  end.

(** A session made of [addChunk] calls only. *)
Definition only_adds (cs : list call) : Prop :=
  Forall (fun c => match c with AddChunk _ _ _ => True | Flush _ => False end) cs.

(** The store holds every record under its [id], as the key path has
    it. *)
Definition key_is_id (db : Store) : Prop :=
  ∀ k d, db !! k = Some d → rec_id d = k.

(** The [size] field of every chunk is the size of its blob. *)
Definition sizes_agree (l : list VideoChunk) : Prop :=
  Forall (fun c => size c = blob_size (blob c)) l.

(** *** Calls in flight

    [flushToIndexedDB] and [getAllChunks] are [async]: a call runs up to
    its next [await] and goes on when the awaited request has settled;
    in between, other calls may start or go on.  Arrays are objects:
    [this.chunks] names one of them, [addChunk] appends to the one it
    names at that moment, [this.chunks = []] makes it name a new one,
    and the loop of a flush goes through the array it was started on.
    The transactions on the store ['chunks'] run one at a time, in the
    order of their creation: a request completes only when the
    transactions created before its own have finished. *)

(** Where a call in flight waits, or how it has settled. *)
Inductive task :=
| FlushOpening
| FlushPutting (array : nat) (i : nat)
| FlushSettled (o : outcome)
| GetOpening (memoryChunks : list VideoChunk)
| GetReading (memoryChunks : list VideoChunk)
| GetSettled (result : list VideoChunk).

(** The object, the heap of arrays, the store, the calls made so far
    ([tasks], in the order they were made) and the calls whose
    transaction has not finished, oldest first. *)
Record world := mkWorld {
  arrays : list (list VideoChunk);
  this_chunks : nat;
  w_config : BufferConfig;
  w_startTime : Z;
  w_recordingId : string;
  w_store : Store;
  tasks : list task;
  transactions : list nat
}.

Definition array_at (a : nat) (w : world) : list VideoChunk :=
  default [] (arrays w !! a).

Definition the_chunks (w : world) : list VideoChunk :=
  array_at (this_chunks w) w.

(** The object as the synchronous methods see it. *)
Definition object (w : world) : t :=
  {| chunks := the_chunks w; config := w_config w;
     startTime := w_startTime w; recordingId := w_recordingId w |}.

(** A buffer and a store with no call in flight. *)
Definition start (b : t) (db : Store) : world :=
  {| arrays := [chunks b]; this_chunks := 0; w_config := config b;
     w_startTime := startTime b; w_recordingId := recordingId b;
     w_store := db; tasks := []; transactions := [] |}.

(** [this.chunks = []] *)
Definition assign_empty (w : world) : world :=
  {| arrays := arrays w ++ [[]]; this_chunks := length (arrays w);
     w_config := w_config w; w_startTime := w_startTime w;
     w_recordingId := w_recordingId w; w_store := w_store w;
     tasks := tasks w; transactions := transactions w |}.

(** [this.chunks.push(chunk)] *)
Definition push (chunk : VideoChunk) (w : world) : world :=
  {| arrays := alter (fun l => l ++ [chunk]) (this_chunks w) (arrays w);
     this_chunks := this_chunks w;
     w_config := w_config w; w_startTime := w_startTime w;
     w_recordingId := w_recordingId w; w_store := w_store w;
     tasks := tasks w; transactions := transactions w |}.

Definition spawn (s : task) (w : world) : world :=
  {| arrays := arrays w; this_chunks := this_chunks w;
     w_config := w_config w; w_startTime := w_startTime w;
     w_recordingId := w_recordingId w; w_store := w_store w;
     tasks := tasks w ++ [s]; transactions := transactions w |}.

Definition set_task (k : nat) (s : task) (w : world) : world :=
  {| arrays := arrays w; this_chunks := this_chunks w;
     w_config := w_config w; w_startTime := w_startTime w;
     w_recordingId := w_recordingId w; w_store := w_store w;
     tasks := <[k := s]> (tasks w); transactions := transactions w |}.

(** [db.transaction(['chunks'], mode)] in call [k] *)
Definition begin_transaction (k : nat) (w : world) : world :=
  {| arrays := arrays w; this_chunks := this_chunks w;
     w_config := w_config w; w_startTime := w_startTime w;
     w_recordingId := w_recordingId w; w_store := w_store w;
     tasks := tasks w; transactions := transactions w ++ [k] |}.

(** The transaction of call [k] has no request left and finishes. *)
Definition end_transaction (k : nat) (w : world) : world :=
  {| arrays := arrays w; this_chunks := this_chunks w;
     w_config := w_config w; w_startTime := w_startTime w;
     w_recordingId := w_recordingId w; w_store := w_store w;
     tasks := tasks w;
     transactions := filter (fun j => j ≠ k) (transactions w) |}.

Definition put_record (d : ChunkData) (w : world) : world :=
  {| arrays := arrays w; this_chunks := this_chunks w;
     w_config := w_config w; w_startTime := w_startTime w;
     w_recordingId := w_recordingId w; w_store := store_put d (w_store w);
     tasks := tasks w; transactions := transactions w |}.

(** [initialize()] *)
Definition call_initialize (now : Z) (w : world) : world :=
  let w := assign_empty w in
  {| arrays := arrays w; this_chunks := this_chunks w;
     w_config := w_config w; w_startTime := now;
     w_recordingId := w_recordingId w; w_store := w_store w;
     tasks := tasks w; transactions := transactions w |}.

(** [flushToIndexedDB()] up to its first [await]. *)
Definition call_flush (w : world) : world :=
  if bool_decide (length (the_chunks w) = 0%nat)
  then spawn (FlushSettled Returned) w
  else spawn FlushOpening w.

(** [addChunk(payload)]; the promise of the automatic flush is dropped,
    and so is the exception that leaves [addChunk], the object staying
    as the call left it. *)
Definition call_addChunk (stack : nat) (payload : Blob) (now : Z) (w : world)
  : world :=
  let chunk :=
    {| blob := payload; timestamp := now; size := blob_size payload;
       duration := seconds_of_ms (now - w_startTime w) |} in
  let w1 := push chunk w in
  if autoFlush (w_config w1) then
    match isNearLimit stack (object w1) now with
    | Some true => call_flush w1
    | _ => w1
    end
  else w1.

(** [getAllChunks()] up to its first [await]. *)
Definition call_getAllChunks (w : world) : world :=
  spawn (GetOpening (the_chunks w)) w.

(** The loop of the flush [k] at element [i] of [array]: the next put
    is requested, or the loop is over, [this.chunks] gets a new array
    and the call returns. *)
Definition flush_next (k array i : nat) (w : world) : world :=
  if bool_decide (i < length (array_at array w))%nat
  then set_task k (FlushPutting array i) w
  else set_task k (FlushSettled Returned) (end_transaction k (assign_empty w)).

(** Call [k] goes on from the [await] it is at; [dbOk] tells whether
    [openIndexedDB] resolves.  A request whose transaction is not the
    oldest one has not completed yet. *)
Definition resume (k : nat) (dbOk : bool) (w : world) : world :=
  match tasks w !! k with
  | Some FlushOpening =>
      if dbOk then flush_next k (this_chunks w) 0 (begin_transaction k w)
      else set_task k (FlushSettled (Threw StorageError)) w
  | Some (FlushPutting array i) =>
      if bool_decide (head (transactions w) = Some k) then
        match array_at array w !! i with
        | Some chunk =>
            flush_next k array (S i)
              (put_record (chunkData (w_recordingId w) chunk) w)
        | None => w
        end
      else w
  | Some (GetOpening memoryChunks) =>
      if dbOk then set_task k (GetReading memoryChunks) (begin_transaction k w)
      else set_task k (GetSettled memoryChunks) w
  | Some (GetReading memoryChunks) =>
      if bool_decide (head (transactions w) = Some k) then
        let dbChunks := index_getAll (w_recordingId w) (w_store w) in
        set_task k
          (GetSettled (sort_by_timestamp ((toChunk <$> dbChunks) ++ memoryChunks)))
          (end_transaction k w)
      else w
  | _ => w
  end.

(** What happens, one thing at a time: the program calls a method, or
    a call in flight goes on. *)
Inductive event :=
| DoInitialize (now : Z)
| DoAddChunk (payload : Blob) (now : Z)
| CallFlush
| CallGetAllChunks
| Resume (k : nat) (dbOk : bool).

Definition step (stack : nat) (w : world) (e : event) : world :=
  match e with
  | DoInitialize now => call_initialize now w
  | DoAddChunk payload now => call_addChunk stack payload now w
  | CallFlush => call_flush w
  | CallGetAllChunks => call_getAllChunks w
  | Resume k dbOk => resume k dbOk w
  end.

Definition run (stack : nat) (es : list event) (w : world) : world :=
  fold_left (step stack) es w.

(** What [getAllChunks()], made as call [k], has resolved to. *)
Definition resolved (k : nat) (w : world) : option (list VideoChunk) :=
  match tasks w !! k with
  | Some (GetSettled result) => Some result
  | _ => None
  end.

(** The program awaits call [k] while nothing else is in flight: the
    call goes on, await after await, until it has settled.  A flush
    waits once for the store and once for each chunk, [getAllChunks]
    twice; going on after that changes nothing. *)
Definition settle (k : nat) (dbOk : bool) (w : world) : world :=
  Nat.iter (2 + length (the_chunks w)) (resume k dbOk) w.

(** A call of a session, awaited before the next one is made. *)
Definition awaited_call (stack : nat) (w : world) (c : call) : world :=
  match c with
  | AddChunk payload now _ => call_addChunk stack payload now w
  | Flush dbOk => settle (length (tasks w)) dbOk (call_flush w)
  end.

Definition awaited (stack : nat) (cs : list call) (w : world) : world :=
  fold_left (awaited_call stack) cs w.

(** [await this.getAllChunks()] *)
Definition awaited_getAllChunks (dbOk : bool) (w : world)
  : option (list VideoChunk) :=
  let k := length (tasks w) in
  resolved k (settle k dbOk (call_getAllChunks w)).

(** [await this.createCompleteFinalBlob(mimeType)] *)
Definition awaited_createCompleteFinalBlob (dbOk : bool) (w : world)
    (mimeType : option string) : option Blob :=
  allChunks ← awaited_getAllChunks dbOk w;
  Some (Blob_of_parts (blob <$> allChunks) (default "video/webm"%string mimeType)).

(** No transaction is open, and [this.chunks] names an array of the
    heap. *)
Definition at_rest (w : world) : Prop :=
  transactions w = [] ∧ (this_chunks w < length (arrays w))%nat.

(** The timestamps of what [getAllChunks()] has resolved to. *)
Definition timestamps (r : option (list VideoChunk)) : option (list Z) :=
  (fun l : list VideoChunk => timestamp <$> l) <$> r.

(** A recording ['rec'] just initialized, with the automatic flush off,
    and an empty store. *)
Definition fresh : world := start (initialize (new "rec" manual_flush) 0) ∅.

(** Two chunks are appended, a flush is started and not awaited, and
    [getAllChunks()] is called while it is in flight. *)
Definition overlapping : list event :=
  [DoAddChunk (mkBlob [Byte.x01] "video/webm") 5;
   DoAddChunk (mkBlob [Byte.x02] "video/webm") 7;
   CallFlush; CallGetAllChunks;
   Resume 0 true; Resume 1 true; Resume 0 true; Resume 0 true; Resume 1 true].

(** A chunk is appended and a flush started; a second flush is started
    while the first one waits for its put; the first one ends, another
    chunk is appended, and the second flush ends. *)
Definition overlapping_flushes : list event :=
  [DoAddChunk (mkBlob [Byte.x01] "video/webm") 5;
   CallFlush; Resume 0 true; CallFlush; Resume 1 true; Resume 0 true;
   DoAddChunk (mkBlob [Byte.x02] "video/webm") 7;
   Resume 1 true].

(** One chunk is appended and flushed. *)
Definition one_flushed : world :=
  awaited 0 [AddChunk (mkBlob [Byte.x01] "video/webm") 5 true; Flush true] fresh.

(** One chunk is appended and flushed, then the recording is
    initialized again and one more chunk is appended. *)
Definition initialized_twice : world :=
  awaited 0 [AddChunk (mkBlob [Byte.x02] "video/webm") 7 true]
    (call_initialize 6
       one_flushed).

End VideoBuffer.

(** ** Part C.  [VideoUploadService] *)

(** A JavaScript number that may come from a division by zero.  The sign
    of zero is not modelled. *)
Inductive number := Num (q : Qc) | PlusInfinity | MinusInfinity | NaN.

Definition Qc_sign_pos (q : Qc) : bool := bool_decide (0 < q)%Qc.

(** [a / b] *)
Definition js_div (a b : number) : number :=
  match a, b with
  | NaN, _ | _, NaN => NaN
  | Num x, Num y =>
      if bool_decide (y = 0%Qc) then
        if bool_decide (x = 0%Qc) then NaN
        else if Qc_sign_pos x then PlusInfinity else MinusInfinity
      else Num (x / y)%Qc
  | Num _, (PlusInfinity | MinusInfinity) => Num 0%Qc
  | (PlusInfinity | MinusInfinity), (PlusInfinity | MinusInfinity) => NaN
  | PlusInfinity, Num y =>
      if bool_decide (y < 0)%Qc then MinusInfinity else PlusInfinity
  | MinusInfinity, Num y =>
      if bool_decide (y < 0)%Qc then PlusInfinity else MinusInfinity
  end.

Definition num_of_Z (z : Z) : number := Num (Qc_of_Z z).

(** [Math.ceil(a / b)] on integers, [b] not zero. *)
Definition ceil_div (a b : Z) : Z := - ((- a) / b).

Module VideoUploadService.

Record UploadConfig := mkUploadConfig {
  chunkSize : Z;
  maxRetries : Z;
  timeout : Z;
  compressionQuality : Qc;
  enableCompression : bool
}.

Inductive Status :=
  Pending | Uploading | Processing | Completed | Error | Cancelled.

Global Instance Status_eq_dec : EqDecision Status.
Proof. solve_decision. Defined.

Record UploadProgress := mkProgress {
  uploadId : string;
  bytesUploaded : Z;
  totalBytes : Z;
  percentage : Qc;
  speed : number;
  estimatedTimeRemaining : number;
  status : Status;
  error : option string
}.

(** [Partial<UploadProgress>]: the fields an update supplies. *)
Record ProgressUpdate := mkUpdate {
  u_uploadId : option string;
  u_bytesUploaded : option Z;
  u_totalBytes : option Z;
  u_percentage : option Qc;
  u_speed : option number;
  u_estimatedTimeRemaining : option number;
  u_status : option Status;
  u_error : option string
}.

Record Resolution := mkResolution { width : Z; height : Z }.

Record VideoMetadata := mkMetadata {
  filename : string;
  size : Z;
  duration : Qc;
  format : string;
  quality : string;
  resolution : option Resolution;
  uploadedAt : string;
  userId : string
}.

(** The fields of the [Partial<VideoMetadata>] argument that
    [uploadVideo] reads. *)
Record MetadataHints := mkHints {
  h_duration : option Qc;
  h_format : option string;
  h_quality : option string;
  h_resolution : option Resolution
}.

Record UploadResult := mkResult {
  success : bool;
  r_uploadId : string;
  filePath : option string;
  publicUrl : option string;
  metadata : option VideoMetadata;
  r_error : option string
}.

(** What [directUpload] and [chunkedUpload] resolve to. *)
Record StrategyResult := mkStrategyResult {
  s_success : bool;
  s_error : option string
}.

(** A progress callback is known by a name; calling it is recorded.  A
    callback does not call into the service, and it returns normally;
    callbacks that throw are the matter of [Raising] below. *)
Definition callback := nat.

(** The service object together with what it reaches by reference:
    [controllers] is the heap of [AbortController]s, the flag being
    [signal.aborted]; [calls] lists the callback invocations, oldest
    first. *)
Record state := mkState {
  config : UploadConfig;
  activeUploads : gmap string nat;
  progressCallbacks : gmap string callback;
  controllers : list bool;
  calls : list (callback * UploadProgress)
}.

Definition defaultConfig : UploadConfig :=
  {| chunkSize := 5 * 1024 * 1024;
     maxRetries := 3;
     timeout := 30000;
     compressionQuality := Q2Qc (8 # 10);
     enableCompression := false |}.

Definition new (cfg : UploadConfig) : state :=
  {| config := cfg; activeUploads := ∅; progressCallbacks := ∅;
     controllers := []; calls := [] |}.

(** *** Private helpers *)

(** [{ uploadId, bytesUploaded: 0, ..., status: 'pending', ...updates }] *)
Definition mergeProgress (id : string) (updates : ProgressUpdate)
  : UploadProgress :=
  {| uploadId := default id (u_uploadId updates);
     bytesUploaded := default 0 (u_bytesUploaded updates);
     totalBytes := default 0 (u_totalBytes updates);
     percentage := default 0%Qc (u_percentage updates);
     speed := default (Num 0%Qc) (u_speed updates);
     estimatedTimeRemaining :=
       default (Num 0%Qc) (u_estimatedTimeRemaining updates);
     status := default Pending (u_status updates);
     error := u_error updates |}.

Definition updateProgress (id : string) (updates : ProgressUpdate)
    (st : state) : state :=
  match progressCallbacks st !! id with
  | Some cb =>
      let currentProgress := mergeProgress id updates in
      {| config := config st; activeUploads := activeUploads st;
         progressCallbacks := progressCallbacks st;
         controllers := controllers st;
         calls := calls st ++ [(cb, currentProgress)] |}
  | None => st
  end.

Definition cleanup (id : string) (st : state) : state :=
  {| config := config st;
     activeUploads := delete id (activeUploads st);
     progressCallbacks := delete id (progressCallbacks st);
     controllers := controllers st;
     calls := calls st |}.

(** [new AbortController()] *)
Definition new_AbortController (st : state) : nat * state :=
  (length (controllers st),
   {| config := config st; activeUploads := activeUploads st;
      progressCallbacks := progressCallbacks st;
      controllers := controllers st ++ [false];
      calls := calls st |}).

(** [controller.abort()] *)
Definition abort (c : nat) (st : state) : state :=
  {| config := config st; activeUploads := activeUploads st;
     progressCallbacks := progressCallbacks st;
     controllers := <[c := true]> (controllers st);
     calls := calls st |}.

(** [signal.aborted] *)
Definition signal_aborted (c : nat) (st : state) : bool :=
  default false (controllers st !! c).

Definition set_activeUpload (id : string) (c : nat) (st : state) : state :=
  {| config := config st; activeUploads := <[id := c]> (activeUploads st);
     progressCallbacks := progressCallbacks st;
     controllers := controllers st; calls := calls st |}.

Definition set_progressCallback (id : string) (cb : callback) (st : state)
  : state :=
  {| config := config st; activeUploads := activeUploads st;
     progressCallbacks := <[id := cb]> (progressCallbacks st);
     controllers := controllers st; calls := calls st |}.

(** *** Public methods that do not wait *)

Definition cancelUpload (id : string) (st : state) : state :=
  match activeUploads st !! id with
  | Some controller =>
      let st := abort controller st in
      let st :=
        updateProgress id
          (mkUpdate None None None None None None (Some Cancelled) None) st in
      cleanup id st
  | None => st
  end.

Definition isUploadActive (id : string) (st : state) : bool :=
  bool_decide (is_Some (activeUploads st !! id)).

(** [extractFormat]: the text after the last dot, in lower case, or
    ['unknown'] when it is empty.  [to_lower] is [toLowerCase()] on one
    code below 256: the letters A-Z and the letters U+00C0 to U+00DE,
    the multiplication sign U+00D7 apart, have their lower-case form 32
    codes further; every other code below 256 is its own lower-case
    form. *)
Definition to_lower (c : ascii) : ascii :=
  let n := N_of_ascii c in
  if ((65 <=? n) && (n <=? 90)
      || (192 <=? n) && (n <=? 222) && negb (n =? 215))%N
  then ascii_of_N (n + 32) else c.

Fixpoint last_segment (acc : string) (s : string) : string :=
  match s with
  | EmptyString => acc
  | String c rest =>
      if Ascii.eqb c "."%char then last_segment EmptyString rest
      else last_segment (acc +:+ String c EmptyString) rest
  end.

Fixpoint lower_case (s : string) : string :=
  match s with
  | EmptyString => EmptyString
  | String c rest => String (to_lower c) (lower_case rest)
  end.

Definition extractFormat (name : string) : string :=
  let extension := lower_case (last_segment EmptyString name) in
  if bool_decide (extension = EmptyString) then "unknown"%string else extension.

(** [.replace(/[:.]/g, '-')] *)
Fixpoint dash_colons_dots (s : string) : string :=
  match s with
  | EmptyString => EmptyString
  | String c rest =>
      String (if Ascii.eqb c ":"%char || Ascii.eqb c "."%char then "-"%char else c)
             (dash_colons_dots rest)
  end.

(** *** The world around one [uploadVideo] call *)

(** A thrown value: an [Error] with its message, or anything else. *)
Inductive thrown := JsError (message : string) | JsOther.

(** The places where [uploadVideo] waits and other code may run. *)
Inductive await_point :=
| AwGetUser
| AwDelay (i : nat)
| AwUpload
| AwInsert.

Inductive auth_result :=
| AuthUser (id : string)
| AuthNone
| AuthRejects (e : thrown).

Record Env := mkEnv {
  env_uploadId : string;            (* generateUploadId() *)
  env_auth : auth_result;           (* supabase.auth.getUser() *)
  env_isoTime : string;             (* new Date().toISOString(), for the path *)
  env_uploadedAt : string;          (* new Date().toISOString(), for the metadata *)
  env_upload : option thrown;       (* storage upload: the error, if any *)
  env_insert : option thrown;       (* insert into 'videos': the rejection, if any *)
  env_publicUrl : string → string;  (* getPublicUrl(path).data.publicUrl *)
  env_startTime : Z;                (* Date.now() when the strategy starts *)
  env_time : await_point → Z;       (* Date.now() after a wait *)
  env_cancel : await_point → bool   (* cancelUpload(id) is called during the wait *)
}.

(** How a computation ends: with a value, with a thrown value, or not at
    all. *)
Inductive res (A : Type) := Ok (a : A) | Throw (e : thrown) | Hang.
Global Arguments Ok {_} _.
Global Arguments Throw {_} _.
Global Arguments Hang {_}.

Definition M (A : Type) : Type := state → state * res A.

Global Instance M_ret : MRet M := λ A a st, (st, Ok a).

Global Instance M_bind : MBind M := λ A B f m st,
  match m st with
  | (st', Ok a) => f a st'
  | (st', Throw e) => (st', Throw e)
  | (st', Hang) => (st', Hang)
  end.

Definition throw {A} (e : thrown) : M A := λ st, (st, Throw e).

Definition hang {A} : M A := λ st, (st, Hang).

Definition act (f : state → state) : M unit := λ st, (f st, Ok tt).

Definition read {A} (f : state → A) : M A := λ st, (st, Ok (f st)).

(** [try { m } catch (e) { h e }] *)
Definition try_catch {A} (m : M A) (h : thrown → M A) : M A := λ st,
  match m st with
  | (st', Throw e) => h e st'
  | r => r
  end.

(** [await] at point [p]: the call gives way; a [cancelUpload(id)]
    scheduled there runs before it goes on. *)
Definition await (env : Env) (p : await_point) : M unit :=
  act (λ st, if env_cancel env p then cancelUpload (env_uploadId env) st else st).

Inductive strategy := Direct | Chunked.

(** [blob.size > this.config.chunkSize * 2] *)
Definition selectStrategy (cfg : UploadConfig) (blob : Blob) : strategy :=
  if bool_decide (blob_size blob > chunkSize cfg * 2) then Chunked else Direct.

Definition message_or (fallback : string) (e : thrown) : string :=
  match e with JsError m => m | JsOther => fallback end.

(** *** [directUpload] *)

(** The update [directUpload] reports once the upload is through. *)
Definition direct_update (env : Env) (blob : Blob) (startTime : Z)
  : ProgressUpdate :=
  let duration := env_time env AwUpload - startTime in
  let speed :=
    js_div (num_of_Z (blob_size blob))
           (js_div (num_of_Z duration) (num_of_Z 1000)) in
  mkUpdate None (Some (blob_size blob)) None (Some (Qc_of_Z 100))
           (Some speed) (Some (Num 0%Qc)) None None.

Definition directUpload (env : Env) (id : string) (blob : Blob)
    (path : string) (signal : nat) : M StrategyResult :=
  let startTime := env_startTime env in
  try_catch
    (await env AwUpload;;
     match env_upload env with Some e => throw e | None => mret tt end;;
     act (updateProgress id (direct_update env blob startTime));;
     mret (mkStrategyResult true None))
    (λ e, mret (mkStrategyResult false (Some (message_or "Upload failed" e)))).

(** *** [chunkedUpload] *)

(** The number of turns of [for (let i = 0; i < totalChunks; i++)];
    [None] when [totalChunks] is [Infinity] and the loop does not end. *)
Definition totalChunks (totalSize chunkSize : Z) : option nat :=
  if bool_decide (chunkSize = 0) then
    if bool_decide (totalSize = 0) then Some 0%nat else None
  else Some (Z.to_nat (ceil_div totalSize chunkSize)).

Definition slice_chunk (blob : Blob) (chunkSize : Z) (i : nat) : Blob :=
  let start := Z.of_nat i * chunkSize in
  let stop := Z.min (start + chunkSize) (blob_size blob) in
  blob_slice blob start stop.

(** The update one turn of the second loop reports, [uploadedBytes]
    being the running total after the turn. *)
Definition chunk_update (env : Env) (totalSize startTime : Z) (i : nat)
    (uploadedBytes : Z) : ProgressUpdate :=
  let currentTime := env_time env (AwDelay i) in
  let elapsedTime := js_div (num_of_Z (currentTime - startTime)) (num_of_Z 1000) in
  let speed := js_div (num_of_Z uploadedBytes) elapsedTime in
  let remainingBytes := totalSize - uploadedBytes in
  let estimatedTimeRemaining := js_div (num_of_Z remainingBytes) speed in
  mkUpdate None (Some uploadedBytes) None
    (Some (Qc_of_Z uploadedBytes / Qc_of_Z totalSize * Qc_of_Z 100)%Qc)
    (Some speed) (Some estimatedTimeRemaining) None None.

(** The second loop, from turn [i] on, [uploadedBytes] being the running
    total. *)
Fixpoint simulate (env : Env) (id : string) (signal : nat)
    (totalSize startTime : Z) (chunks : list Blob) (i : nat)
    (uploadedBytes : Z) : M unit :=
  match chunks with
  | [] => mret tt
  | chunk :: rest =>
      aborted ← read (signal_aborted signal);
      if (aborted : bool) then throw (JsError "Upload cancelled")
      else
        await env (AwDelay i);;
        let uploadedBytes := uploadedBytes + blob_size chunk in
        act (updateProgress id
               (chunk_update env totalSize startTime i uploadedBytes));;
        simulate env id signal totalSize startTime rest (S i) uploadedBytes
  end.

Definition chunkedUpload (env : Env) (cfg : UploadConfig) (id : string)
    (blob : Blob) (path : string) (signal : nat) : M StrategyResult :=
  let totalSize := blob_size blob in
  let chunkSize := chunkSize cfg in
  let startTime := env_startTime env in
  try_catch
    (match totalChunks totalSize chunkSize with
     | None => hang
     | Some n =>
         let chunks := slice_chunk blob chunkSize <$> seq 0 n in
         simulate env id signal totalSize startTime chunks 0 0;;
         await env AwUpload;;
         match env_upload env with Some e => throw e | None => mret tt end;;
         mret (mkStrategyResult true None)
     end)
    (λ e, mret (mkStrategyResult false
                  (Some (message_or "Chunked upload failed" e)))).

(** *** [uploadVideo] *)

(** [storeVideoMetadata]: an error the insert reports is logged only. *)
Definition storeVideoMetadata (env : Env) : M unit :=
  await env AwInsert;;
  match env_insert env with Some e => throw e | None => mret tt end.

(** [x || fallback] on strings. *)
Definition string_or (x : option string) (fallback : string) : string :=
  match x with
  | Some s => if bool_decide (s = EmptyString) then fallback else s
  | None => fallback
  end.

(** The [try] block of [uploadVideo]. *)
Definition uploadVideo_try (env : Env) (cfg : UploadConfig) (id : string)
    (abortController : nat) (blob : Blob) (name : string)
    (hints : MetadataHints) : M UploadResult :=
  act (updateProgress id
         (mkUpdate (Some id) (Some 0) (Some (blob_size blob)) (Some 0%Qc)
                   (Some (Num 0%Qc)) (Some (Num 0%Qc)) (Some Pending) None));;
  await env AwGetUser;;
  user ← match env_auth env with
         | AuthUser u => mret u
         | AuthNone => throw (JsError "User not authenticated")
         | AuthRejects e => throw e
         end;
  let timestamp := dash_colons_dots (env_isoTime env) in
  let safeFilename := Filename.sanitizeFilename name in
  let path := ("videos/" +:+ user +:+ "/" +:+ timestamp +:+ "_" +:+ safeFilename)%string in
  act (updateProgress id
         (mkUpdate None None None None None None (Some Uploading) None));;
  uploadResult ←
    match selectStrategy cfg blob with
    | Chunked => chunkedUpload env cfg id blob path abortController
    | Direct => directUpload env id blob path abortController
    end;
  if negb (s_success uploadResult)
  then throw (JsError (string_or (s_error uploadResult) "Upload failed"))
  else
    act (updateProgress id
           (mkUpdate None None None None None None (Some Processing) None));;
    let url := env_publicUrl env path in
    let completeMetadata :=
      {| filename := safeFilename;
         size := blob_size blob;
         duration :=
           match h_duration hints with Some d => d | None => 0%Qc end;
         format := string_or (h_format hints) (extractFormat name);
         quality := string_or (h_quality hints) "medium";
         resolution := h_resolution hints;
         uploadedAt := env_uploadedAt env;
         userId := user |} in
    storeVideoMetadata env;;
    act (updateProgress id
           (mkUpdate None None None (Some (Qc_of_Z 100)) None None
                     (Some Completed) None));;
    act (cleanup id);;
    mret {| success := true; r_uploadId := id; filePath := Some path;
            publicUrl := Some url; metadata := Some completeMetadata;
            r_error := None |}.

(** [uploadVideo]; [None] when the call never settles. *)
Definition uploadVideo (env : Env) (blob : Blob) (name : string)
    (hints : MetadataHints) (onProgress : option callback) (st : state)
  : state * option UploadResult :=
  let id := env_uploadId env in
  let '(abortController, st) := new_AbortController st in
  let st := set_activeUpload id abortController st in
  let st :=
    match onProgress with
    | Some cb => set_progressCallback id cb st
    | None => st
    end in
  match uploadVideo_try env (config st) id abortController blob name hints st with
  | (st, Ok result) => (st, Some result)
  | (st, Throw e) =>
      let msg := message_or "Unknown error" e in
      let st :=
        updateProgress id
          (mkUpdate None None None None None None (Some Error) (Some msg)) st in
      let st := cleanup id st in
      (st, Some {| success := false; r_uploadId := id; filePath := None;
                   publicUrl := None; metadata := None; r_error := Some msg |})
  | (st, Hang) => (st, None)
  end.

(** *** What the service does to its tables, step by step *)

Inductive action :=
| Register (id : string) (onProgress : option callback)
| Update (id : string) (updates : ProgressUpdate)
| Cleanup (id : string)
| Cancel (id : string).

Definition do_action (st : state) (a : action) : state :=
  match a with
  | Register id onProgress =>
      let '(c, st) := new_AbortController st in
      let st := set_activeUpload id c st in
      match onProgress with
      | Some cb => set_progressCallback id cb st
      | None => st
      end
  | Update id updates => updateProgress id updates st
  | Cleanup id => cleanup id st
  | Cancel id => cancelUpload id st
  end.

Definition registers (id : string) (a : action) : Prop :=
  match a with Register id' _ => id' = id | _ => False end.

(** *** Notions the properties are stated with *)

(** The callback [cb] is called with [p]. *)
Definition deliver (cb : callback) (p : UploadProgress) (st : state) : state :=
  {| config := config st; activeUploads := activeUploads st;
     progressCallbacks := progressCallbacks st;
     controllers := controllers st;
     calls := calls st ++ [(cb, p)] |}.

(** Every handle in the table points into the heap of controllers. *)
Definition handles_allocated (st : state) : Prop :=
  ∀ id c, activeUploads st !! id = Some c → (c < length (controllers st))%nat.

(** A sequence of steps of the service. *)
Definition run (acts : list action) (st : state) : state :=
  fold_left do_action acts st.

(** [wp m QO QT st]: from [st], [m] ends, either with a value and a
    state that satisfy [QO] or with a thrown value and a state that
    satisfy [QT]. *)
Definition wp {A} (m : M A) (QO : A → state → Prop)
    (QT : thrown → state → Prop) (st : state) : Prop :=
  match m st with
  | (st', Ok a) => QO a st'
  | (st', Throw e) => QT e st'
  | (_, Hang) => False
  end.

(** The event built from [{ status: 'error', error: msg }]. *)
Definition error_event (id msg : string) : UploadProgress :=
  mkProgress id 0 0 0%Qc (Num 0%Qc) (Num 0%Qc) Error (Some msg).

(** [cancelUpload] is called during the wait at [p], and only there. *)
Definition cancel_during (p : await_point) (q : await_point) : bool :=
  match p, q with
  | AwGetUser, AwGetUser | AwUpload, AwUpload | AwInsert, AwInsert => true
  | AwDelay i, AwDelay j => bool_decide (i = j)
  | _, _ => false
  end.

(** A blob of [n] bytes. *)
Definition bytes (n : nat) : Blob := mkBlob (replicate n Byte.x00) "video/webm".

(** [{ chunkSize: 1 }] *)
Definition small_chunks : UploadConfig :=
  mkUploadConfig 1 3 30000 (Q2Qc (8 # 10)) false.

Definition no_hints : MetadataHints := mkHints None None None None.

(** A three-byte upload in one-byte chunks, cancelled during the second
    simulated delay. *)
Definition cancelled_run : state * option UploadResult :=
  uploadVideo
    (mkEnv "up" (AuthUser "u") "2024-01-01T00:00:00.000Z"
           "2024-01-01T00:00:01.000Z" None None (λ p, p) 0 (λ _, 100)
           (cancel_during (AwDelay 1)))
    (bytes 3) "clip.webm" no_hints (Some 7%nat) (new small_chunks).

(** The callback [cb] is called with each of [events], in order. *)
Definition deliver_all (cb : callback) (events : list UploadProgress)
    (st : state) : state :=
  {| config := config st; activeUploads := activeUploads st;
     progressCallbacks := progressCallbacks st;
     controllers := controllers st;
     calls := calls st ++ ((cb,.) <$> events) |}.

(** The events of the second loop of [chunkedUpload]. *)
Fixpoint loop_events (env : Env) (id : string) (totalSize startTime : Z)
    (chunks : list Blob) (i : nat) (uploaded : Z) : list UploadProgress :=
  match chunks with
  | [] => []
  | chunk :: rest =>
      mergeProgress id
        (chunk_update env totalSize startTime i (uploaded + blob_size chunk))
      :: loop_events env id totalSize startTime rest (S i)
           (uploaded + blob_size chunk)
  end.

(** [(uploaded / totalSize) * 100] *)
Definition pct (totalSize uploaded : Z) : Qc :=
  (Qc_of_Z uploaded / Qc_of_Z totalSize * Qc_of_Z 100)%Qc.

(** The events [uploadVideo] itself asks for. *)
Definition pending_event (id : string) (blob : Blob) : UploadProgress :=
  mkProgress id 0 (blob_size blob) 0%Qc (Num 0%Qc) (Num 0%Qc) Pending None.

Definition status_event (id : string) (s : Status) : UploadProgress :=
  mkProgress id 0 0 0%Qc (Num 0%Qc) (Num 0%Qc) s None.

Definition completed_event (id : string) : UploadProgress :=
  mkProgress id 0 0 (Qc_of_Z 100) (Num 0%Qc) (Num 0%Qc) Completed None.

(** A world where the user is signed in, nothing fails and nobody
    cancels. *)
Definition plain_env : Env :=
  mkEnv "up" (AuthUser "u") "2024-01-01T00:00:00.000Z"
        "2024-01-01T00:00:01.000Z" None None (λ p, p) 0 (λ _, 100) (λ _, false).

(** *** The remaining methods *)

(** [cancelAllUploads]; [keys] is what [this.activeUploads.keys()]
    yields, the active ids in the order of their insertion, which the
    finite map does not record. *)
Definition cancelAllUploads (keys : list string) (st : state) : state :=
  fold_left (fun st id => cancelUpload id st) keys st.

(** The event [cancelUpload] asks for. *)
Definition cancelled_call (st : state) (id : string)
  : option (callback * UploadProgress) :=
  (fun cb => (cb, status_event id Cancelled)) <$> progressCallbacks st !! id.

(** [wlp m QO QT st]: if [m] ends from [st], it does so with a value and
    a state that satisfy [QO] or with a thrown value and a state that
    satisfy [QT]. *)
Definition wlp {A} (m : M A) (QO : A → state → Prop)
    (QT : thrown → state → Prop) (st : state) : Prop :=
  match m st with
  | (st', Ok a) => QO a st'
  | (st', Throw e) => QT e st'
  | (_, Hang) => True
  end.

(** The path [uploadVideo] stores the blob under. *)
Definition storage_path (env : Env) (user name : string) : string :=
  ("videos/" +:+ user +:+ "/" +:+ dash_colons_dots (env_isoTime env) +:+ "_"
   +:+ Filename.sanitizeFilename name)%string.

(** Character tests for [extractFormat]. *)
Definition is_dot (c : ascii) : bool := Ascii.eqb c "."%char.

Definition is_upper (c : ascii) : bool :=
  ((65 <=? N_of_ascii c) && (N_of_ascii c <=? 90))%N.

Definition is_ascii7 (c : ascii) : bool := (N_of_ascii c <? 128)%N.

(** The result of a successful [uploadVideo]. *)
Definition success_result (env : Env) (blob : Blob) (name : string)
    (hints : MetadataHints) (user : string) : UploadResult :=
  {| success := true;
     r_uploadId := env_uploadId env;
     filePath := Some (storage_path env user name);
     publicUrl := Some (env_publicUrl env (storage_path env user name));
     metadata :=
       Some {| filename := Filename.sanitizeFilename name;
               size := blob_size blob;
               duration := default 0%Qc (h_duration hints);
               format := string_or (h_format hints) (extractFormat name);
               quality := string_or (h_quality hints) "medium";
               resolution := h_resolution hints;
               uploadedAt := env_uploadedAt env;
               userId := user |};
     r_error := None |}.

(** The entries of the two tables for other upload ids, and the
    controllers that existed before the call, are as they were; events
    are only added; the configuration is untouched. *)
Definition others_untouched (id : string) (st st' : state) : Prop :=
  config st' = config st
  ∧ (∀ id', id' ≠ id →
       activeUploads st' !! id' = activeUploads st !! id'
       ∧ progressCallbacks st' !! id' = progressCallbacks st !! id')
  ∧ take (length (controllers st)) (controllers st') = controllers st
  ∧ calls st `prefix_of` calls st'.

(** *** Callbacks that may throw

    Above, a callback returns normally.  Here a callback may throw:
    [throws cb event] is the value [cb] throws when called with [event],
    if it throws.  The methods are the same line by line; what differs
    is where the exception of a callback goes: out of [updateProgress]
    to its caller, and from there to the nearest [catch]. *)

Definition behaviour : Type := callback → UploadProgress → option thrown.

Module Raising.
Section callbacks.
Context (throws : behaviour).

Definition updateProgress (id : string) (updates : ProgressUpdate) : M unit :=
  λ st,
    match progressCallbacks st !! id with
    | Some cb =>
        let currentProgress := mergeProgress id updates in
        (deliver cb currentProgress st,
         match throws cb currentProgress with
         | Some e => Throw e
         | None => Ok tt
         end)
    | None => (st, Ok tt)
    end.

(** [cancelUpload]: when the callback throws, [cleanup] is not reached. *)
Definition cancelUpload (id : string) : M unit := λ st,
  match activeUploads st !! id with
  | Some controller =>
      (act (abort controller);;
       updateProgress id
         (mkUpdate None None None None None None (Some Cancelled) None);;
       act (cleanup id)) st
  | None => (st, Ok tt)
  end.

(** [await] at point [p]: a [cancelUpload(id)] scheduled there runs
    before the call goes on; what it throws goes to the code that called
    it, not to the call that waits. *)
Definition await (env : Env) (p : await_point) : M unit := λ st,
  if env_cancel env p then ((cancelUpload (env_uploadId env) st).1, Ok tt)
  else (st, Ok tt).

Definition directUpload (env : Env) (id : string) (blob : Blob)
    (path : string) (signal : nat) : M StrategyResult :=
  let startTime := env_startTime env in
  try_catch
    (await env AwUpload;;
     match env_upload env with Some e => throw e | None => mret tt end;;
     updateProgress id (direct_update env blob startTime);;
     mret (mkStrategyResult true None))
    (λ e, mret (mkStrategyResult false (Some (message_or "Upload failed" e)))).

Fixpoint simulate (env : Env) (id : string) (signal : nat)
    (totalSize startTime : Z) (chunks : list Blob) (i : nat)
    (uploadedBytes : Z) : M unit :=
  match chunks with
  | [] => mret tt
  | chunk :: rest =>
      aborted ← read (signal_aborted signal);
      if (aborted : bool) then throw (JsError "Upload cancelled")
      else
        await env (AwDelay i);;
        let uploadedBytes := uploadedBytes + blob_size chunk in
        updateProgress id
          (chunk_update env totalSize startTime i uploadedBytes);;
        simulate env id signal totalSize startTime rest (S i) uploadedBytes
  end.

Definition chunkedUpload (env : Env) (cfg : UploadConfig) (id : string)
    (blob : Blob) (path : string) (signal : nat) : M StrategyResult :=
  let totalSize := blob_size blob in
  let chunkSize := chunkSize cfg in
  let startTime := env_startTime env in
  try_catch
    (match totalChunks totalSize chunkSize with
     | None => hang
     | Some n =>
         let chunks := slice_chunk blob chunkSize <$> seq 0 n in
         simulate env id signal totalSize startTime chunks 0 0;;
         await env AwUpload;;
         match env_upload env with Some e => throw e | None => mret tt end;;
         mret (mkStrategyResult true None)
     end)
    (λ e, mret (mkStrategyResult false
                  (Some (message_or "Chunked upload failed" e)))).

Definition storeVideoMetadata (env : Env) : M unit :=
  await env AwInsert;;
  match env_insert env with Some e => throw e | None => mret tt end.

Definition uploadVideo_try (env : Env) (cfg : UploadConfig) (id : string)
    (abortController : nat) (blob : Blob) (name : string)
    (hints : MetadataHints) : M UploadResult :=
  updateProgress id
    (mkUpdate (Some id) (Some 0) (Some (blob_size blob)) (Some 0%Qc)
              (Some (Num 0%Qc)) (Some (Num 0%Qc)) (Some Pending) None);;
  await env AwGetUser;;
  user ← match env_auth env with
         | AuthUser u => mret u
         | AuthNone => throw (JsError "User not authenticated")
         | AuthRejects e => throw e
         end;
  let timestamp := dash_colons_dots (env_isoTime env) in
  let safeFilename := Filename.sanitizeFilename name in
  let path := ("videos/" +:+ user +:+ "/" +:+ timestamp +:+ "_" +:+ safeFilename)%string in
  updateProgress id
    (mkUpdate None None None None None None (Some Uploading) None);;
  uploadResult ←
    match selectStrategy cfg blob with
    | Chunked => chunkedUpload env cfg id blob path abortController
    | Direct => directUpload env id blob path abortController
    end;
  if negb (s_success uploadResult)
  then throw (JsError (string_or (s_error uploadResult) "Upload failed"))
  else
    updateProgress id
      (mkUpdate None None None None None None (Some Processing) None);;
    let url := env_publicUrl env path in
    let completeMetadata :=
      {| filename := safeFilename;
         size := blob_size blob;
         duration :=
           match h_duration hints with Some d => d | None => 0%Qc end;
         format := string_or (h_format hints) (extractFormat name);
         quality := string_or (h_quality hints) "medium";
         resolution := h_resolution hints;
         uploadedAt := env_uploadedAt env;
         userId := user |} in
    storeVideoMetadata env;;
    updateProgress id
      (mkUpdate None None None (Some (Qc_of_Z 100)) None None
                (Some Completed) None);;
    act (cleanup id);;
    mret {| success := true; r_uploadId := id; filePath := Some path;
            publicUrl := Some url; metadata := Some completeMetadata;
            r_error := None |}.

(** [uploadVideo]: the [catch] block calls [updateProgress] itself, so
    what a callback throws there leaves [uploadVideo]. *)
Definition uploadVideo (env : Env) (blob : Blob) (name : string)
    (hints : MetadataHints) (onProgress : option callback) : M UploadResult :=
  λ st,
    let id := env_uploadId env in
    let '(abortController, st) := new_AbortController st in
    let st := set_activeUpload id abortController st in
    let st :=
      match onProgress with
      | Some cb => set_progressCallback id cb st
      | None => st
      end in
    try_catch
      (uploadVideo_try env (config st) id abortController blob name hints)
      (λ e,
         let msg := message_or "Unknown error" e in
         updateProgress id
           (mkUpdate None None None None None None (Some Error) (Some msg));;
         act (cleanup id);;
         mret {| success := false; r_uploadId := id; filePath := None;
                 publicUrl := None; metadata := None; r_error := Some msg |})
      st.

End callbacks.
End Raising.

(** A callback that throws whenever it is told of an error. *)
Definition throws_on_error : behaviour :=
  λ _ event,
    if bool_decide (status event = Error) then Some (JsError "callback failed")
    else None.

(** Nobody is signed in, nothing else goes wrong, nobody cancels. *)
Definition signed_out : Env :=
  mkEnv "up" AuthNone "2024-01-01T00:00:00.000Z"
        "2024-01-01T00:00:01.000Z" None None (λ p, p) 0 (λ _, 100) (λ _, false).

(** *** What goes wrong in a call, read off the world around it *)

(** The loop of [chunkedUpload], entered at turn [i] with [n] chunks to
    go and its signal aborted or not, finds the signal aborted at one of
    its checks: it is aborted already, or [cancelUpload] is called
    during one of the simulated delays but the last. *)
Definition observed_from (env : Env) (aborted : bool) (i n : nat) : bool :=
  match n with
  | O => false
  | S m => aborted || existsb (λ j, env_cancel env (AwDelay j)) (seq i m)
  end.

(** The loop over [n] chunks finds its signal aborted: [cancelUpload]
    was called while the user was fetched, or during a simulated delay
    that is not the last one. *)
Definition observed_abort (env : Env) (n : nat) : bool :=
  observed_from env (env_cancel env AwGetUser) 0 n.

(** The controller [c] of upload [id] is aborted, and the upload out of
    the table, exactly when [b] says so. *)
Definition cancelled_state (id : string) (c : nat) (b : bool) (st : state)
  : Prop :=
  signal_aborted c st = b
  ∧ (c < length (controllers st))%nat
  ∧ activeUploads st !! id = (if b then None else Some c).

(** The number of chunks of a blob, for a chunk size that is not 0. *)
Definition chunk_count (cfg : UploadConfig) (blob : Blob) : nat :=
  Z.to_nat (ceil_div (blob_size blob) (chunkSize cfg)).

(** The first failure a call meets, with its description: nobody is
    signed in or the request for the user rejects; the loop of the
    chunked strategy finds the upload cancelled; the storage reports an
    error; the insert of the metadata rejects.  [None] when nothing
    fails. *)
Definition failure (env : Env) (cfg : UploadConfig) (blob : Blob)
  : option string :=
  match env_auth env with
  | AuthNone => Some "User not authenticated"%string
  | AuthRejects e => Some (message_or "Unknown error" e)
  | AuthUser _ =>
      let transmission :=
        match selectStrategy cfg blob with
        | Direct => message_or "Upload failed" <$> env_upload env
        | Chunked =>
            if observed_abort env (chunk_count cfg blob)
            then Some "Upload cancelled"%string
            else message_or "Chunked upload failed" <$> env_upload env
        end in
      match transmission with
      | Some msg => Some (string_or (Some msg) "Upload failed")
      | None => message_or "Unknown error" <$> env_insert env
      end
  end.

(** The failure is the cancellation that the loop observes. *)
Definition fails_cancelled (env : Env) (cfg : UploadConfig) (blob : Blob)
  : bool :=
  match env_auth env, selectStrategy cfg blob with
  | AuthUser _, Chunked => observed_abort env (chunk_count cfg blob)
  | _, _ => false
  end.

End VideoUploadService.

(** * Properties *)

(** ** [sanitizeFilename] *)

Module FilenameFacts.
Import Filename.

Lemma has_double_cons c s :
  has_double_underscore (String c s)
  = (is_underscore c && starts_with_underscore s) || has_double_underscore s.
Proof. destruct s; simpl; [by rewrite andb_false_r|done]. Qed.

Lemma ends_with_cons c s :
  ends_with_underscore (String c s)
  = match s with EmptyString => is_underscore c | _ => ends_with_underscore s end.
Proof. by destruct s. Qed.

Lemma drop_trailing_cons c s :
  drop_trailing_underscore (String c s)
  = match s with
    | EmptyString => if is_underscore c then EmptyString else String c EmptyString
    | _ => String c (drop_trailing_underscore s)
    end.
Proof. by destruct s. Qed.

(** The observations, in words of substrings. *)
Lemma has_double_underscore_spec s :
  has_double_underscore s = true ↔ ∃ s1 s2, s = (s1 +:+ "__" +:+ s2)%string.
Proof.
  split.
  - induction s as [|c rest IH]; [done|].
    rewrite has_double_cons. intros [Hhere|Hlater]%orb_prop.
    + apply andb_prop in Hhere as [Hc Hrest].
      destruct rest as [|c' r]; [done|]. simpl in Hrest.
      apply Ascii.eqb_eq in Hc, Hrest. subst c c'. by exists EmptyString, r.
    + destruct (IH Hlater) as (s1 & s2 & ->). by exists (String c s1), s2.
  - intros (s1 & s2 & ->). induction s1 as [|c s1 IH]; [done|].
    change (String c s1 +:+ "__" +:+ s2)%string
      with (String c (s1 +:+ "__" +:+ s2))%string.
    by rewrite has_double_cons, IH, orb_true_r.
Qed.

Lemma starts_with_underscore_spec s :
  starts_with_underscore s = true ↔ ∃ s', s = String underscore s'.
Proof.
  destruct s as [|c s']; simpl.
  - split; [done|]. by intros [? ?].
  - unfold is_underscore. rewrite Ascii.eqb_eq. split.
    + intros ->. by exists s'.
    + by intros (? & [= -> _]).
Qed.

Lemma ends_with_underscore_spec s :
  ends_with_underscore s = true ↔ ∃ s', s = (s' +:+ "_")%string.
Proof.
  split.
  - induction s as [|c rest IH]; [done|].
    rewrite ends_with_cons. destruct rest as [|c' r].
    + intros ->%Ascii.eqb_eq. by exists EmptyString.
    + intros (s' & ->)%IH. by exists (String c s').
  - intros (s' & ->). induction s' as [|c s' IH]; [done|].
    change (String c s' +:+ "_")%string with (String c (s' +:+ "_"))%string.
    rewrite ends_with_cons. by destruct s'.
Qed.

Lemma collapse_starts s :
  starts_with_underscore (collapse_underscores s) = starts_with_underscore s.
Proof.
  induction s as [|c rest IH]; [done|].
  simpl. destruct (is_underscore c) eqn:Hc; simpl; [|done].
  destruct rest as [|c' r]; simpl; [done|].
  destruct (is_underscore c') eqn:Hc'; simpl; [|done].
  simpl in IH. rewrite Hc' in IH. by rewrite IH.
Qed.

Lemma collapse_no_double s :
  has_double_underscore (collapse_underscores s) = false.
Proof.
  induction s as [|c rest IH]; [done|].
  cbn [collapse_underscores].
  destruct (is_underscore c) eqn:Hc.
  - destruct rest as [|c' r]; [done|].
    destruct (is_underscore c') eqn:Hc'; [done|].
    rewrite has_double_cons, IH, collapse_starts. simpl.
    by rewrite Hc', andb_false_r.
  - by rewrite has_double_cons, Hc, IH.
Qed.

Lemma drop_trailing_starts s :
  starts_with_underscore s = false →
  starts_with_underscore (drop_trailing_underscore s) = false.
Proof.
  destruct s as [|c rest]; [done|]. simpl. intros Hc.
  destruct rest; [by rewrite Hc|done].
Qed.

Lemma drop_trailing_no_double s :
  has_double_underscore s = false →
  has_double_underscore (drop_trailing_underscore s) = false.
Proof.
  induction s as [|c rest IH]; [done|].
  rewrite has_double_cons, drop_trailing_cons.
  intros [H1 H2]%orb_false_elim.
  destruct rest as [|c' r]; [by destruct (is_underscore c)|].
  rewrite has_double_cons, IH by done.
  apply andb_false_iff in H1 as [->|H1]; [done|].
  by rewrite drop_trailing_starts, andb_false_r.
Qed.

Lemma drop_trailing_ends s :
  has_double_underscore s = false →
  ends_with_underscore (drop_trailing_underscore s) = false.
Proof.
  induction s as [|c rest IH]; [done|].
  rewrite has_double_cons, drop_trailing_cons.
  intros [H1 H2]%orb_false_elim.
  destruct rest as [|c' r]; [by destruct (is_underscore c) eqn:Hc; simpl; rewrite ?Hc|].
  rewrite ends_with_cons. specialize (IH H2).
  destruct (drop_trailing_underscore (String c' r)) as [|c'' r''] eqn:Hd; [|done].
  rewrite drop_trailing_cons in Hd. destruct r; [|done].
  destruct (is_underscore c') eqn:Hc'; [|done].
  simpl in H1. rewrite Hc' in H1. by rewrite andb_true_r in H1.
Qed.

Lemma trim_shape s :
  has_double_underscore s = false →
  has_double_underscore (trim_underscores s) = false
  ∧ starts_with_underscore (trim_underscores s) = false
  ∧ ends_with_underscore (trim_underscores s) = false.
Proof.
  destruct s as [|c rest]; [done|]. intros Hd. unfold trim_underscores.
  destruct (is_underscore c) eqn:Hc.
  - rewrite has_double_cons, Hc in Hd. apply orb_false_elim in Hd as [H1 H2].
    simpl in H1.
    auto using drop_trailing_no_double, drop_trailing_starts, drop_trailing_ends.
  - split_and!; [by apply drop_trailing_no_double| |by apply drop_trailing_ends].
    by apply drop_trailing_starts.
Qed.

(** What each pass does to the characters. *)
Lemma allowed_not_underscore c : allowed c = true → is_underscore c = false.
Proof.
  intros Ha. destruct (is_underscore c) eqn:Hu; [|done].
  apply Ascii.eqb_eq in Hu. by subst c.
Qed.

Lemma replace_kept s : all_chars kept (replace_disallowed s) = true.
Proof.
  induction s as [|c rest IH]; [done|]. simpl. rewrite IH, andb_true_r.
  unfold kept. destruct (allowed c) eqn:Hc; [by rewrite Hc|done].
Qed.

Lemma replace_filter s :
  filter_chars allowed (replace_disallowed s) = filter_chars allowed s.
Proof.
  induction s as [|c rest IH]; [done|]. simpl.
  destruct (allowed c) eqn:Hc; [by rewrite Hc, IH|done].
Qed.

Lemma collapse_kept p s :
  all_chars p s = true → all_chars p (collapse_underscores s) = true.
Proof.
  induction s as [|c rest IH]; [done|].
  cbn [collapse_underscores all_chars]. intros [Hc Hr]%andb_prop.
  destruct (is_underscore c).
  - destruct rest as [|c' r]; [by cbn [all_chars]; rewrite Hc|].
    destruct (is_underscore c') eqn:Hc'; [by apply IH|].
    cbn [all_chars]. rewrite Hc. by apply IH.
  - cbn [all_chars]. rewrite Hc. by apply IH.
Qed.

Lemma collapse_filter s :
  filter_chars allowed (collapse_underscores s) = filter_chars allowed s.
Proof.
  induction s as [|c rest IH]; [done|].
  cbn [collapse_underscores filter_chars].
  destruct (is_underscore c) eqn:Hu.
  - assert (allowed c = false) as Hc.
    { destruct (allowed c) eqn:Ha; [|done].
      apply allowed_not_underscore in Ha. congruence. }
    rewrite Hc. destruct rest as [|c' r]; [by simpl; rewrite Hc|].
    destruct (is_underscore c'); [done|].
    change (filter_chars allowed (String c (collapse_underscores (String c' r)))
            = filter_chars allowed (String c' r)).
    rewrite <- IH. cbn [filter_chars]. by rewrite Hc.
  - cbn [filter_chars]. by rewrite IH.
Qed.

Lemma drop_trailing_kept p s :
  all_chars p s = true → all_chars p (drop_trailing_underscore s) = true.
Proof.
  induction s as [|c rest IH]; [done|].
  rewrite drop_trailing_cons. cbn [all_chars]. intros [Hc Hr]%andb_prop.
  destruct rest; [by destruct (is_underscore c); simpl; rewrite ?Hc|].
  cbn [all_chars]. rewrite Hc. by apply IH.
Qed.

Lemma drop_trailing_filter s :
  filter_chars allowed (drop_trailing_underscore s) = filter_chars allowed s.
Proof.
  induction s as [|c rest IH]; [done|].
  rewrite drop_trailing_cons.
  destruct rest as [|c' r].
  - destruct (is_underscore c) eqn:Hu; [|done]. simpl.
    destruct (allowed c) eqn:Ha; [|done].
    apply allowed_not_underscore in Ha. congruence.
  - cbn [filter_chars] in *. by rewrite IH.
Qed.

Lemma trim_kept p s :
  all_chars p s = true → all_chars p (trim_underscores s) = true.
Proof.
  destruct s as [|c rest]; [done|]. unfold trim_underscores. intros H.
  destruct (is_underscore c); [|by apply drop_trailing_kept].
  apply drop_trailing_kept. simpl in H. by apply andb_prop in H as [_ ?].
Qed.

Lemma trim_filter s :
  filter_chars allowed (trim_underscores s) = filter_chars allowed s.
Proof.
  destruct s as [|c rest]; [done|]. unfold trim_underscores.
  destruct (is_underscore c) eqn:Hu; rewrite drop_trailing_filter; [|done].
  simpl. destruct (allowed c) eqn:Ha; [|done].
  apply allowed_not_underscore in Ha. congruence.
Qed.

(** *** The runs of kept characters *)

Lemma collapse_replace_allowed c r :
  allowed c = true →
  collapse_underscores (replace_disallowed (String c r))
  = String c (collapse_underscores (replace_disallowed r)).
Proof.
  intros Ha. simpl. rewrite Ha. by rewrite (allowed_not_underscore c Ha).
Qed.

Lemma collapse_replace_other c r :
  allowed c = false →
  collapse_underscores (replace_disallowed (String c r))
  = match r with
    | EmptyString => String underscore EmptyString
    | String c' _ =>
        if allowed c'
        then String underscore (collapse_underscores (replace_disallowed r))
        else collapse_underscores (replace_disallowed r)
    end.
Proof.
  intros Ha. cbn [replace_disallowed]. rewrite Ha.
  destruct r as [|c' r']; [done|].
  cbn [replace_disallowed collapse_underscores].
  change (is_underscore underscore) with true. cbn iota.
  destruct (allowed c') eqn:Ha'; [|done].
  by rewrite (allowed_not_underscore c' Ha').
Qed.

Lemma collapse_replace_nonempty c r :
  collapse_underscores (replace_disallowed (String c r)) ≠ EmptyString.
Proof.
  revert c. induction r as [|c' r' IH]; intros c.
  - simpl. by destruct (allowed c), (is_underscore _).
  - destruct (allowed c) eqn:Ha.
    + by rewrite collapse_replace_allowed.
    + rewrite collapse_replace_other by done.
      destruct (allowed c'); [done|apply IH].
Qed.

Lemma trailing_allowed c r :
  allowed c = true →
  drop_trailing_underscore (collapse_underscores (replace_disallowed (String c r)))
  = String c (drop_trailing_underscore
                (collapse_underscores (replace_disallowed r))).
Proof.
  intros Ha. rewrite collapse_replace_allowed, drop_trailing_cons by done.
  destruct (collapse_underscores (replace_disallowed r)); [|done].
  by rewrite (allowed_not_underscore c Ha).
Qed.

Lemma trailing_other c r :
  allowed c = false →
  drop_trailing_underscore (collapse_underscores (replace_disallowed (String c r)))
  = match r with
    | EmptyString => EmptyString
    | String c' _ =>
        if allowed c'
        then String underscore
               (drop_trailing_underscore
                  (collapse_underscores (replace_disallowed r)))
        else drop_trailing_underscore
               (collapse_underscores (replace_disallowed r))
    end.
Proof.
  intros Ha. rewrite collapse_replace_other by done.
  destruct r as [|c' r']; [done|].
  destruct (allowed c'); [|done].
  rewrite drop_trailing_cons.
  pose proof (collapse_replace_nonempty c' r') as Hne.
  by destruct (collapse_underscores (replace_disallowed (String c' r'))).
Qed.

Lemma sanitize_allowed c r :
  allowed c = true →
  sanitizeFilename (String c r)
  = String c (drop_trailing_underscore
                (collapse_underscores (replace_disallowed r))).
Proof.
  intros Ha. unfold sanitizeFilename. rewrite <-trailing_allowed by done.
  rewrite collapse_replace_allowed by done. unfold trim_underscores.
  by rewrite (allowed_not_underscore c Ha).
Qed.

Lemma sanitize_other c r :
  allowed c = false → sanitizeFilename (String c r) = sanitizeFilename r.
Proof.
  intros Ha. unfold sanitizeFilename. rewrite collapse_replace_other by done.
  destruct r as [|c' r']; [done|].
  destruct (allowed c') eqn:Ha'; [|done].
  rewrite collapse_replace_allowed by done.
  unfold trim_underscores. change (is_underscore underscore) with true.
  by rewrite (allowed_not_underscore c' Ha').
Qed.

Lemma join_underscore_cons c run runs :
  join_underscore (String c run :: runs)
  = String c (join_underscore (run :: runs)).
Proof. by destruct runs. Qed.

Lemma allowed_runs_cons c r :
  allowed c = true →
  allowed_runs (String c r)
  = match starts_allowed r, allowed_runs r with
    | true, run :: runs => String c run :: runs
    | _, runs => String c EmptyString :: runs
    end.
Proof. intros Ha. simpl. by rewrite Ha. Qed.

Lemma allowed_runs_allowed c r :
  allowed c = true → ∃ run runs, allowed_runs (String c r) = run :: runs.
Proof.
  intros Ha. simpl. rewrite Ha.
  destruct (starts_allowed r), (allowed_runs r); by eexists _, _.
Qed.

Lemma runs_characterize r :
  (∀ c, allowed c = true →
     join_underscore (allowed_runs (String c r))
     = String c (drop_trailing_underscore
                   (collapse_underscores (replace_disallowed r))))
  ∧ sanitizeFilename r = join_underscore (allowed_runs r)
  ∧ (starts_allowed r = false →
       drop_trailing_underscore (collapse_underscores (replace_disallowed r))
       = match allowed_runs r with
         | [] => EmptyString
         | runs => String underscore (join_underscore runs)
         end).
Proof.
  induction r as [|c' r' (IHa & IHd & IHc)].
  { split_and!; [|done..]. intros c Ha. simpl. by rewrite Ha. }
  destruct (allowed c') eqn:Ha'.
  - destruct (allowed_runs_allowed c' r' Ha') as (run & runs & Hruns).
    split_and!;
      [|by rewrite sanitize_allowed, IHa|intros Hs; simpl in Hs; congruence].
    intros c Ha. rewrite (allowed_runs_cons c (String c' r')) by done.
    cbn [starts_allowed]. rewrite Ha'.
    specialize (IHa c' Ha'). rewrite Hruns in IHa |- *.
    rewrite join_underscore_cons, IHa. by rewrite trailing_allowed.
  - assert (allowed_runs (String c' r') = allowed_runs r') as Hruns.
    { simpl. by rewrite Ha'. }
    assert (drop_trailing_underscore
              (collapse_underscores (replace_disallowed (String c' r')))
            = match allowed_runs r' with
              | [] => EmptyString
              | runs => String underscore (join_underscore runs)
              end) as Htail.
    { rewrite trailing_other by done.
      destruct r' as [|c'' r'']; [done|].
      destruct (allowed c'') eqn:Ha''; [|by apply IHc].
      destruct (allowed_runs_allowed c'' r'' Ha'') as (run & runs & Hr).
      rewrite Hr, <-Hr, <-IHd, sanitize_allowed by done.
      by rewrite trailing_allowed. }
    split_and!.
    + intros c Ha.
      assert (allowed_runs (String c (String c' r'))
              = String c EmptyString :: allowed_runs r') as ->.
      { rewrite (allowed_runs_cons c (String c' r')) by done.
        cbn [starts_allowed]. by rewrite Ha', Hruns. }
      rewrite Htail. by destruct (allowed_runs r').
    + by rewrite sanitize_other, Hruns.
    + intros _. by rewrite Hruns.
Qed.

(** C4, as stated, fails on its own example: the ['!'] before the dot
    becomes an underscore that no later pass removes. *)
Lemma sanitizeFilename_example_differs :
  sanitizeFilename "my video!.webm" ≠ "my_video.webm"%string.
Proof. vm_compute. discriminate. Qed.

(** C4 (amended): for every filename the result is the runs of
    characters of [[A-Za-z0-9.-]] of the name, in their order, with one
    underscore between two neighbouring runs: every character outside
    the class has become an underscore, a run of underscores has become
    one, and those at the two ends are gone.  So the result has no two
    adjacent underscores, neither starts nor ends with an underscore,
    consists of characters of the class and underscores only, and keeps
    the characters of the class; the input ["my video!.webm"] gives
    ["my_video_.webm"]. *)
Theorem sanitizeFilename_shape :
  (∀ filename,
     sanitizeFilename filename = join_underscore (allowed_runs filename)
     ∧ has_double_underscore (sanitizeFilename filename) = false
     ∧ starts_with_underscore (sanitizeFilename filename) = false
     ∧ ends_with_underscore (sanitizeFilename filename) = false
     ∧ all_chars kept (sanitizeFilename filename) = true
     ∧ filter_chars allowed (sanitizeFilename filename)
       = filter_chars allowed filename)
  ∧ allowed_runs "my video!.webm" = ["my"; "video"; ".webm"]%string
  ∧ sanitizeFilename "my video!.webm" = "my_video_.webm"%string.
Proof.
  split; [|by split].
  intros filename. split; [apply runs_characterize|].
  unfold sanitizeFilename.
  destruct (trim_shape (collapse_underscores (replace_disallowed filename)))
    as (H1 & H2 & H3); [apply collapse_no_double|].
  split_and!; try done.
  - apply trim_kept, collapse_kept, replace_kept.
  - by rewrite trim_filter, collapse_filter, replace_filter.
Qed.

End FilenameFacts.

(** ** [VideoBuffer] *)

Module VideoBufferFacts.
Import VideoBuffer.

(** *** [getStats] and [isNearLimit] *)

(** Neither method returns, whatever room the stack has. *)
Lemma getStats_isNearLimit_overflow stack b now :
  getStats stack b now = None ∧ isNearLimit stack b now = None.
Proof.
  induction stack as [|k [IHs IHn]]; [done|].
  split; simpl; [by rewrite IHn|by rewrite IHs].
Qed.

(** With the automatic flush on (the default), [addChunk] appends the
    chunk and then fails with [RangeError]. *)
Lemma addChunk_autoFlush_throws stack dbOk b db payload now :
  autoFlush (config b) = true →
  ∃ b1, addChunk stack dbOk b db payload now = (b1, db, Threw RangeError)
        ∧ length (chunks b1) = S (length (chunks b)).
Proof.
  intros Hauto. unfold addChunk. simpl. rewrite Hauto.
  rewrite (proj2 (getStats_isNearLimit_overflow _ _ _)).
  eexists; split; [done|]. simpl. rewrite length_app. simpl. lia.
Qed.

(** What lines 101-104 compute from statistics once they are at hand:
    the 80%% rule on the size. *)
Lemma isNearLimit_body_size stats b :
  (Qc_of_Z (maxSize (config b)) * ratio_0_8 ≤ Qc_of_Z (totalSize stats))%Qc →
  isNearLimit_body (Some stats) b = Some true.
Proof.
  intros H. unfold isNearLimit_body. by rewrite bool_decide_eq_true_2.
Qed.

(** Fed with the statistics of a buffer of 79, 80 and 81 bytes out of
    100, lines 101-104 decide as the 80%% rule says. *)
Lemma isNearLimit_body_boundary :
  isNearLimit_body (getStats_body (Some false) (buffer_of_size 79) 10)
                   (buffer_of_size 79) = Some false
  ∧ isNearLimit_body (getStats_body (Some false) (buffer_of_size 80) 10)
                     (buffer_of_size 80) = Some true
  ∧ isNearLimit_body (getStats_body (Some false) (buffer_of_size 81) 10)
                     (buffer_of_size 81) = Some true.
Proof. by vm_compute. Qed.

(** C6: [isNearLimit()] has no base case: it calls [getStats()], which
    calls [isNearLimit()] again.  On a buffer holding 81 bytes out of a
    maximum of 100, where the claim has it return [true], and on one
    holding 79, where the claim has it return [false], the call ends in
    a stack overflow for every stack size. *)
Theorem isNearLimit_never_returns :
  ∀ stack,
    isNearLimit stack (buffer_of_size 81) 10 = None
    ∧ isNearLimit stack (buffer_of_size 80) 10 = None
    ∧ isNearLimit stack (buffer_of_size 79) 10 = None.
Proof.
  intros stack. split_and!; apply getStats_isNearLimit_overflow.
Qed.

Lemma fold_left_sizes l acc :
  fold_left (fun sum chunk => sum + size chunk) l acc = acc + sum_sizes l.
Proof.
  revert acc. induction l as [|c l IH]; intros acc; simpl; [lia|].
  rewrite IH. lia.
Qed.

(** C7: [getStats()] fills the field [isNearLimit] of the object it
    returns with a call of [isNearLimit()], whose first statement is a
    call of [getStats()]: for every buffer, with or without chunks in
    memory, and for every stack size the call ends in a stack overflow
    and no statistics are returned.  So it is on the buffer of the
    README's test, which expects [chunkCount] 1 and [totalSize] 4. *)
Theorem getStats_never_returns :
  ∀ stack,
    (∀ b now, getStats stack b now = None)
    ∧ length (chunks readme_test) = 1%nat
    ∧ sum_sizes (chunks readme_test) = 4
    ∧ getStats stack readme_test 10 = None.
Proof.
  intros stack. split_and!; [|done|done|];
    intros; apply getStats_isNearLimit_overflow.
Qed.

(** What lines 82-93 would put into the statistics if the nested call
    came back: the sum of the sizes of the chunks in memory, their
    number, and the time since [initialize()], or 0 when no chunk is in
    memory. *)
Lemma getStats_body_fields b now nl :
  ∃ stats,
    getStats_body (Some nl) b now = Some stats
    ∧ totalSize stats = sum_sizes (chunks b)
    ∧ chunkCount stats = length (chunks b)
    ∧ totalDuration stats
      = match chunks b with
        | [] => 0%Qc
        | _ :: _ => seconds_of_ms (now - startTime b)
        end.
Proof.
  eexists. split; [done|]. simpl.
  split_and!; [by rewrite fold_left_sizes| done |].
  by destruct (chunks b).
Qed.

(** *** The object store *)

Lemma index_getAll_perm rid db :
  index_getAll rid db ≡ₚ (map_to_list (filter (of_recording rid) db)).*2.
Proof.
  unfold index_getAll. apply fmap_Permutation, merge_sort_Permutation.
Qed.

Lemma elem_of_index_getAll rid db d :
  d ∈ index_getAll rid db ↔ ∃ k, db !! k = Some d ∧ rec_recordingId d = rid.
Proof.
  rewrite index_getAll_perm, list_elem_of_fmap. split.
  - intros ([k d'] & -> & Hin). apply elem_of_map_to_list in Hin.
    apply map_lookup_filter_Some in Hin as [? ?]. by exists k.
  - intros (k & Hk & Hrid). exists (k, d). split; [done|].
    apply elem_of_map_to_list, map_lookup_filter_Some. by split.
Qed.

(** A put under a key that holds no record of the recording adds one
    record to the recording. *)
Lemma index_getAll_put_fresh rid c db :
  (∀ d, db !! chunkId rid (timestamp c) = Some d → rec_recordingId d ≠ rid) →
  index_getAll rid (store_put (chunkData rid c) db)
  ≡ₚ chunkData rid c :: index_getAll rid db.
Proof.
  intros Hfresh. rewrite !index_getAll_perm. unfold store_put. simpl.
  rewrite map_filter_insert_True by done.
  rewrite map_to_list_insert; [done|].
  apply map_lookup_filter_None. right. intros d Hd Hrid. by eapply Hfresh.
Qed.

(** A put under a key that holds a record of the recording replaces that
    record. *)
Lemma index_getAll_put_replace rid c db d :
  db !! chunkId rid (timestamp c) = Some d → rec_recordingId d = rid →
  length (index_getAll rid (store_put (chunkData rid c) db))
  = length (index_getAll rid db).
Proof.
  intros Hd Hrid. rewrite !index_getAll_perm, !length_fmap.
  unfold store_put. simpl.
  rewrite map_filter_insert_True by done.
  rewrite <-(insert_delete_eq (filter _ db)).
  rewrite map_to_list_insert by apply lookup_delete_eq.
  rewrite <-(insert_delete_id (filter (of_recording rid) db)
               (chunkId rid (timestamp c)) d) at 2
    by (by apply map_lookup_filter_Some).
  by rewrite map_to_list_insert by apply lookup_delete_eq.
Qed.

Lemma flush_puts_lookup rid l db k d :
  db !! k = Some d → rec_recordingId d = rid →
  ∃ d', flush_puts rid l db !! k = Some d' ∧ rec_recordingId d' = rid.
Proof.
  revert db d. induction l as [|c l IH]; intros db d Hk Hrid; [by eauto|].
  simpl. destruct (decide (chunkId rid (timestamp c) = k)) as [<-|Hne].
  - eapply IH; [apply lookup_insert_eq|done].
  - eapply IH; [|done]. unfold store_put. by rewrite lookup_insert_ne.
Qed.

Lemma flush_puts_length_le rid l db :
  (length (index_getAll rid (flush_puts rid l db))
   ≤ length (index_getAll rid db) + length l)%nat.
Proof.
  revert db. induction l as [|c l IH]; intros db; simpl; [lia|].
  etrans; [apply IH|].
  destruct (db !! chunkId rid (timestamp c)) as [d|] eqn:Hk.
  - destruct (decide (rec_recordingId d = rid)) as [Hrid|Hrid].
    + erewrite index_getAll_put_replace by done. lia.
    + rewrite index_getAll_put_fresh; [simpl; lia|]. congruence.
  - rewrite index_getAll_put_fresh; [simpl; lia|]. congruence.
Qed.

(** A chunk of the batch whose key already holds a record of the
    recording does not add to the count. *)
Lemma flush_puts_length_clash rid l db c d :
  c ∈ l → db !! chunkId rid (timestamp c) = Some d → rec_recordingId d = rid →
  (length (index_getAll rid (flush_puts rid l db))
   < length (index_getAll rid db) + length l)%nat.
Proof.
  revert db d. induction l as [|c0 l IH]; intros db d Hin Hk Hrid.
  { by apply elem_of_nil in Hin. }
  simpl.
  destruct (decide (timestamp c0 = timestamp c)) as [Hts|Hts].
  - eapply Nat.le_lt_trans; [apply flush_puts_length_le|].
    rewrite (index_getAll_put_replace rid c0 db d) by (by rewrite ?Hts).
    simpl. lia.
  - apply elem_of_cons in Hin as [->|Hin]; [done|].
    assert (chunkId rid (timestamp c0) ≠ chunkId rid (timestamp c)) as Hne.
    { unfold chunkId. intros Heq. by repeat apply (inj _) in Heq. }
    eapply Nat.lt_le_trans.
    { eapply (IH _ d); [done| |done]. unfold store_put. by rewrite lookup_insert_ne. }
    pose proof (flush_puts_length_le rid [c0] db) as Hle. simpl in Hle. lia.
Qed.

Lemma flush_puts_length_dup rid l db :
  ¬ NoDup (timestamp <$> l) →
  (length (index_getAll rid (flush_puts rid l db))
   < length (index_getAll rid db) + length l)%nat.
Proof.
  revert db. induction l as [|c l IH]; intros db Hdup.
  { destruct Hdup. constructor. }
  rewrite fmap_cons, NoDup_cons in Hdup.
  pose proof (flush_puts_length_le rid [c] db) as Hle.
  change (flush_puts rid [c] db) with (store_put (chunkData rid c) db) in Hle.
  change (flush_puts rid (c :: l) db)
    with (flush_puts rid l (store_put (chunkData rid c) db)).
  cbn [length] in *.
  destruct (decide (timestamp c ∈ timestamp <$> l)) as [Hin|Hnin].
  - apply list_elem_of_fmap in Hin as (c' & Hts & Hin).
    pose proof (flush_puts_length_clash rid l (store_put (chunkData rid c) db)
                  c' (chunkData rid c) Hin) as Hlt.
    rewrite <-Hts in Hlt. unfold store_put in Hlt at 1.
    specialize (Hlt (lookup_insert_eq _ _ _) eq_refl). lia.
  - pose proof (IH (store_put (chunkData rid c) db)) as Hlt.
    assert (¬ NoDup (timestamp <$> l)) as Hd by tauto.
    specialize (Hlt Hd). lia.
Qed.

Lemma chunkId_inj rid t1 t2 : chunkId rid t1 = chunkId rid t2 → t1 = t2.
Proof. unfold chunkId. intros Heq. by repeat apply (inj _) in Heq. Qed.

Lemma toChunk_chunkData rid c : toChunk (chunkData rid c) = c.
Proof. by destruct c. Qed.

Lemma no_records_keyed rid db : no_records_of rid db → keyed_by_timestamp rid db.
Proof. intros Hno k d Hk Hrid. by destruct (Hno k d Hk). Qed.

Lemma store_put_keyed rid c db :
  keyed_by_timestamp rid db →
  keyed_by_timestamp rid (store_put (chunkData rid c) db).
Proof.
  intros Hkeyed k d. unfold store_put. simpl.
  destruct (decide (chunkId rid (timestamp c) = k)) as [<-|Hne].
  - rewrite lookup_insert_eq. by intros [= <-] _.
  - rewrite lookup_insert_ne by done. apply Hkeyed.
Qed.

Lemma flush_puts_keyed rid l db :
  keyed_by_timestamp rid db → keyed_by_timestamp rid (flush_puts rid l db).
Proof.
  revert db. induction l as [|c l IH]; intros db Hk; [done|].
  apply (IH (store_put (chunkData rid c) db)), store_put_keyed, Hk.
Qed.

(** Under [keyed_by_timestamp] the persisted records of a recording have
    pairwise distinct timestamps. *)
Lemma index_getAll_NoDup_timestamps rid db :
  keyed_by_timestamp rid db → NoDup (rec_timestamp <$> index_getAll rid db).
Proof.
  intros Hkeyed. rewrite index_getAll_perm.
  apply (NoDup_fmap_1 (chunkId rid)).
  rewrite <-!list_fmap_compose.
  erewrite (list_fmap_ext _ fst).
  { apply NoDup_fst_map_to_list. }
  intros i [k d] Hi. simpl.
  apply list_elem_of_lookup_2, elem_of_map_to_list in Hi.
  apply map_lookup_filter_Some in Hi as [Hk Hrid].
  symmetry. by apply Hkeyed.
Qed.

(** Puts of chunks whose timestamps are new to the recording and
    pairwise distinct add one record each. *)
Lemma flush_puts_perm rid l db :
  keyed_by_timestamp rid db →
  NoDup ((rec_timestamp <$> index_getAll rid db) ++ (timestamp <$> l)) →
  index_getAll rid (flush_puts rid l db)
  ≡ₚ index_getAll rid db ++ (chunkData rid <$> l).
Proof.
  revert db. induction l as [|c l IH]; intros db Hkeyed Hnd.
  { by rewrite app_nil_r. }
  change (flush_puts rid (c :: l) db)
    with (flush_puts rid l (store_put (chunkData rid c) db)).
  assert (index_getAll rid (store_put (chunkData rid c) db)
          ≡ₚ chunkData rid c :: index_getAll rid db) as Hput.
  { apply index_getAll_put_fresh. intros d Hd Hrid.
    apply NoDup_app in Hnd as (_ & Hdisj & _).
    apply (Hdisj (timestamp c)).
    - apply list_elem_of_fmap. exists d. split.
      + apply (chunkId_inj rid). by apply Hkeyed.
      + apply elem_of_index_getAll. eauto.
    - rewrite fmap_cons. apply elem_of_cons. by left. }
  rewrite IH.
  - rewrite Hput, fmap_cons. simpl. by rewrite Permutation_middle.
  - by apply store_put_keyed.
  - rewrite Hput, fmap_cons. simpl.
    rewrite fmap_cons, <-Permutation_middle in Hnd. done.
Qed.

(** *** The sort *)

Lemma insert_by_timestamp_perm c l : insert_by_timestamp c l ≡ₚ c :: l.
Proof.
  induction l as [|d l IH]; [done|]. simpl.
  case_bool_decide; [done|]. by rewrite IH, Permutation_swap.
Qed.

Lemma sort_by_timestamp_perm l : sort_by_timestamp l ≡ₚ l.
Proof.
  induction l as [|c l IH]; [done|]. simpl.
  by rewrite insert_by_timestamp_perm, IH.
Qed.

Lemma insert_by_timestamp_sorted c l :
  StronglySorted by_timestamp l →
  StronglySorted by_timestamp (insert_by_timestamp c l).
Proof.
  induction 1 as [|d l Hs IH Hd]; simpl.
  { repeat constructor. }
  case_bool_decide as Hle.
  - constructor; [by constructor|].
    constructor; [done|].
    eapply Forall_impl; [exact Hd|]. unfold by_timestamp. intros; simpl in *; lia.
  - constructor; [done|].
    rewrite insert_by_timestamp_perm. constructor; [|done].
    unfold by_timestamp. lia.
Qed.

Lemma sort_by_timestamp_sorted l :
  StronglySorted by_timestamp (sort_by_timestamp l).
Proof.
  induction l as [|c l IH]; simpl; [constructor|].
  by apply insert_by_timestamp_sorted.
Qed.

Lemma getAllChunks_perm b db :
  getAllChunks true b db
  ≡ₚ (toChunk <$> index_getAll (recordingId b) db) ++ chunks b.
Proof. apply sort_by_timestamp_perm. Qed.

(** *** Flushing *)

Lemma flush_puts_holds rid l db c :
  c ∈ l →
  ∃ d, flush_puts rid l db !! chunkId rid (timestamp c) = Some d
       ∧ rec_recordingId d = rid.
Proof.
  revert db. induction l as [|c0 l IH]; intros db Hin.
  { by apply elem_of_nil in Hin. }
  apply elem_of_cons in Hin as [->|Hin]; [|by apply IH].
  apply (flush_puts_lookup rid l _ _ (chunkData rid c0)); [|done].
  apply lookup_insert_eq.
Qed.

Lemma flushToIndexedDB_fields dbOk b db :
  recordingId (flushToIndexedDB dbOk b db).1.1 = recordingId b
  ∧ startTime (flushToIndexedDB dbOk b db).1.1 = startTime b
  ∧ config (flushToIndexedDB dbOk b db).1.1 = config b.
Proof.
  unfold flushToIndexedDB. case_bool_decide; [done|]. by destruct dbOk.
Qed.

Lemma flushToIndexedDB_ok b db :
  chunks (flushToIndexedDB true b db).1.1 = []
  ∧ (flushToIndexedDB true b db).1.2 = flush_puts (recordingId b) (chunks b) db.
Proof.
  unfold flushToIndexedDB. case_bool_decide as Hlen; [|done].
  apply nil_length_inv in Hlen. by rewrite Hlen.
Qed.

(** C10: chunks of one batch with equal timestamps are written under one
    key, which afterwards holds a single record; after a flush no two of
    the chunks [getAllChunks()] returns share a timestamp; and a flush
    that keeps the total count had pairwise distinct timestamps in its
    batch. *)
Theorem flush_equal_timestamps_share_key :
  ∀ b db,
    keyed_by_timestamp (recordingId b) db →
    let rid := recordingId b in
    let b' := (flushToIndexedDB true b db).1.1 in
    let db' := (flushToIndexedDB true b db).1.2 in
    (∀ c1 c2, c1 ∈ chunks b → c2 ∈ chunks b → timestamp c1 = timestamp c2 →
       rec_id (chunkData rid c1) = rec_id (chunkData rid c2)
       ∧ ∃ d, db' !! rec_id (chunkData rid c1) = Some d
              ∧ rec_recordingId d = rid ∧ rec_timestamp d = timestamp c1)
    ∧ NoDup (timestamp <$> getAllChunks true b' db')
    ∧ (length (getAllChunks true b' db') = length (getAllChunks true b db) →
       NoDup (timestamp <$> chunks b)).
Proof.
  intros b db Hkeyed rid b' db'.
  destruct (flushToIndexedDB_ok b db) as [Hmem Hdb].
  destruct (flushToIndexedDB_fields true b db) as (Hrid & _ & _).
  fold b' in Hmem, Hrid. fold db' in Hdb. fold rid in Hdb, Hrid.
  assert (keyed_by_timestamp rid db') as Hkeyed'.
  { rewrite Hdb. by apply flush_puts_keyed. }
  split_and!.
  - intros c1 c2 Hc1 _ Hts. split; [by simpl; rewrite Hts|].
    destruct (flush_puts_holds rid (chunks b) db c1 Hc1) as (d & Hd & Hd').
    rewrite <-Hdb in Hd. exists d. do 2 (split; [done|]).
    pose proof (Hkeyed' _ _ Hd Hd') as Hkey. symmetry.
    by apply (chunkId_inj rid).
  - rewrite getAllChunks_perm, Hmem, app_nil_r, Hrid, <-list_fmap_compose.
    by apply index_getAll_NoDup_timestamps.
  - rewrite !getAllChunks_perm, Hmem, Hrid, app_nil_r, length_app, !length_fmap.
    fold rid. rewrite Hdb. intros Hlen.
    destruct (decide (NoDup (timestamp <$> chunks b))) as [|Hdup]; [done|].
    apply (flush_puts_length_dup rid _ db) in Hdup. lia.
Qed.

(** *** Sessions *)

Lemma flushToIndexedDB_all dbOk b db :
  keyed_by_timestamp (recordingId b) db →
  NoDup (timestamp <$> all_of (b, db)) →
  keyed_by_timestamp (recordingId b) (flushToIndexedDB dbOk b db).1.2
  ∧ all_of (flushToIndexedDB dbOk b db).1 ≡ₚ all_of (b, db).
Proof.
  intros Hkeyed Hnd. unfold flushToIndexedDB.
  case_bool_decide as Hlen; [done|]. destruct dbOk; [|done].
  unfold all_of in *. simpl in *.
  split; [by apply flush_puts_keyed|].
  rewrite fmap_app, <-list_fmap_compose in Hnd.
  change (fold_left _ (chunks b) db) with (flush_puts (recordingId b) (chunks b) db).
  rewrite flush_puts_perm by done.
  rewrite app_nil_r, fmap_app, <-list_fmap_compose.
  f_equiv. erewrite list_fmap_ext; [by rewrite list_fmap_id|].
  intros i c _. apply toChunk_chunkData.
Qed.

Lemma do_call_all stack s c :
  keyed_by_timestamp (recordingId s.1) s.2 →
  NoDup (timestamp <$> (all_of s ++ appended (startTime s.1) [c])) →
  recordingId (do_call stack s c).1 = recordingId s.1
  ∧ startTime (do_call stack s c).1 = startTime s.1
  ∧ keyed_by_timestamp (recordingId s.1) (do_call stack s c).2
  ∧ all_of (do_call stack s c) ≡ₚ all_of s ++ appended (startTime s.1) [c].
Proof.
  destruct s as [b db]. intros Hkeyed Hnd.
  destruct c as [payload now dbOk|dbOk]; cbn [do_call appended fst snd] in *.
  - set (chunk := mkChunk payload now (blob_size payload)
                    (seconds_of_ms (now - startTime b))) in *.
    set (b1 := mkBuffer (chunks b ++ [chunk]) (config b) (startTime b)
                 (recordingId b)).
    assert (all_of (b1, db) = all_of (b, db) ++ [chunk]) as Hall.
    { unfold all_of. simpl. by rewrite app_assoc. }
    destruct (flushToIndexedDB_fields dbOk b1 db) as (Hr & Hs & _).
    destruct (flushToIndexedDB_all dbOk b1 db) as [Hk Hp];
      [done|by rewrite Hall|].
    unfold addChunk. fold chunk b1.
    destruct (autoFlush (config b1)); [|by rewrite <-Hall].
    destruct (isNearLimit stack b1 now) as [[|]|]; [|by rewrite <-Hall..].
    destruct (flushToIndexedDB dbOk b1 db) as [[b2 db2] o] eqn:Hf.
    simpl in *. rewrite <-Hall. by split_and!.
  - rewrite app_nil_r in *.
    destruct (flushToIndexedDB_fields dbOk b db) as (Hr & Hs & _).
    destruct (flushToIndexedDB_all dbOk b db) as [Hk Hp]; done.
Qed.

Lemma appended_app start cs1 cs2 :
  appended start (cs1 ++ cs2) = appended start cs1 ++ appended start cs2.
Proof.
  induction cs1 as [|[payload now dbOk|dbOk] cs1 IH]; simpl; by rewrite ?IH.
Qed.

Lemma appended_timestamps start cs :
  timestamp <$> appended start cs = add_times cs.
Proof.
  induction cs as [|[payload now dbOk|dbOk] cs IH]; csimpl; by rewrite ?IH.
Qed.

Lemma session_all stack cs s :
  keyed_by_timestamp (recordingId s.1) s.2 →
  NoDup (timestamp <$> (all_of s ++ appended (startTime s.1) cs)) →
  all_of (session stack cs s) ≡ₚ all_of s ++ appended (startTime s.1) cs.
Proof.
  revert s. induction cs as [|c cs IH]; intros s Hkeyed Hnd.
  { simpl. by rewrite app_nil_r. }
  change (c :: cs) with ([c] ++ cs) in Hnd |- *.
  rewrite appended_app, app_assoc in Hnd |- *.
  destruct (do_call_all stack s c) as (Hr & Hs & Hk & Hp); [done| |].
  { rewrite fmap_app in Hnd. by apply NoDup_app in Hnd as (? & _ & _). }
  change (session stack ([c] ++ cs) s) with (session stack cs (do_call stack s c)).
  rewrite IH.
  - by rewrite Hs, Hp.
  - by rewrite Hr.
  - by rewrite Hs, Hp.
Qed.

(** *** Calls in flight and awaited calls *)

Lemma iter_resume_flush_settled n k dbOk w o :
  tasks w !! k = Some (FlushSettled o) → Nat.iter n (resume k dbOk) w = w.
Proof.
  intros Hk. induction n as [|n IH]; [done|].
  rewrite Nat.iter_succ_r. unfold resume at 2. by rewrite Hk.
Qed.

Lemma iter_resume_get_settled n k dbOk w r :
  tasks w !! k = Some (GetSettled r) → Nat.iter n (resume k dbOk) w = w.
Proof.
  intros Hk. induction n as [|n IH]; [done|].
  rewrite Nat.iter_succ_r. unfold resume at 2. by rewrite Hk.
Qed.

Lemma the_chunks_assign_empty w : the_chunks (assign_empty w) = [].
Proof.
  unfold the_chunks, array_at. simpl. by rewrite list_lookup_middle.
Qed.

(** One put of a flush whose transaction is the oldest one. *)
Lemma resume_putting k dbOk w l i chunk :
  arrays w !! this_chunks w = Some l →
  tasks w !! k = Some (FlushPutting (this_chunks w) i) →
  transactions w = [k] →
  l !! i = Some chunk →
  resume k dbOk w
  = if bool_decide (S i < length l)%nat
    then set_task k (FlushPutting (this_chunks w) (S i))
           (put_record (chunkData (w_recordingId w) chunk) w)
    else set_task k (FlushSettled Returned)
           (end_transaction k
              (assign_empty (put_record (chunkData (w_recordingId w) chunk) w))).
Proof.
  intros Harr Htask Htx Hi. unfold resume. rewrite Htask, Htx. simpl.
  rewrite bool_decide_eq_true_2 by done.
  unfold array_at at 1. rewrite Harr. simpl. rewrite Hi.
  unfold flush_next, array_at. simpl. by rewrite Harr.
Qed.

(** The loop of an awaited flush, from element [i] on. *)
Lemma flush_loop k dbOk m n : ∀ i w l,
  arrays w !! this_chunks w = Some l →
  tasks w !! k = Some (FlushPutting (this_chunks w) i) →
  transactions w = [k] →
  (i + S n = length l)%nat →
  the_chunks (Nat.iter (S n + m) (resume k dbOk) w) = []
  ∧ w_store (Nat.iter (S n + m) (resume k dbOk) w)
    = flush_puts (w_recordingId w) (drop i l) (w_store w)
  ∧ w_config (Nat.iter (S n + m) (resume k dbOk) w) = w_config w
  ∧ w_startTime (Nat.iter (S n + m) (resume k dbOk) w) = w_startTime w
  ∧ w_recordingId (Nat.iter (S n + m) (resume k dbOk) w) = w_recordingId w
  ∧ at_rest (Nat.iter (S n + m) (resume k dbOk) w).
Proof.
  induction n as [|n IH]; intros i w l Harr Htask Htx Hlen.
  - destruct (l !! i) as [chunk|] eqn:Hi;
      [|apply lookup_ge_None in Hi; lia].
    change (1 + m)%nat with (S m).
    rewrite Nat.iter_succ_r, (resume_putting k dbOk w l i chunk) by done.
    rewrite bool_decide_eq_false_2 by lia.
    erewrite iter_resume_flush_settled;
      [|simpl; apply list_lookup_insert_eq; by eapply lookup_lt_Some].
    rewrite (drop_S l chunk i Hi), drop_ge by lia.
    split_and!; try done.
    + apply the_chunks_assign_empty.
    + split; simpl.
      * rewrite Htx. cbn. by rewrite decide_False by (intros H; by apply H).
      * rewrite length_app. simpl. lia.
  - destruct (l !! i) as [chunk|] eqn:Hi;
      [|apply lookup_ge_None in Hi; lia].
    change (S (S n) + m)%nat with (S (S n + m)).
    rewrite Nat.iter_succ_r, (resume_putting k dbOk w l i chunk) by done.
    rewrite bool_decide_eq_true_2 by lia.
    destruct (IH (S i)
      (set_task k (FlushPutting (this_chunks w) (S i))
         (put_record (chunkData (w_recordingId w) chunk) w)) l)
      as (H1 & H2 & H3 & H4 & H5 & H6); [done| |done|lia|].
    { simpl. apply list_lookup_insert_eq. by eapply lookup_lt_Some. }
    split_and!; try done.
    rewrite H2. simpl. by rewrite (drop_S l chunk i Hi).
Qed.

(** An awaited flush does what [flushToIndexedDB] says. *)
Lemma awaited_flush dbOk w :
  at_rest w →
  let w' := settle (length (tasks w)) dbOk (call_flush w) in
  object w' = (flushToIndexedDB dbOk (object w) (w_store w)).1.1
  ∧ w_store w' = (flushToIndexedDB dbOk (object w) (w_store w)).1.2
  ∧ at_rest w'.
Proof.
  intros [Htx Hlt]. unfold call_flush, flushToIndexedDB, settle. cbn zeta.
  change (chunks (object w)) with (the_chunks w).
  case_bool_decide as Hlen.
  { erewrite iter_resume_flush_settled;
      [done|simpl; by apply list_lookup_middle]. }
  set (k := length (tasks w)).
  assert (the_chunks (spawn FlushOpening w) = the_chunks w) as -> by done.
  destruct (lookup_lt_is_Some_2 _ _ Hlt) as [l Harr].
  assert (the_chunks w = l) as Hl.
  { unfold the_chunks, array_at. by rewrite Harr. }
  rewrite Hl in Hlen |- *.
  change (2 + length l)%nat with (S (S (length l))).
  assert (resume k dbOk (spawn FlushOpening w)
          = if dbOk
            then flush_next k (this_chunks w) 0
                   (begin_transaction k (spawn FlushOpening w))
            else set_task k (FlushSettled (Threw StorageError))
                   (spawn FlushOpening w)) as Hopen.
  { unfold resume. simpl. by rewrite list_lookup_middle. }
  rewrite Nat.iter_succ_r, Hopen. clear Hopen.
  destruct dbOk.
  - assert (flush_next k (this_chunks w) 0
              (begin_transaction k (spawn FlushOpening w))
            = set_task k (FlushPutting (this_chunks w) 0)
                (begin_transaction k (spawn FlushOpening w))) as ->.
    { unfold flush_next, array_at. simpl. rewrite Harr. simpl.
      by rewrite bool_decide_eq_true_2 by lia. }
    destruct (length l) as [|n] eqn:Hn; [done|].
    destruct (flush_loop k true 1 n 0
      (set_task k (FlushPutting (this_chunks w) 0)
         (begin_transaction k (spawn FlushOpening w))) l)
      as (H1 & H2 & H3 & H4 & H5 & H6); [done| |by simpl; rewrite Htx|lia|].
    { simpl. apply list_lookup_insert_eq. rewrite length_app. simpl.
      unfold k. lia. }
    replace (S (S n)) with (S n + 1)%nat by lia.
    split_and!; [|by rewrite H2|done].
    unfold object. by rewrite H1, H3, H4, H5.
  - erewrite iter_resume_flush_settled;
      [|simpl; apply list_lookup_insert_eq; rewrite length_app; simpl;
        unfold k; lia].
    split_and!; [|done|done].
    unfold object, the_chunks, array_at. simpl. by rewrite Harr.
Qed.

Lemma the_chunks_push chunk w :
  (this_chunks w < length (arrays w))%nat →
  the_chunks (push chunk w) = the_chunks w ++ [chunk].
Proof.
  intros Hlt. destruct (lookup_lt_is_Some_2 _ _ Hlt) as [l Harr].
  unfold the_chunks, array_at. simpl.
  rewrite list_lookup_alter, decide_True by done. by rewrite Harr.
Qed.

(** A call that is awaited does what the one-step method says. *)
Lemma awaited_call_do_call stack w c :
  at_rest w →
  object (awaited_call stack w c) = (do_call stack (object w, w_store w) c).1
  ∧ w_store (awaited_call stack w c) = (do_call stack (object w, w_store w) c).2
  ∧ at_rest (awaited_call stack w c).
Proof.
  intros Hrest. destruct c as [payload now dbOk|dbOk]; cbn [awaited_call do_call].
  - destruct Hrest as [Htx Hlt].
    unfold call_addChunk, addChunk. cbn [fst snd config object].
    rewrite !(proj2 (getStats_isNearLimit_overflow _ _ _)).
    assert (object (push (mkChunk payload now (blob_size payload)
                            (seconds_of_ms (now - w_startTime w))) w)
            = mkBuffer (the_chunks w ++
                          [mkChunk payload now (blob_size payload)
                             (seconds_of_ms (now - w_startTime w))])
                (w_config w) (w_startTime w) (w_recordingId w)) as Hobj.
    { unfold object. by rewrite the_chunks_push. }
    assert (at_rest (push (mkChunk payload now (blob_size payload)
                            (seconds_of_ms (now - w_startTime w))) w)) as Hr.
    { split; simpl; [done|by rewrite length_alter]. }
    change (w_config (push _ w)) with (w_config w).
    destruct (autoFlush (w_config w)); by rewrite Hobj.
  - destruct (awaited_flush dbOk w Hrest) as (H1 & H2 & H3).
    by cbn [fst snd].
Qed.

Lemma awaited_session stack cs : ∀ w,
  at_rest w →
  object (awaited stack cs w) = (session stack cs (object w, w_store w)).1
  ∧ w_store (awaited stack cs w) = (session stack cs (object w, w_store w)).2
  ∧ at_rest (awaited stack cs w).
Proof.
  induction cs as [|c cs IH]; intros w Hrest; [done|].
  destruct (awaited_call_do_call stack w c Hrest) as (H1 & H2 & H3).
  destruct (IH _ H3) as (IH1 & IH2 & IH3).
  cbn [awaited session fold_left]. fold (awaited stack cs).
  fold (session stack cs).
  rewrite H1, H2 in IH1, IH2.
  by destruct (do_call stack (object w, w_store w) c).
Qed.

(** An awaited [getAllChunks] resolves to what the one-step method
    returns. *)
Lemma awaited_getAllChunks_eq dbOk w :
  at_rest w →
  awaited_getAllChunks dbOk w
  = Some (getAllChunks dbOk (object w) (w_store w)).
Proof.
  intros [Htx Hlt]. unfold awaited_getAllChunks, settle, call_getAllChunks.
  set (k := length (tasks w)). set (mem := the_chunks w).
  assert (the_chunks (spawn (GetOpening mem) w) = mem) as -> by done.
  change (2 + length mem)%nat with (S (S (length mem))).
  assert (resume k dbOk (spawn (GetOpening mem) w)
          = if dbOk
            then set_task k (GetReading mem)
                   (begin_transaction k (spawn (GetOpening mem) w))
            else set_task k (GetSettled mem) (spawn (GetOpening mem) w))
    as Hopen.
  { unfold resume. simpl. by rewrite list_lookup_middle. }
  assert (k < length (tasks w ++ [GetOpening mem]))%nat as Hk.
  { rewrite length_app. simpl. unfold k. lia. }
  rewrite Nat.iter_succ_r, Hopen. clear Hopen.
  destruct dbOk.
  - rewrite Nat.iter_succ_r.
    assert (resume k true (set_task k (GetReading mem)
                             (begin_transaction k (spawn (GetOpening mem) w)))
            = set_task k
                (GetSettled (sort_by_timestamp
                   ((toChunk <$> index_getAll (w_recordingId w) (w_store w))
                      ++ mem)))
                (end_transaction k
                   (set_task k (GetReading mem)
                      (begin_transaction k (spawn (GetOpening mem) w)))))
      as ->.
    { unfold resume. simpl. rewrite list_lookup_insert_eq by done.
      rewrite Htx. simpl. by rewrite bool_decide_eq_true_2. }
    erewrite iter_resume_get_settled;
      [|simpl; apply list_lookup_insert_eq; by rewrite length_insert].
    unfold resolved. simpl.
    by rewrite list_lookup_insert_eq by (by rewrite length_insert).
  - erewrite iter_resume_get_settled;
      [|simpl; by apply list_lookup_insert_eq].
    unfold resolved. simpl. by rewrite list_lookup_insert_eq.
Qed.

Lemma start_at_rest b db :
  at_rest (start b db) ∧ object (start b db) = b ∧ w_store (start b db) = db.
Proof. split_and!; [split; simpl; [done|lia]|by destruct b|done]. Qed.

(** What an awaited session leaves for [getAllChunks()] to return. *)
Lemma session_getAllChunks stack rid cfg t0 db0 cs :
  no_records_of rid db0 →
  NoDup (add_times cs) →
  let s := session stack cs (initialize (new rid cfg) t0, db0) in
  getAllChunks true s.1 s.2 ≡ₚ appended t0 cs.
Proof.
  intros Hno Hnd s.
  set (s0 := (initialize (new rid cfg) t0, db0)) in *.
  assert (index_getAll rid db0 = []) as Hempty.
  { apply elem_of_nil_inv. intros d (k & Hk & Hrid)%elem_of_index_getAll.
    by destruct (Hno k d Hk). }
  assert (all_of s0 = []) as Hall0.
  { unfold all_of. simpl. by rewrite Hempty. }
  rewrite getAllChunks_perm. fold (all_of s). unfold s.
  rewrite session_all; simpl.
  - by rewrite Hall0.
  - by apply no_records_keyed.
  - by rewrite Hall0, app_nil_l, appended_timestamps.
Qed.

Lemma awaited_then_getAllChunks stack b db cs dbOk :
  awaited_getAllChunks dbOk (awaited stack cs (start b db))
  = Some (getAllChunks dbOk (session stack cs (b, db)).1
            (session stack cs (b, db)).2).
Proof.
  destruct (start_at_rest b db) as (Hrest & Hobj & Hdb).
  destruct (awaited_session stack cs _ Hrest) as (H1 & H2 & H3).
  rewrite awaited_getAllChunks_eq by done.
  by rewrite H1, H2, Hobj, Hdb.
Qed.




Lemma flush_equal_timestamps_witness :
  let b := {| chunks := [mkChunk (mkBlob [Byte.x01] "video/webm") 5 1 0%Qc;
                         mkChunk (mkBlob [Byte.x02] "video/webm") 5 1 0%Qc];
              config := defaultConfig; startTime := 0; recordingId := "rec" |} in
  NoDup (timestamp <$>
           getAllChunks true (flushToIndexedDB true b ∅).1.1
                             (flushToIndexedDB true b ∅).1.2).
Proof.
  intros b.
  refine (proj1 (proj2 (flush_equal_timestamps_share_key b ∅ _))).
  intros k d Hk. by rewrite lookup_empty in Hk.
Defined.

End VideoBufferFacts.

(** ** [VideoUploadService] *)

Module VideoUploadServiceFacts.
Import VideoUploadService.

(** *** [updateProgress], [cleanup], [cancelUpload] *)

Lemma updateProgress_registered id updates st cb :
  progressCallbacks st !! id = Some cb →
  updateProgress id updates st = deliver cb (mergeProgress id updates) st.
Proof. intros H. unfold updateProgress. by rewrite H. Qed.

Lemma updateProgress_unregistered id updates st :
  progressCallbacks st !! id = None → updateProgress id updates st = st.
Proof. intros H. unfold updateProgress. by rewrite H. Qed.

Lemma updateProgress_tables id updates st :
  config (updateProgress id updates st) = config st
  ∧ activeUploads (updateProgress id updates st) = activeUploads st
  ∧ progressCallbacks (updateProgress id updates st) = progressCallbacks st
  ∧ controllers (updateProgress id updates st) = controllers st.
Proof. unfold updateProgress. by destruct (progressCallbacks st !! id). Qed.

(** C9: [updateProgress] calls the callback registered for the id once,
    with an event in which every field the update supplies has the
    supplied value and every field it omits has the fixed default: the
    id of the upload, 0 for the byte counts, the percentage, the speed
    and the remaining time, ['pending'] for the status, no error.  It
    reads nothing but the callback table and writes nothing but the call
    of the callback: the tables are as before, and every service state
    with a callback for the id, whatever was delivered before, yields
    the same event. *)
Theorem updateProgress_event_from_defaults :
  ∀ id updates st cb,
    progressCallbacks st !! id = Some cb →
    ∃ ev,
      calls (updateProgress id updates st) = calls st ++ [(cb, ev)]
      ∧ ((∀ v, u_uploadId updates = Some v → uploadId ev = v)
         ∧ (∀ v, u_bytesUploaded updates = Some v → bytesUploaded ev = v)
         ∧ (∀ v, u_totalBytes updates = Some v → totalBytes ev = v)
         ∧ (∀ v, u_percentage updates = Some v → percentage ev = v)
         ∧ (∀ v, u_speed updates = Some v → speed ev = v)
         ∧ (∀ v, u_estimatedTimeRemaining updates = Some v →
              estimatedTimeRemaining ev = v)
         ∧ (∀ v, u_status updates = Some v → status ev = v)
         ∧ (∀ v, u_error updates = Some v → error ev = Some v))
      ∧ ((u_uploadId updates = None → uploadId ev = id)
         ∧ (u_bytesUploaded updates = None → bytesUploaded ev = 0)
         ∧ (u_totalBytes updates = None → totalBytes ev = 0)
         ∧ (u_percentage updates = None → percentage ev = 0%Qc)
         ∧ (u_speed updates = None → speed ev = Num 0%Qc)
         ∧ (u_estimatedTimeRemaining updates = None →
              estimatedTimeRemaining ev = Num 0%Qc)
         ∧ (u_status updates = None → status ev = Pending)
         ∧ (u_error updates = None → error ev = None))
      ∧ (activeUploads (updateProgress id updates st) = activeUploads st
         ∧ progressCallbacks (updateProgress id updates st)
           = progressCallbacks st
         ∧ controllers (updateProgress id updates st) = controllers st)
      ∧ (∀ st2 cb2, progressCallbacks st2 !! id = Some cb2 →
           calls (updateProgress id updates st2) = calls st2 ++ [(cb2, ev)]).
Proof.
  intros id updates st cb Hcb.
  exists (mergeProgress id updates).
  rewrite (updateProgress_registered _ _ _ _ Hcb). simpl.
  split; [done|].
  split; [split_and!; by intros v ->|].
  split; [split_and!; by intros ->|].
  split; [done|].
  intros st2 cb2 Hcb2. by rewrite (updateProgress_registered _ _ _ _ Hcb2).
Qed.

Lemma updateProgress_event_witness :
  ∃ ev,
    calls (updateProgress "up"
             (mkUpdate None (Some 3) None (Some (Qc_of_Z 100)) None None
                (Some Uploading) None)
             (set_progressCallback "up" 7%nat (new defaultConfig)))
    = [(7%nat, ev)]
    ∧ bytesUploaded ev = 3 ∧ percentage ev = Qc_of_Z 100
    ∧ status ev = Uploading ∧ totalBytes ev = 0.
Proof.
  destruct (updateProgress_event_from_defaults "up"
              (mkUpdate None (Some 3) None (Some (Qc_of_Z 100)) None None
                 (Some Uploading) None)
              (set_progressCallback "up" 7%nat (new defaultConfig)) 7%nat)
    as (ev & Hcalls & Hsupplied & Hdefaults & _).
  - reflexivity.
  - destruct Hsupplied as (_ & Hb & _ & Hp & _ & _ & Hs & _).
    destruct Hdefaults as (_ & _ & Ht & _).
    exists ev. split; [exact Hcalls|].
    split; [exact (Hb 3 eq_refl)|]. split; [exact (Hp _ eq_refl)|].
    split; [exact (Hs _ eq_refl)|exact (Ht eq_refl)].
Defined.

Lemma cancelUpload_unknown id st :
  activeUploads st !! id = None → cancelUpload id st = st.
Proof. intros H. unfold cancelUpload. by rewrite H. Qed.

Lemma do_action_unregistered id a st :
  ¬ registers id a →
  progressCallbacks st !! id = None →
  progressCallbacks (do_action st a) !! id = None.
Proof.
  intros Hreg Hnone. destruct a as [id' [cb|]|id' u|id'|id']; simpl in *.
  - by rewrite lookup_insert_ne.
  - done.
  - by destruct (updateProgress_tables id' u st) as (_ & _ & -> & _).
  - destruct (decide (id' = id)) as [->|Hne].
    + by rewrite lookup_delete_eq.
    + by rewrite lookup_delete_ne.
  - unfold cancelUpload. destruct (activeUploads st !! id'); [|done].
    simpl.
    destruct (updateProgress_tables id'
                (mkUpdate None None None None None None (Some Cancelled) None)
                (abort n st)) as (_ & _ & -> & _).
    simpl. destruct (decide (id' = id)) as [->|Hne].
    + by rewrite lookup_delete_eq.
    + by rewrite lookup_delete_ne.
Qed.

Lemma run_unregistered id acts st :
  Forall (λ a, ¬ registers id a) acts →
  progressCallbacks st !! id = None →
  progressCallbacks (run acts st) !! id = None.
Proof.
  intros Hacts. revert st. induction Hacts as [|a acts Ha _ IH]; intros st H.
  - done.
  - apply IH. by apply do_action_unregistered.
Qed.

Lemma new_handles_allocated cfg : handles_allocated (new cfg).
Proof. intros id c. simpl. by rewrite lookup_empty. Qed.

Lemma do_action_handles_allocated st a :
  handles_allocated st → handles_allocated (do_action st a).
Proof.
  intros Hwf. destruct a as [id' onProgress|id' u|id'|id']; simpl.
  - assert (handles_allocated
              (set_activeUpload id' (length (controllers st))
                 (new_AbortController st).2)) as H.
    { intros id c. simpl. rewrite length_app. simpl.
      destruct (decide (id' = id)) as [->|Hne].
      - rewrite lookup_insert_eq. intros [= <-]. lia.
      - rewrite lookup_insert_ne by done. intros Hc%Hwf. lia. }
    by destruct onProgress.
  - intros id c.
    destruct (updateProgress_tables id' u st) as (_ & -> & _ & ->). apply Hwf.
  - intros id c. simpl. intros Hc%lookup_delete_Some. by apply (Hwf id), Hc.
  - unfold cancelUpload. destruct (activeUploads st !! id') as [c'|]; [|done].
    intros id c. simpl.
    destruct (updateProgress_tables id'
                (mkUpdate None None None None None None (Some Cancelled) None)
                (abort c' st)) as (_ & -> & _ & ->).
    simpl. rewrite length_insert. intros Hc%lookup_delete_Some.
    by apply (Hwf id), Hc.
Qed.



(** *** Reasoning about [M] *)

Lemma wp_ret {A} (a : A) QO QT st : QO a st → wp (mret a) QO QT st.
Proof. done. Qed.

Lemma wp_throw {A} e (QO : A → state → Prop) QT st :
  QT e st → wp (throw e) QO QT st.
Proof. done. Qed.

Lemma wp_act f QO QT st : QO tt (f st) → wp (act f) QO QT st.
Proof. done. Qed.

Lemma wp_read {A} (f : state → A) QO QT st : QO (f st) st → wp (read f) QO QT st.
Proof. done. Qed.

Lemma wp_bind {A B} (m : M A) (f : A → M B) QO QT st :
  wp m (λ a st1, wp (f a) QO QT st1) QT st → wp (m ≫= f) QO QT st.
Proof.
  unfold wp, mbind, M_bind. by destruct (m st) as [st1 [a|e|]].
Qed.

Lemma wp_try_catch {A} (m : M A) h QO QT st :
  wp m QO (λ e st1, wp (h e) QO QT st1) st → wp (try_catch m h) QO QT st.
Proof.
  unfold wp, try_catch. by destruct (m st) as [st1 [a|e|]].
Qed.

Lemma wp_mono {A} (m : M A) (QO QO' : A → state → Prop)
    (QT QT' : thrown → state → Prop) st :
  wp m QO QT st →
  (∀ a st', QO a st' → QO' a st') → (∀ e st', QT e st' → QT' e st') →
  wp m QO' QT' st.
Proof.
  unfold wp. destruct (m st) as [st1 [a|e|]]; auto.
Qed.

(** *** Invariants of one [uploadVideo] call *)

Section invariant.
Context (env : Env) (id : string).

(** A property of the service that progress updates for [id] and the
    waits of this call preserve. *)
Context (J : state → Prop).
Hypothesis J_update : ∀ updates st, J st → J (updateProgress id updates st).
Hypothesis J_await :
  ∀ p st, J st →
    J (if env_cancel env p then cancelUpload (env_uploadId env) st else st).

Lemma wp_update updates (QO : unit → state → Prop) QT st :
  (∀ st', J st' → QO tt st') → J st →
  wp (act (updateProgress id updates)) QO QT st.
Proof. intros HQ HJ. apply wp_act, HQ, J_update, HJ. Qed.

Lemma wp_await p (QO : unit → state → Prop) QT st :
  (∀ st', J st' → QO tt st') → J st → wp (await env p) QO QT st.
Proof. intros HQ HJ. apply wp_act, HQ, J_await, HJ. Qed.

Lemma simulate_inv signal totalSize startTime chunks i uploaded st :
  J st →
  wp (simulate env id signal totalSize startTime chunks i uploaded)
     (λ _ st', J st') (λ _ st', J st') st.
Proof.
  revert i uploaded st.
  induction chunks as [|chunk rest IH]; intros i uploaded st HJ; [done|].
  cbn [simulate]. apply wp_bind, wp_read.
  destruct (signal_aborted signal st); [by apply wp_throw|].
  apply wp_bind, wp_await; [|done]. intros st1 HJ1.
  apply wp_bind, wp_update; [|done]. intros st2 HJ2.
  by apply IH.
Qed.

Lemma directUpload_inv blob path signal st :
  J st →
  wp (directUpload env id blob path signal)
     (λ _ st', J st') (λ _ _, False) st.
Proof.
  intros HJ. unfold directUpload. apply wp_try_catch.
  apply wp_bind, wp_await; [|done]. intros st1 HJ1.
  apply wp_bind. destruct (env_upload env) as [e|].
  - by apply wp_throw, wp_ret.
  - apply wp_ret, wp_bind, wp_update; [|done]. intros st2 HJ2.
    by apply wp_ret.
Qed.

Lemma chunkedUpload_inv cfg blob path signal st :
  chunkSize cfg ≠ 0 → J st →
  wp (chunkedUpload env cfg id blob path signal)
     (λ _ st', J st') (λ _ _, False) st.
Proof.
  intros Hcs HJ. unfold chunkedUpload, totalChunks. apply wp_try_catch.
  rewrite bool_decide_eq_false_2 by done.
  apply wp_bind. eapply wp_mono; [by apply simulate_inv| |].
  - intros [] st1 HJ1. apply wp_bind, wp_await; [|done]. intros st2 HJ2.
    apply wp_bind. destruct (env_upload env) as [e|].
    + by apply wp_throw, wp_ret.
    + by apply wp_ret, wp_ret.
  - intros e st1 HJ1. by apply wp_ret.
Qed.

(** The [try] block: when it throws, [J] still holds; when it returns,
    the result is a success and the upload is out of both tables. *)
Lemma uploadVideo_try_inv cfg c blob name hints st :
  chunkSize cfg ≠ 0 → J st →
  wp (uploadVideo_try env cfg id c blob name hints)
     (λ r st', success r = true ∧ r_uploadId r = id
               ∧ activeUploads st' !! id = None
               ∧ progressCallbacks st' !! id = None)
     (λ _ st', J st') st.
Proof.
  intros Hcs HJ. unfold uploadVideo_try.
  apply wp_bind, wp_update; [|done]. intros st1 HJ1.
  apply wp_bind, wp_await; [|done]. intros st2 HJ2.
  apply wp_bind.
  destruct (env_auth env) as [u| |e]; [|by apply wp_throw..].
  apply wp_ret.
  apply wp_bind, wp_update; [|done]. intros st3 HJ3.
  apply wp_bind.
  eapply wp_mono with (QT := λ _ _, False);
    [destruct (selectStrategy cfg blob);
     [by apply directUpload_inv|by apply chunkedUpload_inv]| |done].
  intros uploadResult st4 HJ4. simpl in HJ4.
  destruct (s_success uploadResult); simpl; [|by apply wp_throw].
  apply wp_bind, wp_update; [|done]. intros st5 HJ5.
  apply wp_bind. unfold storeVideoMetadata.
  apply wp_bind, wp_await; [|done]. intros st6 HJ6.
  destruct (env_insert env) as [e|]; [by apply wp_throw|].
  apply wp_ret, wp_bind, wp_update; [|done]. intros st7 HJ7.
  apply wp_bind, wp_act, wp_ret. simpl.
  by rewrite !lookup_delete_eq.
Qed.
End invariant.

(** *** Runs that nobody cancels *)

Lemma bind_act {B} f (k : unit → M B) st : (act f ≫= k) st = k tt (f st).
Proof. done. Qed.

Lemma bind_read {A B} (f : state → A) (k : A → M B) st :
  (read f ≫= k) st = k (f st) st.
Proof. done. Qed.

Lemma bind_ret {A B} (a : A) (k : A → M B) st : (mret a ≫= k) st = k a st.
Proof. done. Qed.

Lemma bind_assoc_at {A B} (m : M A) (k : A → M B) st st1 a :
  m st = (st1, Ok a) → (m ≫= k) st = k a st1.
Proof. intros H. unfold mbind, M_bind. by rewrite H. Qed.

Section quiet.
Context (env : Env) (cb : callback).
Hypothesis quiet : ∀ p, env_cancel env p = false.
Let id := env_uploadId env.

Lemma bind_await {B} p (k : unit → M B) st : (await env p ≫= k) st = k tt st.
Proof. unfold await. by rewrite bind_act, quiet. Qed.

Lemma bind_update {B} updates (k : unit → M B) st :
  progressCallbacks st !! id = Some cb →
  (act (updateProgress id updates) ≫= k) st
  = k tt (deliver cb (mergeProgress id updates) st).
Proof. intros H. by rewrite bind_act, (updateProgress_registered _ _ _ cb). Qed.

Lemma simulate_quiet signal totalSize startTime chunks i uploaded st :
  progressCallbacks st !! id = Some cb →
  signal_aborted signal st = false →
  simulate env id signal totalSize startTime chunks i uploaded st
  = (deliver_all cb (loop_events env id totalSize startTime chunks i uploaded) st,
     Ok tt).
Proof.
  revert i uploaded st.
  induction chunks as [|chunk rest IH]; intros i uploaded st Hcb Hsig.
  { unfold deliver_all. simpl. rewrite app_nil_r. by destruct st. }
  cbn [simulate loop_events].
  rewrite bind_read, Hsig, bind_await, bind_update by done.
  rewrite IH by done.
  unfold deliver_all, deliver. simpl. by rewrite <-app_assoc.
Qed.
End quiet.

(** *** The sizes the loop adds up *)

Lemma blob_size_nonneg b : 0 ≤ blob_size b.
Proof. unfold blob_size. lia. Qed.

Lemma slice_chunk_size blob cs i :
  0 < cs →
  blob_size (slice_chunk blob cs i)
  = Z.max 0 (Z.min cs (blob_size blob - Z.of_nat i * cs)).
Proof.
  intros Hcs. unfold slice_chunk, blob_slice, blob_size. simpl.
  rewrite length_take, length_drop. lia.
Qed.

Lemma pct_mono totalSize a b : 0 < totalSize → a ≤ b →
  (pct totalSize a ≤ pct totalSize b)%Qc.
Proof.
  intros Ht Hab. unfold pct, Qcdiv.
  apply Qcmult_le_compat_r; [apply Qcmult_le_compat_r|].
  - by rewrite <-Z2Qc_inj_le.
  - apply Qclt_le_weak, Qcinv_pos. rewrite <-Z2Qc_inj_0. by rewrite <-Z2Qc_inj_lt.
  - rewrite <-Z2Qc_inj_0. by rewrite <-Z2Qc_inj_le.
Qed.

Lemma pct_full totalSize : 0 < totalSize → pct totalSize totalSize = Qc_of_Z 100.
Proof.
  intros Ht. unfold pct, Qcdiv. rewrite Qcmult_inv_r, Qcmult_1_l; [done|].
  rewrite <-Z2Qc_inj_0. intros ?%Z2Qc_inj. lia.
Qed.

Lemma loop_events_percentages env id totalSize startTime chunks i uploaded :
  0 < totalSize →
  StronglySorted Qcle
    (percentage <$> loop_events env id totalSize startTime chunks i uploaded)
  ∧ Forall (λ p, pct totalSize uploaded ≤ p)%Qc
      (percentage <$> loop_events env id totalSize startTime chunks i uploaded).
Proof.
  intros Ht. revert i uploaded.
  induction chunks as [|chunk rest IH]; intros i uploaded.
  { split; constructor. }
  cbn [loop_events]. rewrite fmap_cons.
  destruct (IH (S i) (uploaded + blob_size chunk)) as [Hs Hf].
  pose proof (blob_size_nonneg chunk).
  assert (pct totalSize uploaded ≤ pct totalSize (uploaded + blob_size chunk))%Qc
    as Hstep by (apply pct_mono; lia).
  split.
  - constructor; [done|]. exact Hf.
  - constructor; [exact Hstep|].
    eapply Forall_impl; [exact Hf|]. intros p Hp. by etrans.
Qed.

Lemma loop_events_length env id totalSize startTime chunks i uploaded :
  length (loop_events env id totalSize startTime chunks i uploaded)
  = length chunks.
Proof.
  revert i uploaded. induction chunks as [|c r IH]; intros; simpl; by rewrite ?IH.
Qed.

(** After the turns [i .. i+m-1] over the slices, the running total is
    [min ((i+m) * cs) size]. *)
Lemma loop_events_last env id blob cs startTime m i :
  0 < cs → (0 < m)%nat →
  percentage <$>
    last (loop_events env id (blob_size blob) startTime
            (slice_chunk blob cs <$> seq i m) i
            (Z.min (Z.of_nat i * cs) (blob_size blob)))
  = Some (pct (blob_size blob)
            (Z.min (Z.of_nat (i + m) * cs) (blob_size blob))).
Proof.
  intros Hcs. revert i. induction m as [|m IH]; intros i Hm; [lia|].
  cbn [seq fmap list_fmap loop_events].
  assert (Z.min (Z.of_nat i * cs) (blob_size blob)
          + blob_size (slice_chunk blob cs i)
          = Z.min (Z.of_nat (S i) * cs) (blob_size blob)) as Hstep.
  { rewrite slice_chunk_size, Nat2Z.inj_succ, Z.mul_succ_l by done.
    generalize (Z.of_nat i * cs) (blob_size blob). lia. }
  rewrite Hstep.
  destruct m as [|m].
  - replace (i + 1)%nat with (S i) by lia. done.
  - rewrite last_cons.
    change (list_fmap nat Blob (slice_chunk blob cs) (seq (S i) (S m)))
      with (slice_chunk blob cs <$> seq (S i) (S m)).
    specialize (IH (S i) ltac:(lia)).
    replace (i + S (S m))%nat with (S i + S m)%nat by lia.
    destruct (last _) as [ev|] eqn:Hlast; [|done].
    by rewrite IH.
Qed.

Lemma ceil_div_covers a b : 0 < b → 0 < a →
  0 < ceil_div a b ∧ a ≤ ceil_div a b * b.
Proof.
  intros Hb Ha. unfold ceil_div.
  pose proof (Z.div_mod (- a) b ltac:(lia)) as Hdm.
  pose proof (Z.mod_pos_bound (- a) b Hb) as Hmod. nia.
Qed.

(** *** Successful runs *)

Section success.
Context (env : Env) (cb : callback) (user : string).
Hypothesis quiet : ∀ p, env_cancel env p = false.
Hypothesis auth_ok : env_auth env = AuthUser user.
Hypothesis upload_ok : env_upload env = None.
Hypothesis insert_ok : env_insert env = None.
Let id := env_uploadId env.

Lemma directUpload_quiet blob path signal st :
  progressCallbacks st !! id = Some cb →
  directUpload env id blob path signal st
  = (deliver cb (mergeProgress id (direct_update env blob (env_startTime env))) st,
     Ok (mkStrategyResult true None)).
Proof.
  intros Hcb. unfold directUpload, try_catch.
  rewrite (bind_await env quiet), upload_ok, bind_ret.
  by rewrite (bind_update env cb).
Qed.

Lemma chunkedUpload_quiet cfg blob path signal st n :
  progressCallbacks st !! id = Some cb →
  signal_aborted signal st = false →
  totalChunks (blob_size blob) (chunkSize cfg) = Some n →
  chunkedUpload env cfg id blob path signal st
  = (deliver_all cb
       (loop_events env id (blob_size blob) (env_startTime env)
          (slice_chunk blob (chunkSize cfg) <$> seq 0 n) 0 0) st,
     Ok (mkStrategyResult true None)).
Proof.
  intros Hcb Hsig Hn. unfold chunkedUpload, try_catch. rewrite Hn.
  erewrite bind_assoc_at; [|by apply (simulate_quiet env cb quiet)].
  by rewrite (bind_await env quiet), upload_ok, bind_ret.
Qed.

(** The events of the strategy, given as a list, frame the run. *)
Lemma uploadVideo_try_quiet cfg c blob name hints st1 events :
  progressCallbacks st1 !! id = Some cb →
  (∀ path st2,
     progressCallbacks st2 !! id = Some cb →
     signal_aborted c st2 = signal_aborted c st1 →
     match selectStrategy cfg blob with
     | Chunked => chunkedUpload env cfg id blob path c
     | Direct => directUpload env id blob path c
     end st2 = (deliver_all cb events st2, Ok (mkStrategyResult true None))) →
  ∃ st' result,
    uploadVideo_try env cfg id c blob name hints st1 = (st', Ok result)
    ∧ success result = true
    ∧ calls st'
      = calls st1 ++
          ((cb,.) <$> [pending_event id blob; status_event id Uploading]
                      ++ events
                      ++ [status_event id Processing; completed_event id]).
Proof.
  intros Hcb Hstrategy. unfold uploadVideo_try.
  rewrite (bind_update env cb) by done.
  rewrite (bind_await env quiet), auth_ok, bind_ret.
  rewrite (bind_update env cb) by done.
  erewrite bind_assoc_at; [|by apply Hstrategy].
  cbn [s_success negb].
  rewrite (bind_update env cb) by done.
  unfold storeVideoMetadata.
  erewrite bind_assoc_at;
    [|by rewrite (bind_await env quiet), insert_ok].
  rewrite (bind_update env cb) by done.
  rewrite bind_act. do 2 eexists. split; [reflexivity|].
  split; [done|]. simpl.
  rewrite !fmap_app, <-!app_assoc. done.
Qed.

Lemma uploadVideo_quiet blob name hints st events :
  let c := length (controllers st) in
  let st1 := set_progressCallback id cb
               (set_activeUpload id c (new_AbortController st).2) in
  (∀ path st2,
     progressCallbacks st2 !! id = Some cb →
     signal_aborted c st2 = signal_aborted c st1 →
     match selectStrategy (config st) blob with
     | Chunked => chunkedUpload env (config st) id blob path c
     | Direct => directUpload env id blob path c
     end st2 = (deliver_all cb events st2, Ok (mkStrategyResult true None))) →
  (success <$> (uploadVideo env blob name hints (Some cb) st).2) = Some true
  ∧ calls (uploadVideo env blob name hints (Some cb) st).1
    = calls st ++
        ((cb,.) <$> [pending_event id blob; status_event id Uploading]
                    ++ events
                    ++ [status_event id Processing; completed_event id]).
Proof.
  intros c st1 Hstrategy.
  destruct (uploadVideo_try_quiet (config st) c blob name hints st1 events)
    as (st' & result & Htry & Hok & Hcalls);
    [apply lookup_insert_eq|done|].
  unfold uploadVideo. fold id. cbn [new_AbortController].
  set (t := uploadVideo_try _ _ _ _ _ _ _ _).
  assert (t = (st', Ok result)) as -> by exact Htry.
  simpl. by rewrite Hok.
Qed.
End success.

(** C2, as stated, fails: a two-byte upload with one-byte chunks goes the
    direct way and the callback is called five times. *)
Lemma direct_upload_five_events :
  selectStrategy small_chunks (bytes 2) = Direct
  ∧ length (calls (uploadVideo plain_env (bytes 2) "clip.webm" no_hints
                     (Some 7%nat) (new small_chunks)).1) = 5%nat.
Proof. by vm_compute. Qed.

(** C2 (amended): a blob of at most twice the chunk size goes the direct
    way, and a successful upload that nobody cancels delivers five
    events: the [pending] one at 0%% with the size of the blob as total,
    the [uploading] one, the report of [directUpload] at 100%% with all
    bytes uploaded, the [processing] one, and the [completed] one at
    100%%.  What an event shows in a field that its update does not
    supply is not stated. *)
Theorem direct_upload_events :
  ∀ env blob name hints cb st,
    blob_size blob ≤ chunkSize (config st) * 2 →
    selectStrategy (config st) blob = Direct
    ∧ (∀ user,
         env_auth env = AuthUser user → env_upload env = None →
         env_insert env = None → (∀ p, env_cancel env p = false) →
         ∃ e1 e2 e3 e4 e5,
           (success <$> (uploadVideo env blob name hints (Some cb) st).2)
             = Some true
           ∧ calls (uploadVideo env blob name hints (Some cb) st).1
             = calls st ++ [(cb, e1); (cb, e2); (cb, e3); (cb, e4); (cb, e5)]
           ∧ (status e1 = Pending ∧ percentage e1 = 0%Qc
              ∧ bytesUploaded e1 = 0 ∧ totalBytes e1 = blob_size blob)
           ∧ status e2 = Uploading
           ∧ (percentage e3 = Qc_of_Z 100 ∧ bytesUploaded e3 = blob_size blob)
           ∧ status e4 = Processing
           ∧ (status e5 = Completed ∧ percentage e5 = Qc_of_Z 100)).
Proof.
  intros env blob name hints cb st Hsize.
  assert (selectStrategy (config st) blob = Direct) as Hdirect.
  { unfold selectStrategy. rewrite bool_decide_eq_false_2; [done|lia]. }
  split; [done|].
  intros user Hauth Hupload Hinsert Hquiet.
  destruct (uploadVideo_quiet env cb user Hquiet Hauth Hinsert blob name
              hints st
              [mergeProgress (env_uploadId env)
                 (direct_update env blob (env_startTime env))])
    as [Hok Hcalls].
  { intros path st2 Hcb _. rewrite Hdirect.
    by rewrite (directUpload_quiet env cb Hquiet Hupload). }
  do 5 eexists. split; [exact Hok|]. split; [exact Hcalls|]. done.
Qed.

Lemma direct_upload_events_witness :
  selectStrategy small_chunks (bytes 2) = Direct
  ∧ (success <$> (uploadVideo plain_env (bytes 2) "clip.webm" no_hints
                    (Some 7%nat) (new small_chunks)).2) = Some true.
Proof.
  destruct (direct_upload_events plain_env (bytes 2) "clip.webm" no_hints
              7%nat (new small_chunks)) as [Hdirect Hrun].
  - by vm_compute.
  - split; [exact Hdirect|].
    destruct (Hrun "u"%string eq_refl eq_refl eq_refl (λ _, eq_refl))
      as (e1 & e2 & e3 & e4 & e5 & Hok & _).
    exact Hok.
Defined.

(** C3: a three-byte upload with one-byte chunks goes the chunked way.
    The loop reports a third, two thirds and then 100%%; the
    [processing] event that follows is built from the defaults, the
    progress reached being kept nowhere, and shows 0%%: the percentages
    delivered over the whole upload are not non-decreasing. *)
Theorem chunked_upload_not_monotone :
  selectStrategy small_chunks (bytes 3) = Chunked
  ∧ percentage <$>
      (calls (uploadVideo plain_env (bytes 3) "clip.webm" no_hints
                (Some 7%nat) (new small_chunks)).1).*2
    = [0%Qc; 0%Qc; Q2Qc (100 # 3); Q2Qc (200 # 3); Qc_of_Z 100;
       0%Qc; Qc_of_Z 100]
  ∧ ¬ StronglySorted Qcle
        (percentage <$>
           (calls (uploadVideo plain_env (bytes 3) "clip.webm" no_hints
                     (Some 7%nat) (new small_chunks)).1).*2).
Proof.
  split; [by vm_compute|]. split.
  - apply (bool_decide_unpack _). by vm_compute.
  - apply (bool_decide_eq_false_1 _). by vm_compute.
Qed.

(** What a successful chunked upload that nobody cancels delivers: a
    blob of more than twice the (positive) chunk size goes the chunked
    way; the percentages the simulation loop reports, one per chunk, are
    non-decreasing and end at 100; the [pending] and [uploading] events
    come before them, the [processing] and [completed] events after
    them. *)
Lemma chunked_upload_events :
  ∀ env blob name hints cb st,
    0 < chunkSize (config st) →
    blob_size blob > chunkSize (config st) * 2 →
    selectStrategy (config st) blob = Chunked
    ∧ (∀ user,
         env_auth env = AuthUser user → env_upload env = None →
         env_insert env = None → (∀ p, env_cancel env p = false) →
         ∃ loop,
           (success <$> (uploadVideo env blob name hints (Some cb) st).2)
             = Some true
           ∧ calls (uploadVideo env blob name hints (Some cb) st).1
             = calls st ++
               ((cb,.) <$> [pending_event (env_uploadId env) blob;
                            status_event (env_uploadId env) Uploading]
                           ++ loop
                           ++ [status_event (env_uploadId env) Processing;
                               completed_event (env_uploadId env)])
           ∧ Z.of_nat (length loop)
             = ceil_div (blob_size blob) (chunkSize (config st))
           ∧ StronglySorted Qcle (percentage <$> loop)
           ∧ percentage <$> last loop = Some (Qc_of_Z 100)).
Proof.
  intros env blob name hints cb st Hcs Hsize.
  assert (selectStrategy (config st) blob = Chunked) as Hchunked.
  { unfold selectStrategy. rewrite bool_decide_eq_true_2; [done|lia]. }
  split; [done|].
  intros user Hauth Hupload Hinsert Hquiet.
  destruct (ceil_div_covers (blob_size blob) (chunkSize (config st)))
    as [Hn Hcover]; [lia..|].
  set (n := Z.to_nat (ceil_div (blob_size blob) (chunkSize (config st)))).
  assert (totalChunks (blob_size blob) (chunkSize (config st)) = Some n) as Htot.
  { unfold totalChunks. rewrite bool_decide_eq_false_2; [done|lia]. }
  exists (loop_events env (env_uploadId env) (blob_size blob) (env_startTime env)
            (slice_chunk blob (chunkSize (config st)) <$> seq 0 n) 0 0).
  destruct (uploadVideo_quiet env cb user Hquiet Hauth Hinsert blob name
              hints st
              (loop_events env (env_uploadId env) (blob_size blob)
                 (env_startTime env)
                 (slice_chunk blob (chunkSize (config st)) <$> seq 0 n) 0 0))
    as [Hok Hcalls].
  { intros path st2 Hcb Hsig. rewrite Hchunked.
    apply (chunkedUpload_quiet env cb Hquiet Hupload); [done| |done].
    rewrite Hsig. unfold signal_aborted. simpl.
    by rewrite lookup_app_r, Nat.sub_diag. }
  split_and!; [done|done| | |].
  - rewrite loop_events_length, length_fmap, length_seq. unfold n. lia.
  - apply loop_events_percentages. lia.
  - pose proof (loop_events_last env (env_uploadId env) blob
                  (chunkSize (config st)) (env_startTime env) n 0 Hcs) as Hlast.
    rewrite Z.mul_0_l, Z.min_l in Hlast by apply blob_size_nonneg.
    rewrite Hlast by (unfold n; lia).
    rewrite Z.min_r by (unfold n; lia).
    f_equal. apply pct_full. lia.
Qed.

Lemma chunked_upload_events_witness :
  selectStrategy small_chunks (bytes 3) = Chunked
  ∧ (success <$> (uploadVideo plain_env (bytes 3) "clip.webm" no_hints
                    (Some 7%nat) (new small_chunks)).2) = Some true.
Proof.
  destruct (chunked_upload_events plain_env (bytes 3) "clip.webm" no_hints
              7%nat (new small_chunks)) as [Hchunked Hrun].
  - by vm_compute.
  - by vm_compute.
  - split; [exact Hchunked|].
    destruct (Hrun "u"%string eq_refl eq_refl eq_refl (λ _, eq_refl))
      as (loop & Hok & _).
    exact Hok.
Defined.

End VideoUploadServiceFacts.

(** ** More on [sanitizeFilename] *)

Module FilenameMore.
Import Filename FilenameFacts.

Lemma replace_fixed s : all_chars kept s = true → replace_disallowed s = s.
Proof.
  induction s as [|c rest IH]; [done|]. simpl. intros [Hc Hr]%andb_prop.
  rewrite IH by done. unfold kept in Hc.
  destruct (allowed c); [done|]. simpl in Hc.
  apply Ascii.eqb_eq in Hc. by subst c.
Qed.

Lemma collapse_fixed s :
  has_double_underscore s = false → collapse_underscores s = s.
Proof.
  induction s as [|c rest IH]; [done|].
  rewrite has_double_cons. intros [H1 H2]%orb_false_elim.
  cbn [collapse_underscores]. rewrite IH by done.
  destruct (is_underscore c); [|done].
  destruct rest as [|c' r]; [done|]. simpl in H1. by rewrite H1.
Qed.

Lemma drop_trailing_fixed s :
  ends_with_underscore s = false → drop_trailing_underscore s = s.
Proof.
  induction s as [|c rest IH]; [done|].
  rewrite ends_with_cons, drop_trailing_cons.
  destruct rest as [|c' r]; [by intros ->|]. intros H. by rewrite IH.
Qed.

Lemma trim_fixed s :
  starts_with_underscore s = false → ends_with_underscore s = false →
  trim_underscores s = s.
Proof.
  destruct s as [|c rest]; [done|]. unfold trim_underscores.
  intros Hs He. cbn [starts_with_underscore] in Hs. rewrite Hs.
  by apply drop_trailing_fixed.
Qed.

Lemma sanitize_facts s :
  has_double_underscore (sanitizeFilename s) = false
  ∧ starts_with_underscore (sanitizeFilename s) = false
  ∧ ends_with_underscore (sanitizeFilename s) = false
  ∧ all_chars kept (sanitizeFilename s) = true.
Proof.
  unfold sanitizeFilename.
  destruct (trim_shape (collapse_underscores (replace_disallowed s)))
    as (H1 & H2 & H3); [apply collapse_no_double|].
  split_and!; try done. apply trim_kept, collapse_kept, replace_kept.
Qed.

(** A sanitized name is a fixed point: sanitizing twice is sanitizing
    once. *)
Theorem sanitizeFilename_idempotent :
  ∀ filename,
    sanitizeFilename (sanitizeFilename filename) = sanitizeFilename filename.
Proof.
  intros filename.
  destruct (sanitize_facts filename) as (Hd & Hs & He & Hk).
  unfold sanitizeFilename at 1.
  by rewrite replace_fixed, collapse_fixed, trim_fixed.
Qed.

(** A name made of characters of [[A-Za-z0-9.-]] only comes back as it
    is. *)
Theorem sanitizeFilename_clean_unchanged :
  ∀ filename,
    all_chars allowed filename = true → sanitizeFilename filename = filename.
Proof.
  intros filename Hall.
  assert (all_chars kept filename = true ∧ has_double_underscore filename = false
          ∧ starts_with_underscore filename = false
          ∧ ends_with_underscore filename = false) as (Hk & Hd & Hs & He).
  { induction filename as [|c rest IH]; [done|].
    simpl in Hall. apply andb_prop in Hall as [Hc Hr].
    destruct (IH Hr) as (Hk & Hd & Hs & He).
    pose proof (allowed_not_underscore c Hc) as Hu.
    rewrite has_double_cons, ends_with_cons. simpl. unfold kept at 1.
    rewrite Hc, Hu, Hk, Hd. simpl. split_and!; try done.
    by destruct rest. }
  unfold sanitizeFilename. by rewrite replace_fixed, collapse_fixed, trim_fixed.
Qed.

Lemma sanitizeFilename_clean_witness :
  sanitizeFilename "clip-01.webm" = "clip-01.webm"%string.
Proof. apply sanitizeFilename_clean_unchanged. reflexivity. Defined.

Lemma filter_allowed_empty s :
  all_chars kept s = true → filter_chars allowed s = EmptyString →
  all_chars is_underscore s = true.
Proof.
  induction s as [|c rest IH]; [done|]. simpl. intros [Hc Hr]%andb_prop.
  unfold kept in Hc. destruct (allowed c); [done|]. simpl in Hc.
  intros Hf. by rewrite Hc, IH.
Qed.

(** The result is empty exactly when the name holds no character of
    [[A-Za-z0-9.-]]; and it is never longer than the name. *)
Theorem sanitizeFilename_empty_iff :
  ∀ filename,
    (sanitizeFilename filename = EmptyString
     ↔ filter_chars allowed filename = EmptyString)
    ∧ (String.length (sanitizeFilename filename) ≤ String.length filename)%nat.
Proof.
  intros filename. split; [split|].
  - intros Hempty.
    rewrite <-(replace_filter filename), <-(collapse_filter _), <-(trim_filter _).
    fold (sanitizeFilename filename). by rewrite Hempty.
  - intros Hf.
    destruct (sanitize_facts filename) as (Hd & Hs & He & Hk).
    assert (filter_chars allowed (sanitizeFilename filename) = EmptyString) as Hf'.
    { unfold sanitizeFilename.
      by rewrite trim_filter, collapse_filter, replace_filter. }
    pose proof (filter_allowed_empty _ Hk Hf') as Hus.
    destruct (sanitizeFilename filename) as [|c rest]; [done|].
    simpl in Hus, Hs. apply andb_prop in Hus as [Hc _]. congruence.
  - unfold sanitizeFilename.
    assert (∀ s, (String.length (drop_trailing_underscore s) ≤ String.length s)%nat)
      as Hdrop.
    { induction s as [|c rest IH]; [done|]. rewrite drop_trailing_cons.
      destruct rest; [destruct (is_underscore c); simpl; lia|]. simpl in *. lia. }
    assert (∀ s, (String.length (trim_underscores s) ≤ String.length s)%nat)
      as Htrim.
    { intros [|c rest]; [done|]. unfold trim_underscores.
      destruct (is_underscore c); [|apply Hdrop].
      etrans; [apply Hdrop|]. simpl. lia. }
    assert (∀ s, (String.length (collapse_underscores s) ≤ String.length s)%nat)
      as Hcol.
    { induction s as [|c rest IH]; [done|]. cbn [collapse_underscores].
      destruct (is_underscore c); [destruct rest as [|c' r]|]; simpl in *;
        [lia| |lia].
      destruct (is_underscore c'); simpl in *; lia. }
    assert (∀ s, String.length (replace_disallowed s) = String.length s) as Hrep.
    { induction s as [|c rest IH]; [done|]. simpl. by rewrite IH. }
    etrans; [apply Htrim|]. etrans; [apply Hcol|]. by rewrite Hrep.
Qed.

End FilenameMore.

(** ** More on [VideoBuffer] *)

Module VideoBufferMore.
Import VideoBuffer VideoBufferFacts.

(** *** [addChunk] and the automatic flush *)

Lemma addChunk_store stack dbOk b db payload now :
  (addChunk stack dbOk b db payload now).1.2 = db
  ∧ chunks (addChunk stack dbOk b db payload now).1.1
    = chunks b ++ [mkChunk payload now (blob_size payload)
                     (seconds_of_ms (now - startTime b))]
  ∧ startTime (addChunk stack dbOk b db payload now).1.1 = startTime b
  ∧ recordingId (addChunk stack dbOk b db payload now).1.1 = recordingId b
  ∧ config (addChunk stack dbOk b db payload now).1.1 = config b
  ∧ (addChunk stack dbOk b db payload now).2
    = if autoFlush (config b) then Threw RangeError else Returned.
Proof.
  unfold addChunk. simpl. destruct (autoFlush (config b)); [|done].
  by rewrite (proj2 (getStats_isNearLimit_overflow _ _ _)).
Qed.

(** However the buffer is configured, [addChunk] never writes to the
    store: in a session of [addChunk] calls every chunk stays in memory.
    With [autoFlush] on, each call ends in [RangeError] after it has
    appended its chunk; with [autoFlush] off it returns. *)
Theorem addChunk_never_spills :
  ∀ stack cs s,
    only_adds cs →
    (session stack cs s).2 = s.2
    ∧ chunks (session stack cs s).1 = chunks s.1 ++ appended (startTime s.1) cs
    ∧ (∀ dbOk payload now,
         (addChunk stack dbOk s.1 s.2 payload now).2
         = if autoFlush (config s.1) then Threw RangeError else Returned).
Proof.
  intros stack cs s Hadds. split_and!.
  - revert s. induction Hadds as [|c cs Hc _ IH]; intros s; [done|].
    destruct c as [payload now dbOk|]; [|done].
    change (session stack (AddChunk payload now dbOk :: cs) s)
      with (session stack cs (do_call stack s (AddChunk payload now dbOk))).
    rewrite IH. simpl. apply addChunk_store.
  - revert s. induction Hadds as [|c cs Hc _ IH]; intros s.
    { simpl. by rewrite app_nil_r. }
    destruct c as [payload now dbOk|]; [|done].
    change (session stack (AddChunk payload now dbOk :: cs) s)
      with (session stack cs (do_call stack s (AddChunk payload now dbOk))).
    rewrite IH. cbn [do_call appended fst].
    destruct (addChunk_store stack dbOk s.1 s.2 payload now)
      as (_ & -> & -> & _).
    by rewrite <-app_assoc.
  - intros. apply addChunk_store.
Qed.

Lemma addChunk_never_spills_witness :
  (session 1000
     [AddChunk (mkBlob [Byte.x01] "video/webm") 5 true;
      AddChunk (mkBlob [Byte.x02] "video/webm") 6 true]
     (initialize (new "rec" noOverrides) 0, ∅)).2 = ∅.
Proof.
  refine (proj1 (addChunk_never_spills 1000 _ (_, ∅) _)).
  repeat constructor.
Defined.

(** [getRecordingSummary] starts with [getStats()] and so never returns
    a summary. *)
Theorem getRecordingSummary_never_returns :
  ∀ stack b now, getRecordingSummary stack b now = None.
Proof.
  intros. unfold getRecordingSummary.
  by rewrite (proj1 (getStats_isNearLimit_overflow _ _ _)).
Qed.

(** *** The sort *)

#[local] Instance by_timestamp_dec : RelDecision by_timestamp.
Proof. intros a b. unfold by_timestamp. apply _. Defined.

Lemma NoDup_fmap_eq {A B} (f : A → B) (l : list A) x y :
  NoDup (f <$> l) → x ∈ l → y ∈ l → f x = f y → x = y.
Proof.
  induction l as [|a l IH]; [by intros _ ?%elem_of_nil|].
  rewrite fmap_cons, NoDup_cons.
  intros [Hnin Hnd] [->|Hx]%elem_of_cons [->|Hy]%elem_of_cons Hf; auto.
  - destruct Hnin. rewrite Hf. by apply list_elem_of_fmap_2.
  - destruct Hnin. rewrite <-Hf. by apply list_elem_of_fmap_2.
Qed.

Lemma sorted_perm_eq l1 l2 :
  NoDup (timestamp <$> l1) →
  StronglySorted by_timestamp l1 → StronglySorted by_timestamp l2 →
  l1 ≡ₚ l2 → l1 = l2.
Proof.
  intros Hnd Hs1 Hs2 Hperm.
  apply (StronglySorted_unique_strong by_timestamp); [|done..].
  intros x1 x2 Hx1 Hx2 H12 H21.
  apply (NoDup_fmap_eq timestamp l1); [done|done|by rewrite Hperm|].
  unfold by_timestamp in *. lia.
Qed.

Lemma sort_by_timestamp_perm_eq l1 l2 :
  NoDup (timestamp <$> l1) → l1 ≡ₚ l2 →
  sort_by_timestamp l1 = sort_by_timestamp l2.
Proof.
  intros Hnd Hperm. apply sorted_perm_eq.
  - by rewrite sort_by_timestamp_perm.
  - apply sort_by_timestamp_sorted.
  - apply sort_by_timestamp_sorted.
  - by rewrite !sort_by_timestamp_perm.
Qed.

(** The sort is stable: a list already in ascending order, ties
    included, comes back as it is. *)
Lemma sort_by_timestamp_sorted_id l :
  StronglySorted by_timestamp l → sort_by_timestamp l = l.
Proof.
  induction 1 as [|c l Hs IH Hc]; [done|].
  simpl. rewrite IH. destruct l as [|d l']; [done|]. simpl.
  apply Forall_cons in Hc as [Hcd _]. by rewrite bool_decide_eq_true_2.
Qed.

(** With no record of the recording in the store and the chunks in
    memory in ascending order of timestamp, equal timestamps allowed,
    [getAllChunks()] returns the chunks in memory, in their order. *)
Theorem getAllChunks_memory_only :
  ∀ b db,
    no_records_of (recordingId b) db →
    StronglySorted by_timestamp (chunks b) →
    getAllChunks true b db = chunks b.
Proof.
  intros b db Hno Hs. unfold getAllChunks.
  assert (index_getAll (recordingId b) db = []) as ->.
  { apply elem_of_nil_inv. intros d (k & Hk & Hrid)%elem_of_index_getAll.
    by destruct (Hno k d Hk). }
  by apply sort_by_timestamp_sorted_id.
Qed.

Lemma getAllChunks_memory_only_witness :
  getAllChunks true
    (session 0 [AddChunk (mkBlob [Byte.x01] "video/webm") 5 true;
                AddChunk (mkBlob [Byte.x02] "video/webm") 5 true]
       (initialize (new "rec" manual_flush) 0, ∅)).1 ∅
  = appended 0 [AddChunk (mkBlob [Byte.x01] "video/webm") 5 true;
                AddChunk (mkBlob [Byte.x02] "video/webm") 5 true].
Proof.
  apply getAllChunks_memory_only.
  - intros k d Hk. by rewrite lookup_empty in Hk.
  - apply (bool_decide_unpack _). by vm_compute.
Defined.

(** *** Flushing and reading back *)

(** A flush, whether it succeeds or fails, does not change what
    [getAllChunks()] and [createCompleteFinalBlob()] return, as long as
    the timestamps of the persisted and in-memory chunks are pairwise
    distinct. *)
Theorem flush_keeps_getAllChunks :
  ∀ dbOk b db mimeType,
    keyed_by_timestamp (recordingId b) db →
    NoDup (timestamp <$> all_of (b, db)) →
    getAllChunks true (flushToIndexedDB dbOk b db).1.1
                      (flushToIndexedDB dbOk b db).1.2
    = getAllChunks true b db
    ∧ createCompleteFinalBlob true (flushToIndexedDB dbOk b db).1.1
        (flushToIndexedDB dbOk b db).1.2 mimeType
      = createCompleteFinalBlob true b db mimeType.
Proof.
  intros dbOk b db mimeType Hkeyed Hnd.
  destruct (flushToIndexedDB_all dbOk b db Hkeyed Hnd) as [_ Hperm].
  assert (getAllChunks true (flushToIndexedDB dbOk b db).1.1
            (flushToIndexedDB dbOk b db).1.2 = getAllChunks true b db) as Heq.
  { unfold getAllChunks.
    change (sort_by_timestamp (all_of (flushToIndexedDB dbOk b db).1)
            = sort_by_timestamp (all_of (b, db))).
    symmetry. by apply sort_by_timestamp_perm_eq. }
  split; [done|]. unfold createCompleteFinalBlob. by rewrite Heq.
Qed.

Lemma flush_keeps_getAllChunks_witness :
  let b := (session 0 [AddChunk (mkBlob [Byte.x01] "video/webm") 5 true;
                       AddChunk (mkBlob [Byte.x02] "video/webm") 7 true]
              (initialize (new "rec" manual_flush) 0, ∅)).1 in
  getAllChunks true (flushToIndexedDB true b ∅).1.1 (flushToIndexedDB true b ∅).1.2
  = getAllChunks true b ∅.
Proof.
  intros b.
  refine (proj1 (flush_keeps_getAllChunks true b ∅ None _ _)).
  - intros k d Hk. by rewrite lookup_empty in Hk.
  - apply (bool_decide_unpack _). by vm_compute.
Defined.

(** *** The final blob *)

Lemma strictly_sorted_NoDup (l : list Z) : StronglySorted Z.lt l → NoDup l.
Proof.
  induction 1 as [|x l Hs IH Hx]; constructor; [|done].
  intros Hin. rewrite Forall_forall in Hx. specialize (Hx x Hin). lia.
Qed.

Lemma appended_sorted start cs :
  StronglySorted Z.lt (add_times cs) →
  StronglySorted by_timestamp (appended start cs).
Proof.
  rewrite <-(appended_timestamps start).
  induction (appended start cs) as [|c l IH]; [constructor|].
  rewrite fmap_cons. intros [Hs Hc]%StronglySorted_inv.
  constructor; [by apply IH|].
  rewrite Forall_fmap in Hc. eapply Forall_impl; [exact Hc|].
  intros d Hd. unfold by_timestamp. simpl in Hd. lia.
Qed.

(** When every call is awaited before the next one is made, the clock
    readings of the [addChunk] calls increase strictly and the store
    held no record of the recording at [initialize()], [getAllChunks()]
    resolves to the appended chunks in the order of their arrival and
    [createCompleteFinalBlob()] to the concatenation of the payloads in
    that order, whatever flushes came in between.  Its media type is the
    requested one as the [Blob] constructor keeps it: in lower case, and
    empty when it holds a code outside U+0020 to U+007E; it is
    ['video/webm'] when none is requested. *)
Theorem createCompleteFinalBlob_in_order :
  ∀ stack rid cfg t0 db0 cs mimeType,
    no_records_of rid db0 →
    StronglySorted Z.lt (add_times cs) →
    let w := awaited stack cs (start (initialize (new rid cfg) t0) db0) in
    awaited_getAllChunks true w = Some (appended t0 cs)
    ∧ ∃ final,
        awaited_createCompleteFinalBlob true w mimeType = Some final
        ∧ blob_data final = mjoin (blob_data <$> (blob <$> appended t0 cs))
        ∧ blob_type final
          = normalize_type (default "video/webm"%string mimeType)
        ∧ (mimeType = None → blob_type final = "video/webm"%string).
Proof.
  intros stack rid cfg t0 db0 cs mimeType Hno Hsorted w.
  pose proof (strictly_sorted_NoDup _ Hsorted) as Hnd.
  pose proof (session_getAllChunks stack rid cfg t0 db0 cs Hno Hnd) as Hperm.
  cbn zeta in Hperm.
  assert (awaited_getAllChunks true w = Some (appended t0 cs)) as Heq.
  { unfold w. rewrite awaited_then_getAllChunks. f_equal.
    apply sorted_perm_eq.
    - by rewrite Hperm, appended_timestamps.
    - apply sort_by_timestamp_sorted.
    - by apply appended_sorted.
    - done. }
  split; [done|]. unfold awaited_createCompleteFinalBlob. rewrite Heq.
  eexists. split; [done|]. split_and!; [done|done|by intros ->].
Qed.

Lemma createCompleteFinalBlob_in_order_witness :
  ∃ final,
    awaited_createCompleteFinalBlob true
      (awaited 0 [AddChunk (mkBlob [Byte.x01] "video/webm") 5 true; Flush true;
                  AddChunk (mkBlob [Byte.x02] "video/webm") 7 true]
         (start (initialize (new "rec" manual_flush) 0) ∅))
      (Some "Video/MP4"%string) = Some final
    ∧ blob_data final = [Byte.x01; Byte.x02]
    ∧ blob_type final = "video/mp4"%string.
Proof.
  destruct (createCompleteFinalBlob_in_order 0 "rec" manual_flush 0 ∅
              [AddChunk (mkBlob [Byte.x01] "video/webm") 5 true; Flush true;
               AddChunk (mkBlob [Byte.x02] "video/webm") 7 true]
              (Some "Video/MP4"%string))
    as (_ & final & Hfinal & Hdata & Htype & _).
  - intros k d Hk. by rewrite lookup_empty in Hk.
  - apply (bool_decide_unpack _). by vm_compute.
  - exists final. split; [exact Hfinal|]. split; [exact Hdata|exact Htype].
Defined.

Lemma blob_size_of_parts parts type :
  blob_size (Blob_of_parts parts type) = foldr (λ p acc, blob_size p + acc) 0 parts.
Proof.
  unfold blob_size. simpl. induction parts as [|p parts IH]; [done|].
  csimpl. rewrite length_app. lia.
Qed.

Lemma do_call_sizes_agree stack s c :
  sizes_agree (chunks s.1) → sizes_agree (chunks (do_call stack s c).1).
Proof.
  destruct s as [b db]. unfold sizes_agree. intros Hagree.
  assert (∀ dbOk b', Forall (λ c, size c = blob_size (blob c)) (chunks b') →
            Forall (λ c, size c = blob_size (blob c))
              (chunks (flushToIndexedDB dbOk b' db).1.1)) as Hflush.
  { intros dbOk b' H. unfold flushToIndexedDB.
    case_bool_decide; [done|]. by destruct dbOk. }
  destruct c as [payload now dbOk|dbOk]; simpl; [|by apply Hflush].
  unfold addChunk.
  set (b1 := mkBuffer _ _ _ _).
  assert (Forall (λ c, size c = blob_size (blob c)) (chunks b1)) as H1.
  { simpl. apply Forall_app. split; [done|]. by repeat constructor. }
  destruct (autoFlush (config b1)); [|done].
  destruct (isNearLimit stack b1 now) as [[|]|]; [|done..].
  specialize (Hflush dbOk b1 H1).
  by destruct (flushToIndexedDB dbOk b1 db) as [[b2 db2] o].
Qed.

Lemma session_sizes_agree stack cs s0 :
  sizes_agree (chunks s0.1) → sizes_agree (chunks (session stack cs s0).1).
Proof.
  revert s0. induction cs as [|c cs IH]; intros s0 H0; [done|].
  apply (IH (do_call stack s0 c)). by apply do_call_sizes_agree.
Qed.

(** For a buffer reached from [initialize()] by [addChunk] and flush
    calls, the size of [createFinalBlob()] is the sum of the [size]
    fields of the chunks in memory, the total that [getStats()] adds up:
    it leaves out what was flushed, and right after a successful flush
    the blob is empty. *)
Theorem createFinalBlob_size :
  ∀ stack cs b0 now0 db0 mimeType,
    let s := session stack cs (initialize b0 now0, db0) in
    blob_size (createFinalBlob s.1 mimeType) = sum_sizes (chunks s.1)
    ∧ blob_data (createFinalBlob (flushToIndexedDB true s.1 s.2).1.1 mimeType)
      = [].
Proof.
  intros stack cs b0 now0 db0 mimeType s. split.
  - assert (sizes_agree (chunks s.1)) as Hagree.
    { apply session_sizes_agree. constructor. }
    unfold createFinalBlob. rewrite blob_size_of_parts.
    unfold sum_sizes. induction Hagree as [|c l Hc _ IH]; [done|].
    csimpl. by rewrite Hc, IH.
  - destruct (flushToIndexedDB_ok s.1 s.2) as [Hmem _].
    unfold createFinalBlob. by rewrite Hmem.
Qed.

(** *** [clear] *)

Lemma elem_of_index_getAllKeys rid db k :
  k ∈ index_getAllKeys rid db
  ↔ ∃ d, db !! k = Some d ∧ rec_recordingId d = rid.
Proof.
  unfold index_getAllKeys. rewrite merge_sort_Permutation, list_elem_of_fmap.
  split.
  - intros ([k' d] & -> & Hin). apply elem_of_map_to_list in Hin.
    apply map_lookup_filter_Some in Hin as [? ?]. by exists d.
  - intros (d & Hk & Hrid). exists (k, d). split; [done|].
    apply elem_of_map_to_list, map_lookup_filter_Some. by split.
Qed.

Lemma fold_delete_lookup (keys : list string) (db : Store) k :
  fold_left (λ db key, delete key db) keys db !! k
  = if decide (k ∈ keys) then None else db !! k.
Proof.
  revert db. induction keys as [|key keys IH]; intros db; cbn [fold_left].
  { destruct (decide (k ∈ [])) as [H|]; [by apply elem_of_nil in H|done]. }
  rewrite IH. destruct (decide (k = key)) as [->|Hne].
  - rewrite lookup_delete_eq.
    destruct (decide (key ∈ key :: keys)) as [_|Hn]; [by case_decide|].
    destruct Hn. by left.
  - rewrite lookup_delete_ne by done.
    destruct (decide (k ∈ keys)) as [Hin|Hnin];
      destruct (decide (k ∈ key :: keys)) as [Hin'|Hnin']; try done.
    + destruct Hnin'. by right.
    + by apply elem_of_cons in Hin' as [?|?].
Qed.

(** [clear()] empties the memory and removes from the store the records
    of this recording and no other record, so [getAllChunks()] is empty
    afterwards; when the store cannot be opened only the memory is
    emptied and the store keeps what it has. *)
Theorem clear_purges_recording :
  ∀ b db,
    chunks (clear true b db).1 = []
    ∧ (clear true b db).2
      = filter (λ kv, rec_recordingId kv.2 ≠ recordingId b) db
    ∧ getAllChunks true (clear true b db).1 (clear true b db).2 = []
    ∧ chunks (clear false b db).1 = []
    ∧ (clear false b db).2 = db.
Proof.
  intros b db.
  assert ((clear true b db).2
          = filter (λ kv, rec_recordingId kv.2 ≠ recordingId b) db) as Hdb.
  { apply map_eq. intros k. simpl. rewrite fold_delete_lookup.
    destruct (db !! k) as [d|] eqn:Hk.
    - destruct (decide (rec_recordingId d = recordingId b)) as [Hrid|Hrid].
      + rewrite decide_True by (apply elem_of_index_getAllKeys; eauto).
        symmetry. apply map_lookup_filter_None. right. intros d' Hd'.
        simpl. congruence.
      + rewrite decide_False.
        * symmetry. by apply map_lookup_filter_Some.
        * intros (d' & Hd' & Hrid')%elem_of_index_getAllKeys. congruence.
    - case_decide; symmetry; apply map_lookup_filter_None; by left. }
  split_and!; try done.
  unfold getAllChunks. rewrite Hdb. simpl.
  assert (index_getAll (recordingId b)
            (filter (λ kv, rec_recordingId kv.2 ≠ recordingId b) db) = []) as ->;
    [|done].
  apply elem_of_nil_inv. intros d (k & Hk & Hrid)%elem_of_index_getAll.
  by apply map_lookup_filter_Some in Hk as [_ Hne].
Qed.

(** *** [cleanupOldRecordings] *)

Lemma elem_of_store_getAll db d :
  d ∈ store_getAll db ↔ ∃ k, db !! k = Some d.
Proof.
  unfold store_getAll. rewrite merge_sort_Permutation, list_elem_of_fmap.
  split.
  - intros ([k d'] & -> & Hin). exists k. by apply elem_of_map_to_list.
  - intros (k & Hk). exists (k, d). split; [done|].
    by apply elem_of_map_to_list.
Qed.

Lemma sweep_lookup cutoff (l : list ChunkData) (db : Store) k :
  fold_left
    (λ db record,
       if bool_decide (rec_timestamp record < cutoff)
       then delete (rec_id record) db else db) l db !! k
  = if decide (Exists (λ r, rec_id r = k ∧ rec_timestamp r < cutoff) l)
    then None else db !! k.
Proof.
  revert db. induction l as [|r l IH]; intros db; cbn [fold_left].
  { destruct (decide (Exists _ [])) as [H|]; [by apply Exists_nil in H|done]. }
  rewrite IH.
  destruct (decide (Exists (λ r, rec_id r = k ∧ rec_timestamp r < cutoff) l))
    as [Hl|Hl];
    destruct (decide (Exists (λ r, rec_id r = k ∧ rec_timestamp r < cutoff)
                        (r :: l))) as [Hrl|Hrl]; try done.
  - destruct Hrl. by right.
  - apply Exists_cons in Hrl as [[Hk Hold]|?]; [|done].
    rewrite bool_decide_eq_true_2 by done. subst k. apply lookup_delete_eq.
  - case_bool_decide as Hold; [|done].
    rewrite lookup_delete_ne; [done|]. intros Hk. destruct Hrl. by left.
Qed.

(** The sweep keeps exactly the records whose timestamp is not older
    than [now - maxAge], of whatever recording, live or abandoned; a
    second sweep at the same time removes nothing more; and when the
    store cannot be opened nothing is removed. *)
Theorem cleanupOldRecordings_keeps_recent :
  ∀ maxAge now db,
    key_is_id db →
    cleanupOldRecordings true maxAge now db
    = filter (λ kv, now - default (24 * 60 * 60 * 1000) maxAge
                    ≤ rec_timestamp kv.2) db
    ∧ cleanupOldRecordings true maxAge now
        (cleanupOldRecordings true maxAge now db)
      = cleanupOldRecordings true maxAge now db
    ∧ cleanupOldRecordings false maxAge now db = db.
Proof.
  intros maxAge now db Hkey.
  set (cutoff := now - default (24 * 60 * 60 * 1000) maxAge).
  assert (∀ db', key_is_id db' →
            cleanupOldRecordings true maxAge now db'
            = filter (λ kv, cutoff ≤ rec_timestamp kv.2) db') as Hsweep.
  { intros db' Hkey'. apply map_eq. intros k.
    unfold cleanupOldRecordings. fold cutoff. rewrite sweep_lookup.
    destruct (db' !! k) as [d|] eqn:Hk.
    - destruct (decide (rec_timestamp d < cutoff)) as [Hold|Hnew].
      + rewrite decide_True.
        * symmetry. apply map_lookup_filter_None. right. intros d' Hd'.
          simpl. assert (d' = d) as -> by congruence. lia.
        * apply Exists_exists. exists d. split; [|by split; [apply Hkey'|]].
          apply elem_of_store_getAll. eauto.
      + rewrite decide_False.
        * symmetry. apply map_lookup_filter_Some. split; [done|]. simpl. lia.
        * intros (r & Hr & Hid & Hts)%Exists_exists.
          apply elem_of_store_getAll in Hr as (k' & Hk').
          pose proof (Hkey' _ _ Hk') as Hid'.
          assert (r = d) as -> by congruence. lia.
    - case_decide; symmetry; apply map_lookup_filter_None; by left. }
  split_and!; [by apply Hsweep| |done].
  rewrite (Hsweep db Hkey), Hsweep.
  - apply map_filter_filter_l. tauto.
  - intros k d [Hk _]%map_lookup_filter_Some. by apply Hkey.
Qed.

Lemma cleanupOldRecordings_witness :
  cleanupOldRecordings true (Some 10)
    20 (flush_puts "rec" [mkChunk (mkBlob [Byte.x01] "video/webm") 5 1 0%Qc;
                          mkChunk (mkBlob [Byte.x02] "video/webm") 15 1 0%Qc] ∅)
  = filter (λ kv, 20 - 10 ≤ rec_timestamp kv.2)
      (flush_puts "rec" [mkChunk (mkBlob [Byte.x01] "video/webm") 5 1 0%Qc;
                         mkChunk (mkBlob [Byte.x02] "video/webm") 15 1 0%Qc] ∅).
Proof.
  refine (proj1 (cleanupOldRecordings_keeps_recent (Some 10) 20 _ _)).
  intros k d. simpl. unfold store_put. simpl.
  intros [[<- <-]|[_ [[<- <-]|[_ H]]%lookup_insert_Some]]%lookup_insert_Some;
    [done|done|by rewrite lookup_empty in H].
Defined.

End VideoBufferMore.

(** ** More on [VideoUploadService] *)

Module VideoUploadServiceMore.
Import VideoUploadService VideoUploadServiceFacts.

(** *** [extractFormat] *)

Lemma str_app_cons a s t : (String a s +:+ t = String a (s +:+ t))%string.
Proof. reflexivity. Qed.

Lemma str_app_nil_r s : (s +:+ "" = s)%string.
Proof. induction s as [|a s IH]; [done|]. by rewrite str_app_cons, IH. Qed.

Lemma str_app_assoc s t u : ((s +:+ t) +:+ u = s +:+ (t +:+ u))%string.
Proof. induction s as [|a s IH]; [done|]. by rewrite !str_app_cons, IH. Qed.

Lemma all_chars_app p s t :
  Filename.all_chars p (s +:+ t)
  = Filename.all_chars p s && Filename.all_chars p t.
Proof.
  induction s as [|a s IH]; [done|].
  rewrite str_app_cons. simpl. by rewrite IH, andb_assoc.
Qed.

Lemma last_segment_no_dot acc s :
  Filename.all_chars (λ c, negb (is_dot c)) s = true →
  last_segment acc s = (acc +:+ s)%string.
Proof.
  revert acc. induction s as [|c rest IH]; intros acc; simpl.
  { by rewrite str_app_nil_r. }
  intros [Hc Hr]%andb_prop. unfold is_dot in Hc.
  destruct (Ascii.eqb c ".") eqn:Heq; [done|].
  by rewrite IH, str_app_assoc.
Qed.

Lemma last_segment_after_dot acc base ext :
  last_segment acc (base +:+ String "."%char ext) = last_segment EmptyString ext.
Proof.
  revert acc. induction base as [|c rest IH]; intros acc; [done|].
  rewrite str_app_cons. simpl. destruct (Ascii.eqb c "."); apply IH.
Qed.

Lemma last_segment_dot_free acc s :
  Filename.all_chars (λ c, negb (is_dot c)) acc = true →
  Filename.all_chars (λ c, negb (is_dot c)) (last_segment acc s) = true.
Proof.
  revert acc. induction s as [|c rest IH]; intros acc Hacc; simpl; [done|].
  destruct (Ascii.eqb c ".") eqn:Heq; [by apply IH|].
  apply IH. rewrite all_chars_app, Hacc. simpl. unfold is_dot. by rewrite Heq.
Qed.

Lemma to_lower_not_upper c : is_upper (to_lower c) = false.
Proof. by destruct c as [[] [] [] [] [] [] [] []]. Qed.

Lemma to_lower_dot c : is_dot (to_lower c) = is_dot c.
Proof. by destruct c as [[] [] [] [] [] [] [] []]. Qed.

(** The format is never empty, holds no dot and no letter of A-Z. *)
Theorem extractFormat_shape :
  ∀ name,
    extractFormat name ≠ EmptyString
    ∧ Filename.all_chars (λ c, negb (is_dot c)) (extractFormat name) = true
    ∧ Filename.all_chars (λ c, negb (is_upper c)) (extractFormat name) = true.
Proof.
  intros name. unfold extractFormat.
  set (seg := last_segment EmptyString name).
  assert (Filename.all_chars (λ c, negb (is_dot c)) seg = true) as Hseg
    by by apply last_segment_dot_free.
  case_bool_decide as Hempty; [done|].
  split_and!; [done| |].
  - clear Hempty. induction seg as [|c rest IH]; [done|]. simpl in *.
    apply andb_prop in Hseg as [Hc Hr]. by rewrite to_lower_dot, Hc, IH.
  - clear. induction seg as [|c rest IH]; [done|]. simpl.
    by rewrite to_lower_not_upper, IH.
Qed.

(** For a name that ends in a dot and a dot-free extension of ASCII
    characters, the format is the extension in lower case, or ['unknown']
    when the extension is empty; a name without any dot gives the whole
    name in lower case. *)
Theorem extractFormat_extension :
  ∀ base ext,
    Filename.all_chars (λ c, negb (is_dot c)) ext = true →
    Filename.all_chars is_ascii7 (base +:+ ext) = true →
    extractFormat (base +:+ String "."%char ext)
    = (if bool_decide (ext = EmptyString) then "unknown"%string
       else lower_case ext)
    ∧ extractFormat ext
      = (if bool_decide (ext = EmptyString) then "unknown"%string
         else lower_case ext).
Proof.
  intros base ext Hext _. unfold extractFormat.
  rewrite last_segment_after_dot, last_segment_no_dot by done.
  change (EmptyString +:+ ext)%string with ext.
  assert (bool_decide (lower_case ext = EmptyString)
          = bool_decide (ext = EmptyString)) as ->; [|done].
  by destruct ext.
Qed.

Lemma extractFormat_extension_witness :
  extractFormat "My.Clip.WebM" = "webm"%string.
Proof.
  refine (proj1 (extractFormat_extension "My.Clip" "WebM" _ _));
    reflexivity.
Defined.

(** *** The chunks of [chunkedUpload] *)

Lemma slice_chunk_data blob cs i :
  0 < cs →
  blob_data (slice_chunk blob cs i)
  = take (Z.to_nat cs) (drop (i * Z.to_nat cs) (blob_data blob)).
Proof.
  intros Hcs. unfold slice_chunk, blob_slice, blob_size. simpl.
  replace (Z.to_nat (Z.of_nat i * cs)) with (i * Z.to_nat cs)%nat by lia.
  set (d := drop (i * Z.to_nat cs) (blob_data blob)).
  assert (length d = (length (blob_data blob) - i * Z.to_nat cs)%nat) as Hd
    by apply length_drop.
  destruct (decide (Z.to_nat cs ≤ length d)%nat) as [Hle|Hgt].
  - f_equal. lia.
  - rewrite !take_ge; [done|lia..].
Qed.

Lemma slices_join blob cs i m :
  0 < cs →
  mjoin (blob_data <$> (slice_chunk blob cs <$> seq i m))
  = take (m * Z.to_nat cs) (drop (i * Z.to_nat cs) (blob_data blob)).
Proof.
  intros Hcs. revert i. induction m as [|m IH]; intros i; [done|].
  cbn [seq]. rewrite !fmap_cons.
  change (mjoin (?x :: ?l)) with (x ++ mjoin l).
  rewrite slice_chunk_data, IH by done.
  replace (S i * Z.to_nat cs)%nat with (i * Z.to_nat cs + Z.to_nat cs)%nat by lia.
  by rewrite <-drop_drop, take_take_drop.
Qed.

Lemma loop_events_bytes env id blob cs startTime m i :
  0 < cs →
  bytesUploaded <$>
    loop_events env id (blob_size blob) startTime
      (slice_chunk blob cs <$> seq i m) i
      (Z.min (Z.of_nat i * cs) (blob_size blob))
  = (λ k, Z.min ((Z.of_nat k + 1) * cs) (blob_size blob)) <$> seq i m.
Proof.
  intros Hcs. revert i. induction m as [|m IH]; intros i; [done|].
  cbn [seq]. rewrite !fmap_cons. cbn [loop_events]. rewrite fmap_cons.
  assert (Z.min (Z.of_nat i * cs) (blob_size blob)
          + blob_size (slice_chunk blob cs i)
          = Z.min (Z.of_nat (S i) * cs) (blob_size blob)) as Hstep.
  { rewrite slice_chunk_size, Nat2Z.inj_succ, Z.mul_succ_l by done.
    generalize (Z.of_nat i * cs) (blob_size blob). lia. }
  rewrite Hstep, IH. simpl. do 2 f_equal. lia.
Qed.

(** With a positive chunk size, the chunks that [chunkedUpload] slices
    are, put end to end, the blob; the [k]-th event of its loop reports
    [min (k * chunkSize) size] bytes uploaded, never more than the size
    of the blob. *)
Theorem chunkedUpload_chunks_cover :
  ∀ env id blob cs startTime n,
    0 < cs →
    totalChunks (blob_size blob) cs = Some n →
    mjoin (blob_data <$> (slice_chunk blob cs <$> seq 0 n)) = blob_data blob
    ∧ bytesUploaded <$>
        loop_events env id (blob_size blob) startTime
          (slice_chunk blob cs <$> seq 0 n) 0 0
      = (λ k, Z.min ((Z.of_nat k + 1) * cs) (blob_size blob)) <$> seq 0 n
    ∧ Forall (λ ev, 0 ≤ bytesUploaded ev ≤ blob_size blob)
        (loop_events env id (blob_size blob) startTime
           (slice_chunk blob cs <$> seq 0 n) 0 0).
Proof.
  intros env id blob cs startTime n Hcs Hn.
  unfold totalChunks in Hn. rewrite bool_decide_eq_false_2 in Hn by lia.
  injection Hn as <-.
  pose proof (blob_size_nonneg blob) as Hsize.
  assert (blob_size blob ≤ Z.of_nat (Z.to_nat (ceil_div (blob_size blob) cs)) * cs)
    as Hcover.
  { destruct (decide (blob_size blob = 0)) as [->|Hpos].
    - apply Z.mul_nonneg_nonneg; lia.
    - destruct (ceil_div_covers (blob_size blob) cs) as [Hn Hc]; [lia..|].
      by rewrite Z2Nat.id by lia. }
  pose proof (loop_events_bytes env id blob cs startTime
                (Z.to_nat (ceil_div (blob_size blob) cs)) 0 Hcs) as Hbytes.
  rewrite Z.mul_0_l, Z.min_l in Hbytes by done.
  split_and!; [|done|].
  - rewrite slices_join by done. rewrite drop_0. apply take_ge.
    unfold blob_size in *. lia.
  - assert (Forall (λ u, 0 ≤ u ≤ blob_size blob)
              (bytesUploaded <$>
                 loop_events env id (blob_size blob) startTime
                   (slice_chunk blob cs <$>
                      seq 0 (Z.to_nat (ceil_div (blob_size blob) cs))) 0 0))
      as Hall.
    { rewrite Hbytes. rewrite Forall_fmap. apply Forall_forall.
      intros k _. simpl. nia. }
    by rewrite Forall_fmap in Hall.
Qed.

Lemma chunkedUpload_chunks_cover_witness :
  mjoin (blob_data <$> (slice_chunk (bytes 5) 2 <$> seq 0 3))
  = blob_data (bytes 5).
Proof.
  refine (proj1 (chunkedUpload_chunks_cover plain_env "up" (bytes 5) 2 0 3 _ _)).
  - lia.
  - reflexivity.
Defined.

(** *** [cancelAllUploads] *)

Lemma cancelUpload_active id st c :
  activeUploads st !! id = Some c →
  activeUploads (cancelUpload id st) = delete id (activeUploads st)
  ∧ progressCallbacks (cancelUpload id st) = delete id (progressCallbacks st)
  ∧ controllers (cancelUpload id st) = <[c := true]> (controllers st)
  ∧ calls (cancelUpload id st) = calls st ++ option_list (cancelled_call st id).
Proof.
  intros Hc. unfold cancelUpload, cancelled_call. rewrite Hc.
  unfold updateProgress. cbn [abort progressCallbacks].
  destruct (progressCallbacks st !! id); simpl; rewrite ?app_nil_r;
    split_and!; reflexivity.
Qed.

Lemma omap_cancelled_call_ext st1 st2 (keys : list string) :
  (∀ id, id ∈ keys → progressCallbacks st1 !! id = progressCallbacks st2 !! id) →
  omap (cancelled_call st1) keys = omap (cancelled_call st2) keys.
Proof.
  induction keys as [|id keys IH]; intros Hext; [done|].
  assert (cancelled_call st1 id = cancelled_call st2 id) as Hid.
  { unfold cancelled_call. by rewrite (Hext id) by (by left). }
  csimpl. rewrite Hid, IH; [done|].
  intros id' Hin. apply Hext. by right.
Qed.

Lemma lookup_delete_then {V} (m : gmap string V) id (keys : list string) id' :
  (if decide (id' ∈ keys) then None else delete id m !! id')
  = if decide (id' ∈ id :: keys) then None else m !! id'.
Proof.
  destruct (decide (id' ∈ keys)) as [Hin|Hnin];
    destruct (decide (id' ∈ id :: keys)) as [Hin'|Hnin']; try done.
  - destruct Hnin'. by right.
  - apply elem_of_cons in Hin' as [->|?]; [|done]. apply lookup_delete_eq.
  - apply lookup_delete_ne. intros ->. destruct Hnin'. by left.
Qed.

Lemma cancelAllUploads_tables keys st :
  NoDup keys →
  (∀ id, id ∈ keys → is_Some (activeUploads st !! id)) →
  (∀ id, activeUploads (cancelAllUploads keys st) !! id
         = if decide (id ∈ keys) then None else activeUploads st !! id)
  ∧ (∀ id, progressCallbacks (cancelAllUploads keys st) !! id
           = if decide (id ∈ keys) then None else progressCallbacks st !! id)
  ∧ length (controllers (cancelAllUploads keys st)) = length (controllers st)
  ∧ (∀ c, signal_aborted c st = true →
          signal_aborted c (cancelAllUploads keys st) = true)
  ∧ (∀ id c, id ∈ keys → activeUploads st !! id = Some c →
             (c < length (controllers st))%nat →
             signal_aborted c (cancelAllUploads keys st) = true)
  ∧ calls (cancelAllUploads keys st)
    = calls st ++ omap (cancelled_call st) keys.
Proof.
  revert st. induction keys as [|id keys IH]; intros st Hnd Hactive.
  { split_and!; try done;
      try (intros id; destruct (decide (id ∈ [])) as [H|];
           [by apply elem_of_nil in H|done]);
      try (by intros id c ?%elem_of_nil).
    simpl. by rewrite app_nil_r. }
  apply NoDup_cons in Hnd as [Hnin Hnd].
  destruct (Hactive id) as [c Hc]; [by left|].
  destruct (cancelUpload_active id st c Hc) as (Hact & Hcbs & Hctl & Hcalls).
  change (cancelAllUploads (id :: keys) st)
    with (cancelAllUploads keys (cancelUpload id st)).
  destruct (IH (cancelUpload id st) Hnd) as (IHa & IHp & IHl & IHs & IHk & IHc).
  { intros id' Hin. rewrite Hact, lookup_delete_ne by (by intros ->).
    apply Hactive. by right. }
  assert (∀ c', signal_aborted c' st = true →
                signal_aborted c' (cancelUpload id st) = true) as Hmono.
  { intros c'. unfold signal_aborted. rewrite Hctl.
    destruct (decide (c = c')) as [<-|Hne].
    - destruct (controllers st !! c) eqn:Hl; [|done].
      by rewrite list_lookup_insert_eq by (by eapply lookup_lt_Some).
    - by rewrite list_lookup_insert_ne. }
  split_and!.
  - intros id'. rewrite IHa, Hact. apply lookup_delete_then.
  - intros id'. rewrite IHp, Hcbs. apply lookup_delete_then.
  - by rewrite IHl, Hctl, length_insert.
  - intros c' Hc'. by apply IHs, Hmono.
  - intros id' c' [->|Hin]%elem_of_cons Hc' Hlt.
    + assert (c' = c) as -> by congruence.
      apply IHs. unfold signal_aborted. rewrite Hctl.
      by rewrite list_lookup_insert_eq.
    + apply (IHk id'); [done| |by rewrite Hctl, length_insert].
      rewrite Hact, lookup_delete_ne; [done|]. by intros ->.
  - rewrite IHc, Hcalls, <-app_assoc. f_equal. csimpl.
    rewrite (omap_cancelled_call_ext (cancelUpload id st) st).
    + by destruct (cancelled_call st id).
    + intros id' Hin. rewrite Hcbs, lookup_delete_ne; [done|]. by intros ->.
Qed.



(** *** What a success of [uploadVideo] means *)

Lemma wlp_ret {A} (a : A) QO QT st : QO a st → wlp (mret a) QO QT st.
Proof. done. Qed.

Lemma wlp_throw {A} e (QO : A → state → Prop) QT st :
  QT e st → wlp (throw e) QO QT st.
Proof. done. Qed.

Lemma wlp_act f QO QT st : QO tt (f st) → wlp (act f) QO QT st.
Proof. done. Qed.

Lemma wlp_bind {A B} (m : M A) (f : A → M B) QO QT st :
  wlp m (λ a st1, wlp (f a) QO QT st1) QT st → wlp (m ≫= f) QO QT st.
Proof.
  unfold wlp, mbind, M_bind. by destruct (m st) as [st1 [a|e|]].
Qed.

Lemma wlp_try_catch {A} (m : M A) h QO QT st :
  wlp m QO (λ e st1, wlp (h e) QO QT st1) st → wlp (try_catch m h) QO QT st.
Proof.
  unfold wlp, try_catch. by destruct (m st) as [st1 [a|e|]].
Qed.

Lemma wlp_any {A} (m : M A) (QO : A → state → Prop)
    (QT : thrown → state → Prop) st :
  (∀ a st', QO a st') → (∀ e st', QT e st') → wlp m QO QT st.
Proof.
  intros HO HT. unfold wlp. destruct (m st) as [st1 [a|e|]]; auto.
Qed.

Lemma wlp_mono {A} (m : M A) (QO QO' : A → state → Prop)
    (QT QT' : thrown → state → Prop) st :
  wlp m QO QT st →
  (∀ a st', QO a st' → QO' a st') → (∀ e st', QT e st' → QT' e st') →
  wlp m QO' QT' st.
Proof.
  unfold wlp. destruct (m st) as [st1 [a|e|]]; auto.
Qed.

(** A strategy reports success only if the storage took the blob. *)
Lemma strategy_success env cfg id blob path signal st :
  wlp match selectStrategy cfg blob with
      | Chunked => chunkedUpload env cfg id blob path signal
      | Direct => directUpload env id blob path signal
      end
      (λ r _, s_success r = true → env_upload env = None)
      (λ _ _, False) st.
Proof.
  destruct (selectStrategy cfg blob).
  - unfold directUpload. apply wlp_try_catch, wlp_bind, wlp_act, wlp_bind.
    destruct (env_upload env) as [e|] eqn:Hup.
    + by apply wlp_throw, wlp_ret.
    + by apply wlp_ret, wlp_bind, wlp_act, wlp_ret.
  - unfold chunkedUpload. apply wlp_try_catch.
    destruct (totalChunks _ _) as [n|]; [|done].
    apply wlp_bind, wlp_any.
    + intros [] st1. apply wlp_bind, wlp_act, wlp_bind.
      destruct (env_upload env) as [e|] eqn:Hup.
      * by apply wlp_throw, wlp_ret.
      * by apply wlp_ret, wlp_ret.
    + intros e st1. by apply wlp_ret.
Qed.

Lemma uploadVideo_try_success env cfg c blob name hints st :
  wlp (uploadVideo_try env cfg (env_uploadId env) c blob name hints)
      (λ r _, ∃ user, env_auth env = AuthUser user ∧ env_upload env = None
                      ∧ env_insert env = None
                      ∧ r = success_result env blob name hints user)
      (λ _ _, True) st.
Proof.
  unfold uploadVideo_try.
  apply wlp_bind, wlp_act, wlp_bind, wlp_act, wlp_bind.
  destruct (env_auth env) as [user| |e] eqn:Hauth; [|done..].
  apply wlp_ret, wlp_bind, wlp_act, wlp_bind.
  eapply wlp_mono; [apply strategy_success| |done].
  intros uploadResult st1 Hup. simpl in Hup.
  destruct (s_success uploadResult); simpl; [|done].
  apply wlp_bind, wlp_act, wlp_bind. unfold storeVideoMetadata.
  apply wlp_bind, wlp_act.
  destruct (env_insert env) as [e|] eqn:Hins; [done|].
  apply wlp_ret, wlp_bind, wlp_act, wlp_bind, wlp_act, wlp_ret.
  exists user. split; [done|]. split; [by apply Hup|]. split; [done|].
  unfold success_result, storage_path. by destruct (h_duration hints).
Qed.

(** [uploadVideo] reports success only when the user was signed in, the
    storage took the blob and the insert of the metadata did not reject.
    A success carries no error; it has a path, the public URL of that
    path, and metadata that name the signed-in user and the size of the
    blob. *)
Theorem uploadVideo_success_means :
  ∀ env blob name hints onProgress st result,
    (uploadVideo env blob name hints onProgress st).2 = Some result →
    success result = true →
    ∃ user,
      env_auth env = AuthUser user ∧ env_upload env = None
      ∧ env_insert env = None
      ∧ r_error result = None
      ∧ ∃ path m,
          filePath result = Some path
          ∧ publicUrl result = Some (env_publicUrl env path)
          ∧ metadata result = Some m
          ∧ size m = blob_size blob ∧ userId m = user.
Proof.
  intros env blob name hints onProgress st result. unfold uploadVideo.
  cbn [new_AbortController].
  set (st1 := match onProgress with Some cb => _ | None => _ end).
  pose proof (uploadVideo_try_success env (config st1) (length (controllers st))
                blob name hints st1) as Htry.
  unfold wlp in Htry.
  destruct (uploadVideo_try env (config st1) (env_uploadId env)
              (length (controllers st)) blob name hints st1) as [st2 [r|e|]];
    simpl; [|by intros [= <-]|done].
  intros [= <-] _. destruct Htry as (user & Hauth & Hup & Hins & ->).
  exists user. split_and!; [done..|]. by eexists _, _.
Qed.

Lemma uploadVideo_success_means_witness :
  ∃ user,
    env_auth plain_env = AuthUser user ∧ env_upload plain_env = None
    ∧ env_insert plain_env = None.
Proof.
  destruct (uploadVideo_success_means plain_env (bytes 2) "a b.WebM" no_hints
              (Some 7%nat) (new small_chunks) _ eq_refl eq_refl)
    as (user & Hauth & Hup & Hins & _).
  exists user. split; [exact Hauth|]. split; [exact Hup|exact Hins].
Defined.

(** *** What one [uploadVideo] call leaves alone *)

Section frame.
Context (env : Env) (id : string).
Context (J : state → Prop).
Hypothesis J_update : ∀ updates st, J st → J (updateProgress id updates st).
Hypothesis J_await :
  ∀ p st, J st →
    J (if env_cancel env p then cancelUpload (env_uploadId env) st else st).
Hypothesis J_cleanup : ∀ st, J st → J (cleanup id st).

Lemma uploadVideo_try_frame cfg c blob name hints st :
  chunkSize cfg ≠ 0 → J st →
  wp (uploadVideo_try env cfg id c blob name hints)
     (λ _ st', J st') (λ _ st', J st') st.
Proof.
  intros Hcs HJ. unfold uploadVideo_try.
  apply wp_bind, (wp_update id J J_update); [|done]. intros st1 HJ1.
  apply wp_bind, (wp_await env J J_await); [|done]. intros st2 HJ2.
  apply wp_bind.
  destruct (env_auth env) as [u| |e]; [|by apply wp_throw..].
  apply wp_ret.
  apply wp_bind, (wp_update id J J_update); [|done]. intros st3 HJ3.
  apply wp_bind.
  eapply wp_mono with (QT := λ _ _, False);
    [destruct (selectStrategy cfg blob);
     [by apply directUpload_inv|by apply chunkedUpload_inv]| |done].
  intros uploadResult st4 HJ4. simpl in HJ4.
  destruct (s_success uploadResult); simpl; [|by apply wp_throw].
  apply wp_bind, (wp_update id J J_update); [|done]. intros st5 HJ5.
  apply wp_bind. unfold storeVideoMetadata.
  apply wp_bind, (wp_await env J J_await); [|done]. intros st6 HJ6.
  destruct (env_insert env) as [e|]; [by apply wp_throw|].
  apply wp_ret, wp_bind, (wp_update id J J_update); [|done]. intros st7 HJ7.
  apply wp_bind, wp_act, wp_ret. by apply J_cleanup.
Qed.
End frame.

(** An invariant of the three kinds of steps holds after
    [uploadVideo], if it holds once the upload is registered. *)
Lemma uploadVideo_frame (J : state → Prop) env blob name hints onProgress st :
  chunkSize (config st) ≠ 0 →
  (∀ updates st', J st' → J (updateProgress (env_uploadId env) updates st')) →
  (∀ st', J st' → J (cancelUpload (env_uploadId env) st')) →
  (∀ st', J st' → J (cleanup (env_uploadId env) st')) →
  J (match onProgress with
     | Some cb =>
         set_progressCallback (env_uploadId env) cb
           (set_activeUpload (env_uploadId env) (length (controllers st))
              (new_AbortController st).2)
     | None =>
         set_activeUpload (env_uploadId env) (length (controllers st))
           (new_AbortController st).2
     end) →
  J (uploadVideo env blob name hints onProgress st).1.
Proof.
  intros Hcs Hupd Hcancel Hclean HJ1. unfold uploadVideo.
  cbn [new_AbortController] in *.
  set (st1 := match onProgress with Some cb => _ | None => _ end) in *.
  pose proof (uploadVideo_try_frame env (env_uploadId env) J Hupd) as Htry.
  specialize (Htry ltac:(intros p s H; destruct (env_cancel env p); auto) Hclean).
  specialize (Htry (config st1) (length (controllers st)) blob name hints st1).
  assert (config st1 = config st) as Hcfg by (unfold st1; by destruct onProgress).
  rewrite Hcfg in Htry |- *. specialize (Htry Hcs HJ1). unfold wp in Htry.
  destruct (uploadVideo_try env (config st) (env_uploadId env)
              (length (controllers st)) blob name hints st1) as [st2 [r|e|]];
    simpl; [done| |done].
  by apply Hclean, Hupd.
Qed.

(** Without a callback, and with an upload id that has no callback
    registered yet, [uploadVideo] delivers no event at all, whatever
    happens to the upload. *)
Theorem uploadVideo_silent_without_callback :
  ∀ env blob name hints st,
    chunkSize (config st) ≠ 0 →
    progressCallbacks st !! env_uploadId env = None →
    calls (uploadVideo env blob name hints None st).1 = calls st.
Proof.
  intros env blob name hints st Hcs Hfresh.
  set (id := env_uploadId env).
  pose proof (uploadVideo_frame
    (λ st', calls st' = calls st ∧ progressCallbacks st' !! id = None)
    env blob name hints None st Hcs) as Hframe.
  apply Hframe; clear Hframe.
  - intros updates st' [Hcalls Hnone].
    by rewrite updateProgress_unregistered.
  - intros st' [Hcalls Hnone]. unfold cancelUpload.
    destruct (activeUploads st' !! env_uploadId env) as [c|]; [|done].
    rewrite updateProgress_unregistered by done. simpl.
    split; [done|]. apply lookup_delete_eq.
  - intros st' [Hcalls Hnone]. simpl. split; [done|]. apply lookup_delete_eq.
  - done.
Qed.

Lemma uploadVideo_silent_witness :
  calls (uploadVideo plain_env (bytes 3) "clip.webm" no_hints None
           (new small_chunks)).1 = [].
Proof.
  apply (uploadVideo_silent_without_callback plain_env (bytes 3) "clip.webm"
           no_hints (new small_chunks)).
  - simpl. lia.
  - reflexivity.
Defined.

(** One [uploadVideo] call, however it ends and whenever it is
    cancelled, does not touch the other uploads: their handles, their
    callbacks and their controllers stay as they are, and no event
    delivered before is lost. *)
Theorem uploadVideo_leaves_others :
  ∀ env blob name hints onProgress st,
    chunkSize (config st) ≠ 0 →
    others_untouched (env_uploadId env) st
      (uploadVideo env blob name hints onProgress st).1.
Proof.
  intros env blob name hints onProgress st Hcs.
  set (id := env_uploadId env). set (c0 := length (controllers st)).
  pose proof (uploadVideo_frame
    (λ st', others_untouched id st st'
            ∧ (∀ c, activeUploads st' !! id = Some c → c = c0))
    env blob name hints onProgress st Hcs) as Hframe.
  apply Hframe; clear Hframe.
  - intros updates st' [(Hcfg & Htab & Hctl & Hcalls) Hown]. fold id.
    destruct (updateProgress_tables id updates st') as (H1 & H2 & H3 & H4).
    split; [|by rewrite H2].
    split_and!; [congruence|by rewrite H2, H3|by rewrite H4|].
    etrans; [exact Hcalls|]. unfold updateProgress.
    destruct (progressCallbacks st' !! id); [|done]. by apply prefix_app_r.
  - intros st' HJ. unfold cancelUpload.
    fold id. destruct (activeUploads st' !! id) as [c|] eqn:Hc;
      [|by rewrite Hc].
    destruct HJ as [(Hcfg & Htab & Hctl & Hcalls) Hown].
    pose proof (Hown c eq_refl) as ->.
    set (u := mkUpdate None None None None None None (Some Cancelled) None).
    destruct (updateProgress_tables id u (abort c0 st')) as (H1 & H2 & H3 & H4).
    split; [|simpl; by rewrite lookup_delete_eq].
    split_and!; simpl.
    + by rewrite H1.
    + intros id' Hne. rewrite !lookup_delete_ne by done.
      rewrite H2, H3. simpl. by apply Htab.
    + rewrite H4. simpl. by rewrite take_insert_ge.
    + etrans; [exact Hcalls|]. unfold updateProgress.
      destruct (progressCallbacks (abort c0 st') !! id); [|done].
      by apply prefix_app_r.
  - intros st' [(Hcfg & Htab & Hctl & Hcalls) Hown]. fold id.
    split; [|simpl; by rewrite lookup_delete_eq].
    split_and!; simpl; [done| |done|done].
    intros id' Hne. rewrite !lookup_delete_ne by done. by apply Htab.
  - fold id c0.
    assert (take c0 (controllers st ++ [false]) = controllers st) as Htake
      by apply take_app_length.
    destruct onProgress as [cb|]; (split; [split_and!|]); simpl; try done.
    + intros id' Hne. by rewrite !lookup_insert_ne.
    + intros c. rewrite lookup_insert_eq. by intros [= <-].
    + intros id' Hne. by rewrite !lookup_insert_ne.
    + intros c. rewrite lookup_insert_eq. by intros [= <-].
Qed.

Lemma uploadVideo_leaves_others_witness :
  others_untouched "up"
    (run [Register "other" (Some 1%nat)] (new small_chunks))
    (uploadVideo plain_env (bytes 3) "clip.webm" no_hints (Some 7%nat)
       (run [Register "other" (Some 1%nat)] (new small_chunks))).1.
Proof.
  apply (uploadVideo_leaves_others plain_env (bytes 3) "clip.webm" no_hints
           (Some 7%nat)).
  simpl. lia.
Defined.

(** *** A cancellation that comes during the insert of the metadata *)

Lemma loop_events_pending env id totalSize startTime chunks i uploaded :
  Forall (λ ev, status ev = Pending)
    (loop_events env id totalSize startTime chunks i uploaded).
Proof.
  revert i uploaded. induction chunks as [|c r IH]; intros; simpl;
    constructor; [done|apply IH].
Qed.

Section late_cancel.
Context (env : Env) (cb : callback) (user : string).
Hypothesis cancel_late : env_cancel env AwInsert = true.
Hypothesis quiet_before : ∀ p, p ≠ AwInsert → env_cancel env p = false.
Hypothesis auth_ok : env_auth env = AuthUser user.
Hypothesis upload_ok : env_upload env = None.
Hypothesis insert_ok : env_insert env = None.

Lemma bind_await_before {B} p (k : unit → M B) st :
  p ≠ AwInsert → (await env p ≫= k) st = k tt st.
Proof. intros Hp. unfold await. by rewrite bind_act, quiet_before. Qed.

Lemma bind_update_cb {B} updates (k : unit → M B) st :
  progressCallbacks st !! env_uploadId env = Some cb →
  (act (updateProgress (env_uploadId env) updates) ≫= k) st
  = k tt (deliver cb (mergeProgress (env_uploadId env) updates) st).
Proof. intros H. by rewrite bind_act, (updateProgress_registered _ _ _ cb). Qed.

Lemma simulate_before signal totalSize startTime chunks i uploaded st :
  progressCallbacks st !! env_uploadId env = Some cb →
  signal_aborted signal st = false →
  simulate env (env_uploadId env) signal totalSize startTime chunks i uploaded st
  = (deliver_all cb
       (loop_events env (env_uploadId env) totalSize startTime chunks i uploaded)
       st, Ok tt).
Proof.
  revert i uploaded st.
  induction chunks as [|chunk rest IH]; intros i uploaded st Hcb Hsig.
  { unfold deliver_all. simpl. rewrite app_nil_r. by destruct st. }
  cbn [simulate loop_events].
  rewrite bind_read, Hsig, bind_await_before, bind_update_cb by done.
  rewrite IH by done.
  unfold deliver_all, deliver. simpl. by rewrite <-app_assoc.
Qed.

Lemma storeVideoMetadata_late c st :
  activeUploads st !! env_uploadId env = Some c →
  progressCallbacks st !! env_uploadId env = Some cb →
  storeVideoMetadata env st
  = (cleanup (env_uploadId env)
       (deliver cb (status_event (env_uploadId env) Cancelled) (abort c st)),
     Ok tt).
Proof.
  intros Hact Hcb. unfold storeVideoMetadata, await.
  rewrite bind_act, cancel_late, insert_ok. unfold cancelUpload.
  rewrite Hact. by rewrite (updateProgress_registered _ _ _ cb).
Qed.

(** The strategy, undisturbed: its events all have the default status. *)
Lemma strategy_before cfg blob path signal st :
  chunkSize cfg ≠ 0 →
  progressCallbacks st !! env_uploadId env = Some cb →
  signal_aborted signal st = false →
  ∃ events,
    match selectStrategy cfg blob with
    | Chunked => chunkedUpload env cfg (env_uploadId env) blob path signal
    | Direct => directUpload env (env_uploadId env) blob path signal
    end st = (deliver_all cb events st, Ok (mkStrategyResult true None))
    ∧ Forall (λ ev, status ev = Pending) events.
Proof.
  intros Hcs Hcb Hsig. destruct (selectStrategy cfg blob).
  - exists [mergeProgress (env_uploadId env)
              (direct_update env blob (env_startTime env))].
    split; [|by constructor].
    unfold directUpload, try_catch.
    rewrite bind_await_before, upload_ok, bind_ret by done.
    by rewrite bind_update_cb.
  - eexists. split; [|apply loop_events_pending].
    unfold chunkedUpload, try_catch, totalChunks.
    rewrite bool_decide_eq_false_2 by done.
    erewrite bind_assoc_at; [|by apply simulate_before].
    by rewrite bind_await_before, upload_ok, bind_ret.
Qed.

Lemma uploadVideo_try_late_cancel cfg c blob name hints st1 :
  chunkSize cfg ≠ 0 →
  progressCallbacks st1 !! env_uploadId env = Some cb →
  activeUploads st1 !! env_uploadId env = Some c →
  signal_aborted c st1 = false →
  (c < length (controllers st1))%nat →
  ∃ st' events,
    uploadVideo_try env cfg (env_uploadId env) c blob name hints st1
    = (st', Ok (success_result env blob name hints user))
    ∧ Forall (λ ev, status ev = Pending) events
    ∧ calls st'
      = calls st1 ++
          ((cb,.) <$> [pending_event (env_uploadId env) blob;
                       status_event (env_uploadId env) Uploading]
                      ++ events
                      ++ [status_event (env_uploadId env) Processing;
                          status_event (env_uploadId env) Cancelled])
    ∧ signal_aborted c st' = true
    ∧ activeUploads st' !! env_uploadId env = None.
Proof.
  intros Hcs Hcb Hact Hsig Hlt. unfold uploadVideo_try.
  rewrite bind_update_cb by done.
  rewrite bind_await_before, auth_ok, bind_ret by done.
  rewrite bind_update_cb by done.
  edestruct (strategy_before cfg blob) as (events & Hstrategy & Hpending);
    [done| | |].
  3: erewrite bind_assoc_at; [|exact Hstrategy].
  { done. }
  { done. }
  cbn [s_success negb].
  rewrite bind_update_cb by done.
  erewrite bind_assoc_at; [|by apply (storeVideoMetadata_late c)].
  rewrite bind_act, updateProgress_unregistered
    by (simpl; apply lookup_delete_eq).
  rewrite bind_act. do 2 eexists. split; [|split; [exact Hpending|]].
  { unfold success_result, storage_path. cbn [mret M_ret].
    by destruct (h_duration hints). }
  simpl. split_and!.
  - rewrite !fmap_app, <-!app_assoc. done.
  - unfold signal_aborted. simpl. by rewrite list_lookup_insert_eq.
  - by rewrite !lookup_delete_eq.
Qed.
End late_cancel.



End VideoUploadServiceMore.

(** ** Failures of [uploadVideo] *)

Module VideoUploadServiceFailures.
Import VideoUploadService VideoUploadServiceFacts VideoUploadServiceMore.

(** *** Callbacks that return normally *)

Lemma bind_ext {A B} (m1 m2 : M A) (k1 k2 : A → M B) st :
  m1 st = m2 st → (∀ a st', k1 a st' = k2 a st') →
  (m1 ≫= k1) st = (m2 ≫= k2) st.
Proof.
  intros Hm Hk. unfold mbind, M_bind. rewrite Hm.
  by destruct (m2 st) as [st' [a|e|]].
Qed.

Lemma try_catch_ext {A} (m1 m2 : M A) h st :
  m1 st = m2 st → try_catch m1 h st = try_catch m2 h st.
Proof. intros Hm. unfold try_catch. by rewrite Hm. Qed.

Section contract.
Context (throws : behaviour).
Hypothesis returns : ∀ cb event, throws cb event = None.

Lemma raising_updateProgress id updates st :
  Raising.updateProgress throws id updates st
  = act (updateProgress id updates) st.
Proof.
  unfold Raising.updateProgress, act, updateProgress.
  destruct (progressCallbacks st !! id); [|done]. by rewrite returns.
Qed.

Lemma raising_cancelUpload id st :
  Raising.cancelUpload throws id st = (cancelUpload id st, Ok tt).
Proof.
  unfold Raising.cancelUpload, cancelUpload.
  destruct (activeUploads st !! id) as [c|]; [|done].
  rewrite bind_act.
  erewrite bind_ext; [|apply raising_updateProgress|done].
  by rewrite bind_act.
Qed.

Lemma raising_await env p st : Raising.await throws env p st = await env p st.
Proof.
  unfold Raising.await, await, act.
  destruct (env_cancel env p); [|done]. by rewrite raising_cancelUpload.
Qed.

Lemma raising_simulate env id signal totalSize startTime chunks :
  ∀ i uploaded st,
    Raising.simulate throws env id signal totalSize startTime chunks i uploaded st
    = simulate env id signal totalSize startTime chunks i uploaded st.
Proof.
  induction chunks as [|chunk rest IH]; intros i uploaded st; [done|].
  cbn [Raising.simulate simulate].
  apply bind_ext; [done|]. intros [] st1; [done|].
  apply bind_ext; [apply raising_await|]. intros _ st2.
  apply bind_ext; [apply raising_updateProgress|]. intros _ st3. apply IH.
Qed.

Lemma raising_directUpload env id blob path signal st :
  Raising.directUpload throws env id blob path signal st
  = directUpload env id blob path signal st.
Proof.
  apply try_catch_ext.
  apply bind_ext; [apply raising_await|]. intros _ st1.
  apply bind_ext; [done|]. intros _ st2.
  apply bind_ext; [apply raising_updateProgress|done].
Qed.

Lemma raising_chunkedUpload env cfg id blob path signal st :
  Raising.chunkedUpload throws env cfg id blob path signal st
  = chunkedUpload env cfg id blob path signal st.
Proof.
  apply try_catch_ext.
  destruct (totalChunks (blob_size blob) (chunkSize cfg)); [|done].
  apply bind_ext; [apply raising_simulate|]. intros _ st1.
  apply bind_ext; [apply raising_await|done].
Qed.

Lemma raising_uploadVideo_try env cfg id c blob name hints st :
  Raising.uploadVideo_try throws env cfg id c blob name hints st
  = uploadVideo_try env cfg id c blob name hints st.
Proof.
  apply bind_ext; [apply raising_updateProgress|]. intros _ st1.
  apply bind_ext; [apply raising_await|]. intros _ st2.
  apply bind_ext; [done|]. intros user st3.
  apply bind_ext; [apply raising_updateProgress|]. intros _ st4.
  apply bind_ext.
  { destruct (selectStrategy cfg blob);
      [apply raising_directUpload|apply raising_chunkedUpload]. }
  intros uploadResult st5. destruct (negb (s_success uploadResult)); [done|].
  apply bind_ext; [apply raising_updateProgress|]. intros _ st6.
  apply bind_ext.
  { apply bind_ext; [apply raising_await|done]. }
  intros _ st7.
  apply bind_ext; [apply raising_updateProgress|done].
Qed.

(** Under the contract, the two embeddings of [uploadVideo] agree. *)
Lemma raising_uploadVideo env blob name hints onProgress st :
  Raising.uploadVideo throws env blob name hints onProgress st
  = match uploadVideo env blob name hints onProgress st with
    | (st', Some result) => (st', Ok result)
    | (st', None) => (st', Hang)
    end.
Proof.
  unfold Raising.uploadVideo, uploadVideo. cbn [new_AbortController].
  unfold try_catch. rewrite raising_uploadVideo_try.
  destruct (uploadVideo_try _ _ _ _ _ _ _ _) as [st2 [r|e|]]; [done| |done].
  erewrite bind_ext; [|apply raising_updateProgress|done].
  by rewrite bind_act.
Qed.
End contract.

(** *** The first failure and its description *)

Lemma wp_and {A} (m : M A) (QO1 QO2 : A → state → Prop) QT1 QT2 st :
  wp m QO1 QT1 st → wp m QO2 QT2 st →
  wp m (λ a st', QO1 a st' ∧ QO2 a st') (λ e st', QT1 e st' ∧ QT2 e st') st.
Proof. unfold wp. by destruct (m st) as [st' [a|e|]]. Qed.

Lemma observed_from_step env i n :
  observed_from env false i (S n)
  = observed_from env (env_cancel env (AwDelay i)) (S i) n.
Proof. by destruct n. Qed.

Section tracking.
Context (env : Env) (c : nat).
Let id := env_uploadId env.

Lemma cancelled_state_update b updates st :
  cancelled_state id c b st →
  cancelled_state id c b (updateProgress id updates st).
Proof.
  unfold cancelled_state, signal_aborted.
  by destruct (updateProgress_tables id updates st) as (_ & -> & _ & ->).
Qed.

Lemma cancelled_state_await b p st :
  cancelled_state id c b st →
  cancelled_state id c (b || env_cancel env p)
    (if env_cancel env p then cancelUpload id st else st).
Proof.
  intros (Hsig & Hlt & Hact).
  destruct (env_cancel env p); [|by rewrite orb_false_r].
  rewrite orb_true_r. unfold cancelUpload. rewrite Hact.
  destruct b; [done|].
  unfold cancelled_state, signal_aborted.
  destruct (updateProgress_tables id
    (mkUpdate None None None None None None (Some Cancelled) None)
    (abort c st)) as (_ & Ha & _ & Hc).
  simpl. rewrite Hc. simpl.
  rewrite list_lookup_insert_eq, length_insert by done.
  split_and!; [done|done|apply lookup_delete_eq].
Qed.

Lemma wp_update_tracked b updates (QO : unit → state → Prop) QT st :
  cancelled_state id c b st →
  (∀ st', cancelled_state id c b st' → QO tt st') →
  wp (act (updateProgress id updates)) QO QT st.
Proof. intros HA HQ. by apply wp_act, HQ, cancelled_state_update. Qed.

Lemma wp_await_tracked b p (QO : unit → state → Prop) QT st :
  cancelled_state id c b st →
  (∀ st', cancelled_state id c (b || env_cancel env p) st' → QO tt st') →
  wp (await env p) QO QT st.
Proof. intros HA HQ. by apply wp_act, HQ, cancelled_state_await. Qed.

Lemma simulate_outcome totalSize startTime chunks :
  ∀ i uploaded st b,
    cancelled_state id c b st →
    wp (simulate env id c totalSize startTime chunks i uploaded)
       (λ _ st', observed_from env b i (length chunks) = false
                 ∧ ∃ b', cancelled_state id c b' st')
       (λ e st', e = JsError "Upload cancelled"
                 ∧ observed_from env b i (length chunks) = true
                 ∧ signal_aborted c st' = true) st.
Proof.
  induction chunks as [|chunk rest IH]; intros i uploaded st b HA.
  { apply wp_ret. split; [done|by exists b]. }
  cbn [simulate]. apply wp_bind, wp_read.
  destruct HA as (Hsig & HA). rewrite Hsig.
  destruct b.
  { by apply wp_throw. }
  apply wp_bind, wp_act, wp_bind, wp_act.
  eapply wp_mono; [apply (IH (S i) _ _ (env_cancel env (AwDelay i)))| |].
  - apply cancelled_state_update.
    apply (cancelled_state_await false (AwDelay i) st). by split.
  - intros _ st' [Hobs HA']. split; [|done].
    cbn [length]. by rewrite observed_from_step.
  - intros e st' (He & Hobs & Hsig'). split_and!; [done| |done].
    cbn [length]. by rewrite observed_from_step.
Qed.
Lemma directUpload_outcome blob path st :
  wp (directUpload env id blob path c)
     (λ r _,
        r = match env_upload env with
            | Some e =>
                mkStrategyResult false (Some (message_or "Upload failed" e))
            | None => mkStrategyResult true None
            end)
     (λ _ _, False) st.
Proof.
  unfold directUpload. apply wp_try_catch, wp_bind, wp_act, wp_bind.
  destruct (env_upload env) as [e|]; [by apply wp_throw, wp_ret|].
  by apply wp_ret, wp_bind, wp_act, wp_ret.
Qed.

Lemma chunkedUpload_outcome cfg blob path st b :
  chunkSize cfg ≠ 0 →
  cancelled_state id c b st →
  wp (chunkedUpload env cfg id blob path c)
     (λ r st',
        if observed_from env b 0 (chunk_count cfg blob)
        then r = mkStrategyResult false (Some "Upload cancelled"%string)
             ∧ signal_aborted c st' = true
        else r = match env_upload env with
                 | Some e =>
                     mkStrategyResult false
                       (Some (message_or "Chunked upload failed" e))
                 | None => mkStrategyResult true None
                 end)
     (λ _ _, False) st.
Proof.
  intros Hcs HA. unfold chunkedUpload, totalChunks.
  rewrite bool_decide_eq_false_2 by done. fold (chunk_count cfg blob).
  apply wp_try_catch, wp_bind.
  eapply wp_mono; [by apply simulate_outcome| |].
  - intros _ st1 [Hobs _]. rewrite length_fmap, length_seq in Hobs.
    rewrite Hobs. apply wp_bind, wp_act, wp_bind.
    destruct (env_upload env) as [e|]; [by apply wp_throw, wp_ret|].
    by apply wp_ret, wp_ret.
  - intros e st1 (-> & Hobs & Hsig). rewrite length_fmap, length_seq in Hobs.
    rewrite Hobs. by apply wp_ret.
Qed.

(** The [try] block returns exactly when nothing fails; what it throws
    otherwise carries the description of the first failure. *)
Lemma uploadVideo_try_outcome cfg blob name hints st :
  chunkSize cfg ≠ 0 →
  cancelled_state id c false st →
  wp (uploadVideo_try env cfg id c blob name hints)
     (λ r st', failure env cfg blob = None
               ∧ success r = true ∧ r_error r = None ∧ r_uploadId r = id
               ∧ activeUploads st' !! id = None
               ∧ progressCallbacks st' !! id = None)
     (λ e st', failure env cfg blob = Some (message_or "Unknown error" e)
               ∧ (fails_cancelled env cfg blob = true →
                  signal_aborted c st' = true)) st.
Proof.
  intros Hcs HA. unfold uploadVideo_try, failure, fails_cancelled.
  apply wp_bind, (wp_update_tracked false); [done|]. intros st1 HA1.
  apply wp_bind, (wp_await_tracked false); [done|]. intros st2 HA2.
  cbn [orb] in HA2.
  apply wp_bind.
  destruct (env_auth env) as [user| |e]; [|by apply wp_throw..].
  apply wp_ret, wp_bind, (wp_update_tracked (env_cancel env AwGetUser));
    [done|]. intros st3 HA3.
  apply wp_bind.
  destruct (selectStrategy cfg blob).
  - eapply wp_mono; [apply directUpload_outcome| |done].
    intros r st4 ->.
    destruct (env_upload env) as [e|]; cbn [s_success negb s_error fmap option_fmap option_map].
    { by apply wp_throw. }
    apply wp_bind, wp_act, wp_bind. unfold storeVideoMetadata.
    apply wp_bind, wp_act.
    destruct (env_insert env) as [e|]; [by apply wp_throw|].
    apply wp_ret, wp_bind, wp_act, wp_bind, wp_act, wp_ret. cbn.
    by rewrite !lookup_delete_eq.
  - eapply wp_mono; [by apply (chunkedUpload_outcome cfg blob _ _ _ Hcs HA3)| |done].
    intros r st4 Hr. cbn beta in Hr. unfold observed_abort.
    destruct (observed_from env (env_cancel env AwGetUser) 0
                (chunk_count cfg blob)).
    { destruct Hr as [-> Hsig]. by apply wp_throw. }
    subst r.
    destruct (env_upload env) as [e|]; cbn [s_success negb s_error fmap option_fmap option_map].
    { by apply wp_throw. }
    apply wp_bind, wp_act, wp_bind. unfold storeVideoMetadata.
    apply wp_bind, wp_act.
    destruct (env_insert env) as [e|]; [by apply wp_throw|].
    apply wp_ret, wp_bind, wp_act, wp_bind, wp_act, wp_ret. cbn.
    by rewrite !lookup_delete_eq.
Qed.
End tracking.
Lemma fails_cancelled_failure env cfg blob :
  fails_cancelled env cfg blob = true →
  failure env cfg blob = Some "Upload cancelled"%string.
Proof.
  unfold fails_cancelled, failure.
  destruct (env_auth env); [|done..].
  destruct (selectStrategy cfg blob); [done|]. by intros ->.
Qed.

Lemma signal_aborted_settled c id updates st :
  signal_aborted c (cleanup id (updateProgress id updates st))
  = signal_aborted c st.
Proof.
  unfold signal_aborted. simpl.
  by destruct (updateProgress_tables id updates st) as (_ & _ & _ & ->).
Qed.

(** *** The events of a failed call *)

Section events.
Context (env : Env) (c : nat) (cb : callback).
Let id := env_uploadId env.

(** Either [cancelUpload] has not run, and the callback is still
    registered; or it has run, the callback is gone, and the last event
    delivered is the one [cancelUpload] asked for. *)
Let J (st : state) : Prop :=
  (signal_aborted c st = false ∧ progressCallbacks st !! id = Some cb
   ∧ activeUploads st !! id = Some c ∧ (c < length (controllers st))%nat)
  ∨ (signal_aborted c st = true ∧ progressCallbacks st !! id = None
     ∧ activeUploads st !! id = None
     ∧ last (calls st) = Some (cb, status_event id Cancelled)).

Lemma events_update updates st : J st → J (updateProgress id updates st).
Proof.
  intros [(Hsig & Hcb & Hact & Hlt)|(Hsig & Hcb & Hact & Hlast)].
  - left. unfold signal_aborted in *.
    by destruct (updateProgress_tables id updates st) as (_ & -> & -> & ->).
  - right. by rewrite updateProgress_unregistered.
Qed.

Lemma events_await p st :
  J st → J (if env_cancel env p then cancelUpload (env_uploadId env) st else st).
Proof.
  intros HJ. destruct (env_cancel env p); [|done]. fold id.
  destruct HJ as [(Hsig & Hcb & Hact & Hlt)|(Hsig & Hcb & Hact & Hlast)].
  - right. unfold cancelUpload. rewrite Hact.
    rewrite (updateProgress_registered _ _ _ cb) by done.
    unfold signal_aborted. simpl.
    rewrite list_lookup_insert_eq, !lookup_delete_eq, last_snoc by done.
    done.
  - right. unfold cancelUpload. by rewrite Hact.
Qed.

Lemma uploadVideo_try_events cfg blob name hints st :
  chunkSize cfg ≠ 0 →
  signal_aborted c st = false → progressCallbacks st !! id = Some cb →
  activeUploads st !! id = Some c → (c < length (controllers st))%nat →
  wp (uploadVideo_try env cfg id c blob name hints)
     (λ _ _, True)
     (λ e st',
        last (calls (cleanup id
                (updateProgress id
                   (mkUpdate None None None None None None (Some Error)
                      (Some (message_or "Unknown error" e))) st')))
        = Some (cb, if signal_aborted c st' then status_event id Cancelled
                    else error_event id (message_or "Unknown error" e))) st.
Proof.
  intros Hcs Hsig Hcb Hact Hlt.
  assert (J st) as HJ by (left; by split_and!).
  eapply wp_mono;
    [exact (uploadVideo_try_inv env id J events_update events_await
              cfg c blob name hints st Hcs HJ)|done|].
  intros e st' [(Hsig' & Hcb' & _)|(Hsig' & Hcb' & _ & Hlast)]; rewrite Hsig'.
  - rewrite (updateProgress_registered _ _ _ cb) by done. simpl.
    by rewrite last_snoc.
  - by rewrite updateProgress_unregistered.
Qed.
End events.

(** C5, as stated, fails in two ways.  A cancelled upload returns a
    failure with the description ["Upload cancelled"], but none of the
    events delivered carries a description, and the last one is the
    [cancelled] event of [cancelUpload].  And when the callback throws
    on the [error] event, which the [catch] block delivers, the
    exception leaves [uploadVideo]. *)
Lemma uploadVideo_failure_not_reported :
  ((success <$> cancelled_run.2) = Some false
   ∧ (r_error <$> cancelled_run.2) = Some (Some "Upload cancelled"%string)
   ∧ Forall (λ call, error call.2 = None) (calls cancelled_run.1)
   ∧ status <$> (calls cancelled_run.1).*2
     = [Pending; Uploading; Pending; Cancelled])
  ∧ (Raising.uploadVideo throws_on_error signed_out (bytes 3) "clip.webm"
       no_hints (Some 7%nat) (new small_chunks)).2
    = Throw (JsError "callback failed").
Proof.
  split; [|by vm_compute].
  split_and!; [by vm_compute..| |by vm_compute].
  apply (bool_decide_unpack _). by vm_compute.
Qed.

(** C5 (amended): with a callback that returns normally, [uploadVideo]
    always settles with a result object, and the upload is then out of
    the table of active uploads and has no callback left.  The result is
    a failure exactly when something fails on the way (nobody signed in,
    the request for the user rejects, the loop of the chunked strategy
    finds the upload cancelled, the storage reports an error, the insert
    of the metadata rejects), and it carries the description of the
    first failure.  When a callback was passed, the last event of a
    failed upload is the [error] event with that description if
    [cancelUpload] has not run for the upload, and the [cancelled] event,
    which has no description, if it has.  [cancelUpload] has not run
    when nobody calls it, and it has run when the failure is the
    cancellation. *)
Theorem uploadVideo_settles :
  ∀ throws env blob name hints onProgress st,
    chunkSize (config st) ≠ 0 →
    (∀ cb event, throws cb event = None) →
    ∃ st' result,
      Raising.uploadVideo throws env blob name hints onProgress st
        = (st', Ok result)
      ∧ r_uploadId result = env_uploadId env
      ∧ isUploadActive (env_uploadId env) st' = false
      ∧ progressCallbacks st' !! env_uploadId env = None
      ∧ r_error result = failure env (config st) blob
      ∧ success result = bool_decide (failure env (config st) blob = None)
      ∧ (∀ msg cb,
           failure env (config st) blob = Some msg → onProgress = Some cb →
           last (calls st')
           = Some (cb, if signal_aborted (length (controllers st)) st'
                       then status_event (env_uploadId env) Cancelled
                       else error_event (env_uploadId env) msg))
      ∧ ((∀ p, env_cancel env p = false) →
         signal_aborted (length (controllers st)) st' = false)
      ∧ (fails_cancelled env (config st) blob = true →
         signal_aborted (length (controllers st)) st' = true).
Proof.
  intros throws env blob name hints onProgress st Hcs Hreturns.
  rewrite raising_uploadVideo by done.
  set (id := env_uploadId env). set (c := length (controllers st)).
  unfold uploadVideo. fold id. cbn [new_AbortController]. fold c.
  set (st1 := match onProgress with
              | Some cb => set_progressCallback id cb _
              | None => _
              end).
  assert (config st1 = config st) as Hcfg by (unfold st1; by destruct onProgress).
  assert (signal_aborted c st1 = false ∧ (c < length (controllers st1))%nat
          ∧ activeUploads st1 !! id = Some c) as (Hsig1 & Hlt1 & Hact1).
  { unfold st1, signal_aborted, c.
    destruct onProgress; simpl; rewrite lookup_app_r, Nat.sub_diag,
      length_app, lookup_insert_eq by done; simpl; split_and!; (done || lia). }
  rewrite Hcfg.
  pose proof (uploadVideo_try_outcome env c (config st) blob name hints st1
                Hcs (conj Hsig1 (conj Hlt1 Hact1))) as Hout.
  pose proof (uploadVideo_try_frame env id
    (λ s, (∀ p, env_cancel env p = false) → signal_aborted c s = false))
    as Hquiet.
  specialize (Hquiet ltac:(intros u s H Hq; unfold signal_aborted;
    destruct (updateProgress_tables id u s) as (_ & _ & _ & ->); by apply H)).
  specialize (Hquiet ltac:(intros p s H Hq; rewrite Hq; by apply H)).
  specialize (Hquiet ltac:(intros s H Hq; by apply H)).
  specialize (Hquiet (config st) c blob name hints st1 Hcs (λ _, Hsig1)).
  assert (∀ cb, onProgress = Some cb →
            wp (uploadVideo_try env (config st) id c blob name hints)
              (λ _ _, True)
              (λ e st',
                 last (calls (cleanup id
                         (updateProgress id
                            (mkUpdate None None None None None None (Some Error)
                               (Some (message_or "Unknown error" e))) st')))
                 = Some (cb, if signal_aborted c st'
                             then status_event id Cancelled
                             else error_event id (message_or "Unknown error" e)))
              st1) as Hevents.
  { intros cb Hon. apply uploadVideo_try_events; try done.
    unfold st1. rewrite Hon. simpl. apply lookup_insert_eq. }
  unfold wp in Hout, Hquiet, Hevents. fold id in Hout.
  destruct (uploadVideo_try env (config st) id c blob name hints st1)
    as [st2 [r|e|]]; [| |done].
  - destruct Hout as (Hnone & Hsucc & Herr & Hid & Hact & Hcbs).
    exists st2, r. rewrite Hnone. split_and!; try done.
    + unfold isUploadActive. rewrite Hact.
      apply bool_decide_eq_false_2. by intros [? ?].
    + intros Hfc. apply fails_cancelled_failure in Hfc. congruence.
  - destruct Hout as (Hfail & Hcancelled).
    eexists _, _. split; [reflexivity|]. cbn [r_uploadId r_error success].
    rewrite Hfail, signal_aborted_settled.
    split_and!; try done.
    + unfold isUploadActive. simpl. rewrite lookup_delete_eq.
      apply bool_decide_eq_false_2. by intros [? ?].
    + simpl. apply lookup_delete_eq.
    + intros msg cb [= <-] Hon. by apply Hevents.
Qed.

Lemma uploadVideo_settles_witness :
  ∃ st' result,
    Raising.uploadVideo (λ _ _, None) signed_out (bytes 3) "clip.webm"
      no_hints (Some 7%nat) (new small_chunks) = (st', Ok result)
    ∧ success result = false
    ∧ r_error result = Some "User not authenticated"%string.
Proof.
  destruct (uploadVideo_settles (λ _ _, None) signed_out (bytes 3) "clip.webm"
              no_hints (Some 7%nat) (new small_chunks))
    as (st' & result & Hrun & _ & _ & _ & Herr & Hsucc & _).
  - simpl. lia.
  - reflexivity.
  - exists st', result. split; [exact Hrun|]. split; [exact Hsucc|exact Herr].
Defined.

End VideoUploadServiceFailures.
